(** * InstaLearn: the chunking engine, the parsers, the bookmark store and
      the import of a file, embedded from the JavaScript sources.

    - [JS]: the part of the JavaScript string library the sources use
      (strings are sequences of UTF-16 code units), and a small backtracking
      matcher for the regular expressions of the sources.
    - [Chunker]: src/utils/chunker.js.
    - [PdfParser]: [detectHeadingPattern] of the PDF text extractor.
    - [TextParser]: the text file parser of src/utils/textParser.js.
    - [PdfText]: [cleanText] of the PDF text extractor.
    - [Db]: the IndexedDB persistence layer, with the three object stores as
      explicit state.
    - [Home]: [handleFileSelect], which validates, extracts, chunks and
      stores a file. *)

From Stdlib Require Import ZArith NArith List Ascii String Bool Lia.
From stdpp Require Import gmap strings list fin_maps sorting.

(* ===================================================================== *)
(** ** JavaScript strings                                                 *)
(* ===================================================================== *)

Module JS.

(** A JavaScript string is a finite sequence of UTF-16 code units. *)
Abbreviation jsstring := (list N).

(** ASCII literals of the sources, as code units. *)
Definition js (s : string) : jsstring :=
  map N_of_ascii (list_ascii_of_string s).

Definition SP : N := 32.
Definition LF : N := 10.
Definition CR : N := 13.

(** ECMAScript LineTerminator: LF, CR, LS, PS. *)
Definition isLineTerminator (c : N) : bool :=
  ((c =? 10) || (c =? 13) || (c =? 0x2028) || (c =? 0x2029))%N.

(** ECMAScript WhiteSpace: TAB, VT, FF, ZWNBSP and the Space_Separator
    category. *)
Definition isWhiteSpace (c : N) : bool :=
  ((c =? 9) || (c =? 11) || (c =? 12) || (c =? 32) || (c =? 0xA0)
   || (c =? 0x1680) || ((0x2000 <=? c) && (c <=? 0x200A))
   || (c =? 0x202F) || (c =? 0x205F) || (c =? 0x3000) || (c =? 0xFEFF))%N.

(** The class [\s] of regular expressions, which is also what
    [String.prototype.trim] strips. *)
Definition isSpace (c : N) : bool := isWhiteSpace c || isLineTerminator c.

Definition isDigit (c : N) : bool := ((48 <=? c) && (c <=? 57))%N.
Definition isUpperAZ (c : N) : bool := ((65 <=? c) && (c <=? 90))%N.
Definition isLowerAZ (c : N) : bool := ((97 <=? c) && (c <=? 122))%N.

Definition upperASCII (c : N) : N := if isLowerAZ c then (c - 32)%N else c.
Definition lowerASCII (c : N) : N := if isUpperAZ c then (c + 32)%N else c.

(** [s.length > 0], also the truthiness of a string. *)
Definition nonempty (s : jsstring) : bool :=
  match s with [] => false | _ :: _ => true end.

Definition streq (a b : jsstring) : bool := bool_decide (a = b).

(** [s.trim()]. *)
Fixpoint trimStart (s : jsstring) : jsstring :=
  match s with
  | [] => []
  | c :: s' => if isSpace c then trimStart s' else s
  end.

Definition trimEnd (s : jsstring) : jsstring := rev (trimStart (rev s)).

Definition trim (s : jsstring) : jsstring := trimEnd (trimStart s).

(** [s.split(sep)] for a separator of one code unit: every occurrence
    separates, so empty pieces are kept and the result is never empty. *)
Fixpoint split (sep : N) (s : jsstring) : list jsstring :=
  match s with
  | [] => [[]]
  | c :: s' =>
      if (c =? sep)%N then [] :: split sep s'
      else match split sep s' with
           | [] => [[c]]
           | w :: ws => (c :: w) :: ws
           end
  end.

(** [arr.join(sep)]. *)
Fixpoint join (sep : jsstring) (l : list jsstring) : jsstring :=
  match l with
  | [] => []
  | [x] => x
  | x :: l' => x ++ sep ++ join sep l'
  end.

(** [s.split(/\s+/)]: the pieces between maximal whitespace runs; a leading
    or trailing run leaves an empty piece. *)
Fixpoint splitSpaces_from (inRun : bool) (s : jsstring) : list jsstring :=
  match s with
  | [] => [[]]
  | c :: s' =>
      if isSpace c then
        if inRun then splitSpaces_from true s'
        else [] :: splitSpaces_from true s'
      else match splitSpaces_from false s' with
           | [] => [[c]]
           | w :: ws => (c :: w) :: ws
           end
  end.

Definition splitSpaces (s : jsstring) : list jsstring :=
  splitSpaces_from false s.

(** [s.replace(/\s+/g, ' ')]. *)
Fixpoint collapseSpaces_from (inRun : bool) (s : jsstring) : jsstring :=
  match s with
  | [] => []
  | c :: s' =>
      if isSpace c then
        if inRun then collapseSpaces_from true s'
        else SP :: collapseSpaces_from true s'
      else c :: collapseSpaces_from false s'
  end.

Definition collapseSpaces (s : jsstring) : jsstring :=
  collapseSpaces_from false s.

(** [s.replace(/\r\n/g, '\n')]. *)
Fixpoint replaceCRLF (s : jsstring) : jsstring :=
  match s with
  | [] => []
  | c :: s' =>
      match s' with
      | d :: s'' =>
          if ((c =? 13) && (d =? 10))%N then LF :: replaceCRLF s''
          else c :: replaceCRLF s'
      | [] => [c]
      end
  end.

(** [w.endsWith(x)]. *)
Definition endsWith (w x : jsstring) : bool :=
  bool_decide (drop (length w - length x) w = x).

(** [w.slice(-1)]: the last code unit, or the empty string. *)
Definition lastChar (w : jsstring) : jsstring :=
  drop (length w - 1) w.

(** [arr.slice(0, n)] and [arr.slice(n)] for [0 <= n]. *)
Definition sliceTo {A} (n : nat) (l : list A) : list A := take n l.
Definition sliceFrom {A} (n : nat) (l : list A) : list A := drop n l.

(** *** Regular expressions

    The patterns of the sources use literals, classes, sequence,
    alternation, greedy repetition, capture groups and the assertions [^]
    and [$].  [run] is the backtracking matcher of ECMAScript in
    continuation-passing style: alternatives are tried left to right, a
    repetition tries one more iteration before it tries to stop, and an
    iteration that consumes nothing is rejected. *)

Inductive regex : Type :=
| Eps
| Cls (p : N -> bool)
| Seq (r1 r2 : regex)
| Alt (r1 r2 : regex)
| Star (r : regex)
| Group (i : nat) (r : regex)
| Bol
| Eol.

Record mstate : Type := MState {
  before : list N;              (* consumed input, last code unit first *)
  rest : list N;                (* input still to be matched *)
  caps : list (nat * jsstring)  (* captures, latest first *)
}.

Section Matcher.
(** The flags [i] and [m]. *)
Variables (icase multiline : bool).

(** With [i], two code units match when their canonical forms agree; the
    classes of the sources contain either no cased letter or Basic Latin
    letters only, and a code unit outside Basic Latin never canonicalizes
    into it, so folding a-z and A-Z is all the flag does here. *)
Definition classMatch (p : N -> bool) (c : N) : bool :=
  if icase then p c || p (upperASCII c) || p (lowerASCII c) else p c.

Definition atBol (st : mstate) : bool :=
  match before st with
  | [] => true
  | c :: _ => multiline && isLineTerminator c
  end.

Definition atEol (st : mstate) : bool :=
  match rest st with
  | [] => true
  | c :: _ => multiline && isLineTerminator c
  end.

Definition advance (c : N) (s' : list N) (st : mstate) : mstate :=
  MState (c :: before st) s' (caps st).

Definition capture (i : nat) (st0 st1 : mstate) : mstate :=
  MState (before st1) (rest st1)
         ((i, take (length (rest st0) - length (rest st1)) (rest st0))
            :: caps st1).

Fixpoint run (r : regex) (st : mstate) (k : mstate -> option mstate)
  {struct r} : option mstate :=
  match r with
  | Eps => k st
  | Cls p =>
      match rest st with
      | c :: s' => if classMatch p c then k (advance c s' st) else None
      | [] => None
      end
  | Seq r1 r2 => run r1 st (fun st' => run r2 st' k)
  | Alt r1 r2 =>
      match run r1 st k with
      | Some out => Some out
      | None => run r2 st k
      end
  | Star r' =>
      (fix loop (fuel : nat) (st : mstate) {struct fuel} : option mstate :=
         match fuel with
         | O => k st
         | S fuel' =>
             match run r' st (fun st' =>
                      if length (rest st') <? length (rest st)
                      then loop fuel' st' else None) with
             | Some out => Some out
             | None => k st
             end
         end) (length (rest st)) st
  | Group i r' => run r' st (fun st' => k (capture i st st'))
  | Bol => if atBol st then k st else None
  | Eol => if atEol st then k st else None
  end.

(** [re.exec(s)]: the first position from which the pattern matches. *)
Fixpoint execFrom (r : regex) (bef s : list N) : option mstate :=
  match run r (MState bef s []) Some with
  | Some out => Some out
  | None =>
      match s with
      | [] => None
      | c :: s' => execFrom r (c :: bef) s'
      end
  end.

Definition exec (r : regex) (s : jsstring) : option mstate :=
  execFrom r [] s.

Definition matches (r : regex) (s : jsstring) : bool :=
  match exec r s with Some _ => true | None => false end.
End Matcher.

(** The value of capture group [i] after a match. *)
Definition group (i : nat) (st : mstate) : option jsstring :=
  snd <$> List.find (fun c => Nat.eqb (fst c) i) (caps st).

(** Pattern syntax. *)
Definition Chr (c : N) : regex := Cls (N.eqb c).
Definition Plus (r : regex) : regex := Seq r (Star r).
Definition Opt (r : regex) : regex := Alt r Eps.

Fixpoint Seqs (rs : list regex) : regex :=
  match rs with
  | [] => Eps
  | [r] => r
  | r :: rs' => Seq r (Seqs rs')
  end.

Fixpoint Alts (rs : list regex) : regex :=
  match rs with
  | [] => Eps
  | [r] => r
  | r :: rs' => Alt r (Alts rs')
  end.

Definition Lit (s : string) : regex := Seqs (map Chr (js s)).

(** [r{0,n}] and [r{m,n}], greedy. *)
Fixpoint UpTo (n : nat) (r : regex) : regex :=
  match n with
  | O => Eps
  | S n' => Opt (Seq r (UpTo n' r))
  end.

Fixpoint Exactly (m : nat) (r : regex) : regex :=
  match m with
  | O => Eps
  | S m' => Seq r (Exactly m' r)
  end.

Definition Rep (m n : nat) (r : regex) : regex :=
  Seq (Exactly m r) (UpTo (n - m) r).

Definition OneOf (s : string) : N -> bool :=
  fun c => existsb (N.eqb c) (js s).

Definition Space : regex := Cls isSpace.                          (* \s *)
Definition Digit : regex := Cls isDigit.                          (* \d *)
Definition Dot : regex := Cls (fun c => negb (isLineTerminator c)). (* . *)
Definition UpperAZ : regex := Cls isUpperAZ.                      (* [A-Z] *)

End JS.

(* ===================================================================== *)
(** ** src/utils/chunker.js                                               *)
(* ===================================================================== *)

Module Chunker.
Import JS.

Definition MAX_WORDS : nat := 50.

(** The values [chunkText] may be called with. *)
Inductive jsval : Type :=
| JUndefined
| JNull
| JBool (b : bool)
| JNumber (z : Z)
| JString (s : jsstring)
| JObject.

Definition truthy (v : jsval) : bool :=
  match v with
  | JUndefined | JNull => false
  | JBool b => b
  | JNumber z => negb (z =? 0)%Z
  | JString s => nonempty s
  | JObject => true
  end.

(** The second argument of [chunkText]: left out (or [undefined]), [null],
    or a value whose property [structuralChunking] is read ([JUndefined]
    when it has none). *)
Inductive optionsArg : Type :=
| OptionsOmitted
| OptionsNull
| OptionsObject (structuralChunking : jsval).

(** Destructuring [null] throws. *)
Inductive result (A : Type) : Type :=
| Ok (a : A)
| TypeError.
Arguments Ok {A} a.
Arguments TypeError {A}.

Record chunk : Type := Chunk {
  text : jsstring;
  context : option jsstring   (* [None] is [null] *)
}.

Record section : Type := Section_ {
  header : option jsstring;
  content : jsstring
}.

(** [countWords]. *)
Definition countWords (t : jsstring) : nat :=
  if nonempty t
  then length (List.filter (fun word => 0 <? length word) (splitSpaces t))
  else 0.

(** *** [splitLongSentence] *)

(** The mis-encoded literal of line 203: the three code units U+00E2,
    U+20AC, U+201D. *)
Definition DASH_LITERAL : jsstring := [0xE2; 0x20AC; 0x201D]%N.

Definition isBreakWord (w : jsstring) : bool :=
  endsWith w (js ",") || endsWith w (js ";") || endsWith w (js ":")
  || endsWith w DASH_LITERAL || endsWith w (js "-").

(** The indices the inner loop visits: from [length - 1] down to
    [max 0 (length - 10)]. *)
Definition lookBack (len : nat) : list nat :=
  rev (seq (len - 10) (len - (len - 10))).

Definition breakIndex (currentChunk : list jsstring) : nat :=
  match List.find (fun i => isBreakWord (nth i currentChunk []))
                  (lookBack (length currentChunk)) with
  | Some i => i
  | None => length currentChunk - 1
  end.

(** One iteration of the loop over the words; the state is
    [(chunks, currentChunk)]. *)
Definition longStep (st : list jsstring * list jsstring) (word : jsstring)
  : list jsstring * list jsstring :=
  let '(chunks, currentChunk) := st in
  let currentChunk := currentChunk ++ [word] in
  if MAX_WORDS <=? length currentChunk then
    let b := breakIndex currentChunk in
    (chunks ++ [join (js " ") (sliceTo (b + 1) currentChunk)],
     sliceFrom (b + 1) currentChunk)
  else (chunks, currentChunk).

Definition splitLongSentence (sentence : jsstring) : list jsstring :=
  let words := split SP sentence in
  let '(chunks, currentChunk) := fold_left longStep words ([], []) in
  let chunks :=
    if 0 <? length currentChunk
    then chunks ++ [join (js " ") currentChunk] else chunks in
  List.filter (fun c => 0 <? length (trim c)) chunks.

(** *** [splitIntoSentences] *)

Definition isEndPunctuation (w : jsstring) : bool :=
  existsb (streq (lastChar w)) [js "."; js "!"; js "?"].

(** [/^[A-Z]/.test(w)]. *)
Definition startsWithCapital (w : jsstring) : bool :=
  matches false false (Seq Bol UpperAZ) w.

(** [/^(Mr|Mrs|Ms|Dr|Prof|Sr|Jr|vs|etc|i\.e|e\.g)\.$/.test(w)]. *)
Definition abbreviationPattern : regex :=
  Seqs [Bol;
        Group 1 (Alts [Lit "Mr"; Lit "Mrs"; Lit "Ms"; Lit "Dr"; Lit "Prof";
                       Lit "Sr"; Lit "Jr"; Lit "vs"; Lit "etc"; Lit "i.e";
                       Lit "e.g"]);
        Chr 46; Eol].

Definition isAbbreviation (w : jsstring) : bool :=
  matches false false abbreviationPattern w.

(** Whether the word at index [i] closes the current sentence; [next] is
    [words[i + 1]], absent exactly when [i === words.length - 1]. *)
Definition closesSentence (w : jsstring) (next : option jsstring) : bool :=
  let nextStartsWithCapital :=
    match next with
    | Some nextWord => nonempty nextWord && startsWithCapital nextWord
    | None => false
    end in
  let isLast := match next with None => true | Some _ => false end in
  isEndPunctuation w && negb (isAbbreviation w)
  && (nextStartsWithCapital || isLast).

(** The loop over the indices of [words], with its two variables. *)
Fixpoint sentenceLoop (words : list jsstring) (current : jsstring)
  (sentences : list jsstring) : list jsstring * jsstring :=
  match words with
  | [] => (sentences, current)
  | w :: rest =>
      let current :=
        current ++ (if nonempty current then js " " else []) ++ w in
      if closesSentence w (head rest)
      then sentenceLoop rest [] (sentences ++ [trim current])
      else sentenceLoop rest current sentences
  end.

Definition splitIntoSentences (t : jsstring) : list jsstring :=
  let '(sentences, current) := sentenceLoop (split SP t) [] [] in
  if nonempty (trim current) then sentences ++ [trim current] else sentences.

(** *** [chunkSentences] *)

Record packState : Type := PackState {
  chunks : list jsstring;
  currentChunk : list jsstring;
  currentWordCount : nat
}.

(** [chunks.push(currentChunk.join(' ').trim())]. *)
Definition pushCurrent (st : packState) : list jsstring :=
  chunks st ++ [trim (join (js " ") (currentChunk st))].

(** [chunks.push(...sentenceChunks)] appends the pieces.  An engine
    refuses a call with too many arguments; that is modelled where the
    chunker is called, in [Home]. *)
Definition packStep (st : packState) (sentence : jsstring) : packState :=
  let sentenceWords := countWords sentence in
  if MAX_WORDS <? sentenceWords then
    let st :=
      if 0 <? length (currentChunk st)
      then PackState (pushCurrent st) [] 0
      else st in
    PackState (chunks st ++ splitLongSentence sentence)
              (currentChunk st) (currentWordCount st)
  else if MAX_WORDS <? currentWordCount st + sentenceWords then
    PackState (if 0 <? length (currentChunk st)
               then pushCurrent st else chunks st)
              [sentence] sentenceWords
  else
    PackState (chunks st) (currentChunk st ++ [sentence])
              (currentWordCount st + sentenceWords).

Definition chunkSentences (sentences : list jsstring) : list jsstring :=
  let st := fold_left packStep sentences (PackState [] [] 0) in
  let chunks :=
    if 0 <? length (currentChunk st) then pushCurrent st else chunks st in
  List.filter (fun c => 0 <? length c) chunks.

(** *** [chunkByStructure] *)

(** [/^(#{1,6})\s+(.+)$/]. *)
Definition headerLinePattern : regex :=
  Seqs [Bol; Group 1 (Rep 1 6 (Chr 35)); Plus Space; Group 2 (Plus Dot); Eol].

(** [line.match(...)], reduced to its second group. *)
Definition headerMatch (line : jsstring) : option jsstring :=
  exec false false headerLinePattern line ≫= group 2.

Definition closeSection (sections : list section)
  (currentHeader : option jsstring) (currentContent : list jsstring)
  : list section :=
  if 0 <? length currentContent
  then sections ++ [Section_ currentHeader (trim (join [LF] currentContent))]
  else sections.

(** One line of the scan; the state is
    [(sections, currentHeader, currentContent)]. *)
Definition structStep
  (st : list section * option jsstring * list jsstring) (line : jsstring)
  : list section * option jsstring * list jsstring :=
  let '(sections, currentHeader, currentContent) := st in
  match headerMatch line with
  | Some title =>
      (closeSection sections currentHeader currentContent,
       Some (trim title), [])
  | None => (sections, currentHeader, currentContent ++ [line])
  end.

Definition sectionsOf (t : jsstring) : list section :=
  let '(sections, currentHeader, currentContent) :=
    fold_left structStep (split LF t) ([], None, []) in
  closeSection sections currentHeader currentContent.

Definition sectionChunks (s : section) : list chunk :=
  if nonempty (content s) then
    let cleanContent := trim (collapseSpaces (content s)) in
    let sentences := splitIntoSentences cleanContent in
    map (fun chunkText => Chunk chunkText (header s)) (chunkSentences sentences)
  else [].

Definition chunkByStructure (t : jsstring) : list chunk :=
  flat_map sectionChunks (sectionsOf t).

(** *** [chunkText] *)

(** [/^#{1,6}\s+.+/m]. *)
Definition headerPattern : regex :=
  Seqs [Bol; Rep 1 6 (Chr 35); Plus Space; Plus Dot].

Definition hasHeaders (normalizedText : jsstring) : bool :=
  matches false true headerPattern normalizedText.

Definition normalize (t : jsstring) : jsstring := trim (replaceCRLF t).

Definition flatChunks (normalizedText : jsstring) : list chunk :=
  let cleanText := trim (collapseSpaces normalizedText) in
  let sentences := splitIntoSentences cleanText in
  map (fun chunkText => Chunk chunkText None) (chunkSentences sentences).

Definition chunkString (t : jsstring) (structuralChunking : jsval)
  : list chunk :=
  if nonempty t then
    let normalizedText := normalize t in
    if nonempty normalizedText then
      if truthy structuralChunking && hasHeaders normalizedText
      then chunkByStructure normalizedText
      else flatChunks normalizedText
    else []
  else [].

Definition chunkText (t : jsval) (options : optionsArg)
  : result (list chunk) :=
  match options with
  | OptionsNull => TypeError
  | _ =>
      let structuralChunking :=
        match options with
        | OptionsObject JUndefined | OptionsOmitted | OptionsNull => JBool true
        | OptionsObject v => v
        end in
      match t with
      | JString s => Ok (chunkString s structuralChunking)
      | _ => Ok []
      end
  end.

(** *** [getChunkStats] *)

(** An element of the array given to [getChunkStats]: [null], a plain
    string, or a chunk object. *)
Inductive chunkItem : Type :=
| ItemNull
| ItemString (s : jsstring)
| ItemChunk (c : chunk).

Definition getTextFromChunk (c : chunkItem) : jsstring :=
  match c with
  | ItemNull => []
  | ItemString s => s
  | ItemChunk c => text c
  end.

(** The object returned; the early return has no property [totalWords]. *)
Record stats : Type := Stats {
  totalChunks : nat;
  totalWords : option nat;
  avgWords : nat;
  minWords : nat;
  maxWords : nat
}.

(** [Math.round(a / b)] for natural numbers, [b > 0]: the nearest integer,
    a tie going up. *)
Definition roundDiv (a b : nat) : nat := (2 * a + b) / (2 * b).

(** [Math.min(...l)] and [Math.max(...l)] on a non-empty array. *)
Definition minOf (l : list nat) : nat :=
  match l with
  | [] => 0
  | x :: l' => fold_left Nat.min l' x
  end.

Definition maxOf (l : list nat) : nat :=
  match l with
  | [] => 0
  | x :: l' => fold_left Nat.max l' x
  end.

(** The argument is [None] for [null] or [undefined].  [Math.min] and
    [Math.max] are called with one argument for each chunk; that an engine
    refuses a call with too many arguments is modelled in [Home]. *)
Definition getChunkStats (chunks : option (list chunkItem)) : stats :=
  match chunks with
  | None | Some [] => Stats 0 None 0 0 0
  | Some chunks =>
      let wordCounts :=
        map (fun chunk => countWords (getTextFromChunk chunk)) chunks in
      let totalWords := fold_left Nat.add wordCounts 0 in
      Stats (length chunks) (Some totalWords)
            (roundDiv totalWords (length chunks))
            (minOf wordCounts) (maxOf wordCounts)
  end.

End Chunker.

(* ===================================================================== *)
(** ** [detectHeadingPattern] of the PDF text extractor                   *)
(* ===================================================================== *)

Module PdfParser.
Import JS.

(** [w.toUpperCase()] on Basic Latin.  The case table of the platform for
    the other blocks is not part of the sources: code units outside Basic
    Latin are left as they are, and what is stated below about
    [detectHeadingPattern] is stated on Basic Latin lines. *)
Definition toUpperCase (w : jsstring) : jsstring := map upperASCII w.

(** [/^chapter\s+[\divxlc]+/i]. *)
Definition chapterPattern : regex :=
  Seqs [Bol; Lit "chapter"; Plus Space;
        Plus (Cls (fun c => isDigit c || OneOf "ivxlc" c))].

(** [/^section\s+[\d.]+/i]. *)
Definition sectionPattern : regex :=
  Seqs [Bol; Lit "section"; Plus Space;
        Plus (Cls (fun c => isDigit c || (c =? 46)%N))].

(** [/^\d+(\.\d+)*\s+[A-Z]/]. *)
Definition outlinePattern : regex :=
  Seqs [Bol; Plus Digit; Star (Group 1 (Seq (Chr 46) (Plus Digit)));
        Plus Space; UpperAZ].

(** [/^(introduction|conclusion|abstract|summary|overview|background|methodology|results|discussion|references|appendix|acknowledgments?)/i]. *)
Definition keywordPattern : regex :=
  Seqs [Bol;
        Group 1 (Alts [Lit "introduction"; Lit "conclusion"; Lit "abstract";
                       Lit "summary"; Lit "overview"; Lit "background";
                       Lit "methodology"; Lit "results"; Lit "discussion";
                       Lit "references"; Lit "appendix";
                       Seq (Lit "acknowledgment") (Opt (Chr 115))])].

(** [/^[IVXLC]+\.\s+[A-Z]/i]. *)
Definition romanPattern : regex :=
  Seqs [Bol; Plus (Cls (OneOf "IVXLC")); Chr 46; Plus Space; UpperAZ].

(** [w === w.toUpperCase() && /[A-Z]/.test(w)]. *)
Definition isCapsWord (w : jsstring) : bool :=
  streq w (toUpperCase w) && matches false false UpperAZ w.

Definition detectHeadingPattern (text : jsstring) : bool :=
  let trimmed := trim text in
  if length trimmed <? 2 then false
  else if matches true false chapterPattern trimmed then true
  else if matches true false sectionPattern trimmed then true
  else if matches false false outlinePattern trimmed then true
  else
    let words := splitSpaces trimmed in
    if (2 <=? length words) && (length words <=? 8)
       && forallb isCapsWord words
    then true
    else if matches true false keywordPattern trimmed then true
    else if matches true false romanPattern trimmed then true
    else false.

End PdfParser.

(* ===================================================================== *)
(** ** src/utils/textParser.js                                           *)
(* ===================================================================== *)

Module TextParser.
Import JS.

Definition TAB : N := 9.
Definition DOT : N := 46.
Definition BOM : N := 0xFEFF.

(** [.replace(/\r/g, '\n')] and [.replace(/\t/g, ' ')]: every occurrence
    of one code unit becomes another. *)
Definition replaceUnit (a b : N) (s : jsstring) : jsstring :=
  map (fun c => if (c =? a)%N then b else c) s.

(** [.replace(/\n{3,}/g, '\n\n')]: of a run of line feeds, the first two
    are kept; [run] is the number of line feeds just before [s]. *)
Fixpoint squeezeNewlines_from (run : nat) (s : jsstring) : jsstring :=
  match s with
  | [] => []
  | c :: s' =>
      if (c =? LF)%N then
        if run <? 2 then LF :: squeezeNewlines_from (S run) s'
        else squeezeNewlines_from (S run) s'
      else c :: squeezeNewlines_from 0 s'
  end.

Definition squeezeNewlines (s : jsstring) : jsstring :=
  squeezeNewlines_from 0 s.

(** [.replace(/ +/g, ' ')]. *)
Fixpoint collapseBlanks_from (inRun : bool) (s : jsstring) : jsstring :=
  match s with
  | [] => []
  | c :: s' =>
      if (c =? SP)%N then
        if inRun then collapseBlanks_from true s'
        else SP :: collapseBlanks_from true s'
      else c :: collapseBlanks_from false s'
  end.

Definition collapseBlanks (s : jsstring) : jsstring :=
  collapseBlanks_from false s.

(** [.replace(/^ +/gm, '')]: the blanks at the start of the text and
    after a line terminator go. *)
Fixpoint stripLineStarts_from (atStart : bool) (s : jsstring) : jsstring :=
  match s with
  | [] => []
  | c :: s' =>
      if atStart && (c =? SP)%N then stripLineStarts_from true s'
      else c :: stripLineStarts_from (isLineTerminator c) s'
  end.

Definition stripLineStarts (s : jsstring) : jsstring :=
  stripLineStarts_from true s.

(** [.replace(/ +$/gm, '')]: a run of blanks goes when a line terminator
    or the end of the text follows it. *)
Fixpoint dropBlanks (s : jsstring) : jsstring :=
  match s with
  | c :: s' => if (c =? SP)%N then dropBlanks s' else s
  | [] => []
  end.

Definition atLineEnd (s : jsstring) : bool :=
  match s with
  | [] => true
  | c :: _ => isLineTerminator c
  end.

Fixpoint stripLineEnds (s : jsstring) : jsstring :=
  match s with
  | [] => []
  | c :: s' =>
      if (c =? SP)%N && atLineEnd (dropBlanks s') then stripLineEnds s'
      else c :: stripLineEnds s'
  end.

(** [.replace(/^\uFEFF/, '')]: the byte order mark, at the very start
    only. *)
Definition stripBOM (s : jsstring) : jsstring :=
  match s with
  | c :: s' => if (c =? BOM)%N then s' else s
  | [] => []
  end.

Definition cleanText (t : jsstring) : jsstring :=
  trim (stripBOM (stripLineEnds (stripLineStarts (collapseBlanks
    (replaceUnit TAB SP (squeezeNewlines
      (replaceUnit CR LF (replaceCRLF t)))))))).

(** [s.toLowerCase()], as far as the comparison with the extensions of
    [getFileType] can tell: on Basic Latin, on the Kelvin sign (which
    becomes [k]) and on the dotted capital I (which becomes [i] and a
    combining dot); no other code unit has a lower case in Basic Latin,
    so the others are left as they are. *)
Definition lowerUnit (c : N) : jsstring :=
  if isUpperAZ c then [(c + 32)%N]
  else if (c =? 0x212A)%N then [107%N]
  else if (c =? 0x130)%N then [105%N; 0x307%N]
  else [c].

Definition toLowerCase (s : jsstring) : jsstring := flat_map lowerUnit s.

Inductive fileType : Type := Pdf | Txt | Unknown.

(** [filename.split('.').pop()?.toLowerCase()]; [split] never returns an
    empty array, so [pop] always finds a piece. *)
Definition extension (filename : jsstring) : option jsstring :=
  toLowerCase <$> last (split DOT filename).

Definition getFileType (filename : jsstring) : fileType :=
  match extension filename with
  | Some ext =>
      if streq ext (js "pdf") then Pdf
      else if streq ext (js "txt") || streq ext (js "text") then Txt
      else if streq ext (js "md") || streq ext (js "markdown") then Txt
      else Unknown
  | None => Unknown
  end.

(** What [validateFile] reads of a [File]. *)
Record file : Type := File {
  file_name : jsstring;
  file_size : Z
}.

Record validation : Type := Validation {
  valid : bool;
  type : fileType;
  error : option jsstring   (* [None]: no property [error] *)
}.

Definition maxSize : Z := 50 * 1024 * 1024.

Definition validateFile (f : file) : validation :=
  let type := getFileType (file_name f) in
  match type with
  | Unknown =>
      Validation false type
        (Some (js "Unsupported file type. Please upload a PDF or TXT file."))
  | _ =>
      if (maxSize <? file_size f)%Z
      then Validation false type
             (Some (js "File too large. Maximum size is 50MB."))
      else Validation true type None
  end.

(** An awaited call resolves to a value, or rejects with an error of the
    given [message]. *)
Inductive settled (A : Type) : Type :=
| Resolved (a : A)
| Rejected (message : jsstring).
Arguments Resolved {A} a.
Arguments Rejected {A} message.

(** [extractTextFromFile]; the argument is what [file.text()] settles to. *)
Definition extractTextFromFile (fileText : settled jsstring)
  : settled jsstring :=
  match fileText with
  | Resolved t => Resolved (cleanText t)
  | Rejected message =>
      Rejected (js "Failed to read text file: " ++ message)
  end.

End TextParser.

(* ===================================================================== *)
(** ** [cleanText] of the PDF text extractor                             *)
(* ===================================================================== *)

Module PdfText.
Import JS TextParser.

Definition FF : N := 12.
Definition HYPHEN : N := 45.
Definition HASH : N := 35.

(** [.replace(/\n{4,}/g, '\n\n\n')]: of a run of line feeds, the first
    three are kept; [run] is the number of line feeds just before [s]. *)
Fixpoint capNewlines_from (run : nat) (s : jsstring) : jsstring :=
  match s with
  | [] => []
  | c :: s' =>
      if (c =? LF)%N then
        if run <? 3 then LF :: capNewlines_from (S run) s'
        else capNewlines_from (S run) s'
      else c :: capNewlines_from 0 s'
  end.

Definition capNewlines (s : jsstring) : jsstring := capNewlines_from 0 s.

(** [.replace(/-\n(\S)/g, '$1')]: a hyphen and a line feed go when a
    code unit that is not whitespace follows them; the search goes on
    after that code unit. *)
Fixpoint joinHyphenated (s : jsstring) : jsstring :=
  match s with
  | [] => []
  | c :: t =>
      match t with
      | d :: x :: s' =>
          if (c =? HYPHEN)%N && (d =? LF)%N && negb (isSpace x)
          then x :: joinHyphenated s'
          else c :: joinHyphenated t
      | _ => c :: joinHyphenated t
      end
  end.

(** [.replace(/\f/g, '\n\n')]. *)
Definition expandFormFeeds (s : jsstring) : jsstring :=
  flat_map (fun c => if (c =? FF)%N then [LF; LF] else [c]) s.

(** [.replace(/\n\n\n# /g, '\n\n# ')]: the search goes on after the
    blank that ends a match. *)
Fixpoint tightenHeadings (s : jsstring) : jsstring :=
  match s with
  | [] => []
  | c :: t =>
      match t with
      | c2 :: c3 :: c4 :: c5 :: s' =>
          if (c =? LF)%N && (c2 =? LF)%N && (c3 =? LF)%N && (c4 =? HASH)%N
             && (c5 =? SP)%N
          then LF :: LF :: HASH :: SP :: tightenHeadings s'
          else c :: tightenHeadings t
      | _ => c :: tightenHeadings t
      end
  end.

(** [cleanText] of the PDF text extractor. *)
Definition cleanText (t : jsstring) : jsstring :=
  trim (tightenHeadings (expandFormFeeds (joinHyphenated
    (stripLineStarts (collapseBlanks (capNewlines t)))))).

End PdfText.



(* ===================================================================== *)
(** ** The IndexedDB persistence layer                                    *)
(* ===================================================================== *)

Module Db.
Import JS Chunker.

(** The records of the three object stores. *)
Record document : Type := Document {
  doc_id : jsstring;
  doc_name : jsstring;
  doc_content : jsstring;
  doc_chunks : list chunk;
  doc_totalChunks : nat;
  doc_createdAt : jsstring
}.

Record bookmark : Type := Bookmark {
  bm_id : jsstring;
  bm_documentId : jsstring;
  bm_chunkIndex : Z;            (* the index of the chunk in the reader *)
  bm_text : jsstring;
  bm_createdAt : jsstring
}.

Record progress : Type := Progress {
  pr_documentId : jsstring;
  pr_currentIndex : Z;
  pr_lastRead : jsstring
}.

(** The database: each object store maps the primary key to the record. *)
Record db : Type := DB {
  documents : gmap jsstring document;
  bookmarks : gmap jsstring bookmark;
  progresses : gmap jsstring progress
}.

(** The stores have in-line keys ([keyPath: 'id'], [keyPath:
    'documentId']): a record is stored under the key it holds. *)
Definition keyedDocuments (s : db) : bool :=
  forallb (fun kd => streq (doc_id (snd kd)) (fst kd))
          (map_to_list (documents s)).

Definition keyedBookmarks (s : db) : bool :=
  forallb (fun kb => streq (bm_id (snd kb)) (fst kb))
          (map_to_list (bookmarks s)).

Definition keyedProgress (s : db) : bool :=
  forallb (fun kp => streq (pr_documentId (snd kp)) (fst kp))
          (map_to_list (progresses s)).

Definition keyed (s : db) : bool :=
  keyedDocuments s && keyedBookmarks s && keyedProgress s.

Definition emptyDb : db := DB ∅ ∅ ∅.

(** [db.put(store, value)] and [db.delete(store, key)]. *)
Definition putDocument (d : document) (s : db) : db :=
  DB (<[doc_id d := d]> (documents s)) (bookmarks s) (progresses s).

Definition putBookmark (b : bookmark) (s : db) : db :=
  DB (documents s) (<[bm_id b := b]> (bookmarks s)) (progresses s).

Definition putProgress (p : progress) (s : db) : db :=
  DB (documents s) (bookmarks s) (<[pr_documentId p := p]> (progresses s)).

Definition deleteFromDocuments (k : jsstring) (s : db) : db :=
  DB (delete k (documents s)) (bookmarks s) (progresses s).

Definition deleteFromBookmarks (k : jsstring) (s : db) : db :=
  DB (documents s) (delete k (bookmarks s)) (progresses s).

Definition deleteFromProgress (k : jsstring) (s : db) : db :=
  DB (documents s) (bookmarks s) (delete k (progresses s)).

(** The order of IndexedDB on string keys: code unit by code unit. *)
Fixpoint keyLeb (a b : jsstring) : bool :=
  match a, b with
  | [], _ => true
  | _ :: _, [] => false
  | x :: a', y :: b' =>
      if (x <? y)%N then true
      else if (y <? x)%N then false
      else keyLeb a' b'
  end.

Definition keyLe (x y : jsstring * bookmark) : Prop :=
  keyLeb (fst x) (fst y) = true.

Local Instance keyLe_dec x y : Decision (keyLe x y) :=
  decide (keyLeb (fst x) (fst y) = true).

(** [db.getAllFromIndex('bookmarks', 'documentId', documentId)]: the
    records whose [documentId] is the one asked for, in the order of their
    primary keys. *)
Definition getBookmarksByDocument (documentId : jsstring) (s : db)
  : list bookmark :=
  List.filter (fun b => streq (bm_documentId b) documentId)
              (map snd (merge_sort keyLe (map_to_list (bookmarks s)))).

Definition deleteBookmark (id : jsstring) (s : db) : db :=
  deleteFromBookmarks id s.

(** The argument of [saveBookmark]; [in_id] is [None] when the object has
    no [id]. *)
Record bookmarkInput : Type := BookmarkInput {
  in_id : option jsstring;
  in_documentId : jsstring;
  in_chunkIndex : Z;
  in_text : jsstring
}.

(** [uuid] and [now] are what [crypto.randomUUID()] and
    [new Date().toISOString()] return in this call. *)
Definition saveBookmark (uuid now : jsstring) (b : bookmarkInput) (s : db)
  : db * bookmark :=
  let id :=
    match in_id b with
    | Some i => if nonempty i then i else uuid
    | None => uuid
    end in
  let newBookmark :=
    Bookmark id (in_documentId b) (in_chunkIndex b) (in_text b) now in
  (putBookmark newBookmark s, newBookmark).

Definition isChunkBookmarked (documentId : jsstring) (chunkIndex : Z)
  (s : db) : bool :=
  existsb (fun b => (bm_chunkIndex b =? chunkIndex)%Z)
          (getBookmarksByDocument documentId s).

Record toggleResult : Type := ToggleResult {
  added : bool;
  saved : option bookmark   (* the property [bookmark] *)
}.

Definition toggleBookmark (uuid now : jsstring)
  (documentId : jsstring) (chunkIndex : Z) (text : jsstring) (s : db)
  : db * toggleResult :=
  let bookmarks := getBookmarksByDocument documentId s in
  match List.find (fun b => (bm_chunkIndex b =? chunkIndex)%Z) bookmarks with
  | Some existing =>
      (deleteBookmark (bm_id existing) s, ToggleResult false None)
  | None =>
      let '(s', bookmark) :=
        saveBookmark uuid now
          (BookmarkInput None documentId chunkIndex text) s in
      (s', ToggleResult true (Some bookmark))
  end.

Definition deleteDocument (id : jsstring) (s : db) : db :=
  let s := deleteFromDocuments id s in
  let bookmarks := getBookmarksByDocument id s in
  let s := fold_left (fun s bookmark => deleteFromBookmarks (bm_id bookmark) s)
                     bookmarks s in
  deleteFromProgress id s.

Definition saveProgress (now : jsstring) (documentId : jsstring)
  (currentIndex : Z) (s : db) : db :=
  putProgress (Progress documentId currentIndex now) s.

(** [db.get(store, key)]; [None] is [undefined]. *)
Definition getDocument (id : jsstring) (s : db) : option document :=
  documents s !! id.

Definition getProgress (documentId : jsstring) (s : db) : option progress :=
  progresses s !! documentId.

(** *** Documents *)

(** The argument of [saveDocument]; [din_id] is [None] when the object has
    no [id]. *)
Record documentInput : Type := DocumentInput {
  din_id : option jsstring;
  din_name : jsstring;
  din_content : jsstring;
  din_chunks : list chunk
}.

(** [uuid] and [now] are what [crypto.randomUUID()] and
    [new Date().toISOString()] return in this call. *)
Definition saveDocument (uuid now : jsstring) (doc : documentInput) (s : db)
  : db * document :=
  let id :=
    match din_id doc with
    | Some i => if nonempty i then i else uuid
    | None => uuid
    end in
  let document :=
    Document id (din_name doc) (din_content doc) (din_chunks doc)
             (length (din_chunks doc)) now in
  (putDocument document s, document).

(** The order of the index [createdAt] of the document store: by the
    indexed value, then by the primary key. *)
Definition createdLeb (x y : jsstring * document) : bool :=
  if streq (doc_createdAt (snd x)) (doc_createdAt (snd y))
  then keyLeb (fst x) (fst y)
  else keyLeb (doc_createdAt (snd x)) (doc_createdAt (snd y)).

Definition createdLe (x y : jsstring * document) : Prop :=
  createdLeb x y = true.

Local Instance createdLe_dec x y : Decision (createdLe x y) :=
  decide (createdLeb x y = true).

(** [db.getAllFromIndex('documents', 'createdAt')], reversed. *)
Definition getAllDocuments (s : db) : list document :=
  rev (map snd (merge_sort createdLe (map_to_list (documents s)))).

(** *** The calls of the module, one after the other *)

Inductive call : Type :=
| SaveDocument (uuid now : jsstring) (doc : documentInput)
| DeleteDocument (id : jsstring)
| SaveBookmark (uuid now : jsstring) (b : bookmarkInput)
| DeleteBookmark (id : jsstring)
| ToggleBookmark (uuid now documentId : jsstring) (chunkIndex : Z)
                 (text : jsstring)
| SaveProgress (now documentId : jsstring) (currentIndex : Z).

Definition perform (s : db) (c : call) : db :=
  match c with
  | SaveDocument uuid now doc => fst (saveDocument uuid now doc s)
  | DeleteDocument id => deleteDocument id s
  | SaveBookmark uuid now b => fst (saveBookmark uuid now b s)
  | DeleteBookmark id => deleteBookmark id s
  | ToggleBookmark uuid now documentId chunkIndex text =>
      fst (toggleBookmark uuid now documentId chunkIndex text s)
  | SaveProgress now documentId currentIndex =>
      saveProgress now documentId currentIndex s
  end.

(** The store after a sequence of calls on a fresh database. *)
Definition history (calls : list call) : db := fold_left perform calls emptyDb.

End Db.

(* ===================================================================== *)
(** ** [handleFileSelect] of the Home component                          *)
(* ===================================================================== *)

Module Home.
Import JS Chunker TextParser Db.

(** *** The calls with spread arguments

    [chunks.push(...sentenceChunks)] in [chunkSentences] and
    [Math.min(...wordCounts)], [Math.max(...wordCounts)] in [getChunkStats]
    pass one argument for each element of the array.  An engine takes only
    so many arguments in a call and throws a [RangeError] beyond; both
    functions run inside the [try] of [handleFileSelect]. *)

(** The numbers of arguments of the calls [chunks.push(...sentenceChunks)]
    that [chunkSentences] makes, in order: one call for each sentence of
    more than [MAX_WORDS] words. *)
Definition pushCalls (sentences : list jsstring) : list nat :=
  map (fun sentence => length (splitLongSentence sentence))
      (List.filter (fun sentence => MAX_WORDS <? countWords sentence)
                   sentences).

Definition sectionPushCalls (s : section) : list nat :=
  if nonempty (content s)
  then pushCalls (splitIntoSentences (trim (collapseSpaces (content s))))
  else [].

(** Those of [chunkText(text)], the options left out. *)
Definition chunkTextPushCalls (t : jsstring) : list nat :=
  if nonempty t then
    let normalizedText := normalize t in
    if nonempty normalizedText then
      if hasHeaders normalizedText
      then flat_map sectionPushCalls (sectionsOf normalizedText)
      else pushCalls
             (splitIntoSentences (trim (collapseSpaces normalizedText)))
    else []
  else [].

(** Those of [getChunkStats(chunks)]: none on the early return, else
    [Math.min] and [Math.max] with one argument for each chunk. *)
Definition getChunkStatsCalls (chunks : list chunk) : list nat :=
  match chunks with
  | [] => []
  | _ => [length chunks; length chunks]
  end.

(** What the handler reads of its surroundings: the identifier and the
    time of this call; what [file.text()] and [extractTextFromPDF(file)]
    settle to; the message of the [TypeError] of the engine; what the
    engine does with a call of so many spread arguments ([None]: it takes
    the call, [Some message]: it throws a [RangeError] of that message);
    and what [saveDocument] does ([None]: it resolves, [Some message]: the
    database cannot be opened or refuses the record, the call rejects and
    the store is as it was). *)
Record env : Type := Env {
  randomUUID : jsstring;
  now : jsstring;
  fileText : file → settled jsstring;
  extractTextFromPDF : file → settled jsstring;
  typeErrorMessage : jsstring;
  rangeError : nat → option jsstring;
  saveError : documentInput → option jsstring
}.

(** The error of the first call of [calls] that the engine refuses. *)
Fixpoint firstRangeError (e : env) (calls : list nat) : option jsstring :=
  match calls with
  | [] => None
  | n :: calls' =>
      match rangeError e n with
      | Some message => Some message
      | None => firstRangeError e calls'
      end
  end.

(** [showToast(message, 'error')] and
    [showToast(`Added "${file.name}" (${stats.totalChunks} pages)`)]. *)
Inductive toast : Type :=
| ErrorToast (message : option jsstring)
| AddedToast (name : jsstring) (pages : nat).

(** [error.message || 'Failed to process file']. *)
Definition failure (message : jsstring) : toast :=
  ErrorToast (Some (if nonempty message then message
                    else js "Failed to process file")).

(** [handleFileSelect]; [files] is [None] for [null] or [undefined].
    Every [failure] below is the [catch] of the handler.  [showToast] sets
    a state and [onDocumentAdded] is the reload of the list, an [async]
    function that is called and not awaited: neither throws. *)
Definition handleFileSelect (e : env) (files : option (list file)) (s : db)
  : db * option toast :=
  match files with
  | None | Some [] => (s, None)
  | Some (file :: _) =>
      let validation := validateFile file in
      if negb (valid validation) then
        (s, Some (ErrorToast (error validation)))
      else
        let extracted :=
          match type validation with
          | Pdf => extractTextFromPDF e file
          | _ => extractTextFromFile (fileText e file)
          end in
        match extracted with
        | Rejected message => (s, Some (failure message))
        | Resolved text =>
            if negb (nonempty text) || (length (trim text) =? 0) then
              (s, Some (failure
                          (js "Could not extract any text from the file")))
            else
              match firstRangeError e (chunkTextPushCalls text) with
              | Some message => (s, Some (failure message))
              | None =>
              match chunkText (JString text) OptionsOmitted with
              | TypeError => (s, Some (failure (typeErrorMessage e)))
              | Ok chunks =>
                  match firstRangeError e (getChunkStatsCalls chunks) with
                  | Some message => (s, Some (failure message))
                  | None =>
                  let stats := getChunkStats (Some (map ItemChunk chunks)) in
                  if length chunks =? 0 then
                    (s, Some (failure
                       (js "Could not create any readable chunks from the file")))
                  else
                    let doc :=
                      DocumentInput None (file_name file) text chunks in
                    match saveError e doc with
                    | Some message => (s, Some (failure message))
                    | None =>
                        let '(s', _) :=
                          saveDocument (randomUUID e) (now e) doc s in
                        (s', Some (AddedToast (file_name file)
                                              (totalChunks stats)))
                    end
                  end
              end
              end
        end
  end.

End Home.


(* ===================================================================== *)
(** ** The word view of a text                                            *)
(* ===================================================================== *)

(** The functions of the chunker all keep the words of the text and only
    regroup them.  The definitions below name the words of a text and the
    groupings, so that the properties of the chunker can be stated on
    lists of words. *)

Module Words.
Import JS Chunker.

Definition allSpace (s : jsstring) : bool := forallb isSpace s.

(** A word: not empty, no whitespace inside. *)
Definition solid (w : jsstring) : bool :=
  nonempty w && forallb (fun c => negb (isSpace c)) w.

Definition unwords (ws : list jsstring) : jsstring := join (js " ") ws.

Definition push (w : jsstring) (ws : list jsstring) : list jsstring :=
  if nonempty w then w :: ws else ws.

(** The run of non-whitespace at the head of [s], and the words after it. *)
Fixpoint tok (s : jsstring) : jsstring * list jsstring :=
  match s with
  | [] => ([], [])
  | c :: s' =>
      let '(w, ws) := tok s' in
      if isSpace c then ([], push w ws) else (c :: w, ws)
  end.

(** The maximal runs of non-whitespace of [s], in order. *)
Definition words (s : jsstring) : list jsstring :=
  let '(w, ws) := tok s in push w ws.

(** The recognized abbreviations. *)
Definition abbreviations : list jsstring :=
  map js ["Mr."; "Mrs."; "Ms."; "Dr."; "Prof."; "Sr."; "Jr."; "vs."; "etc.";
          "i.e."; "e.g."].

Definition endsInPunctuation (w : jsstring) : bool :=
  match last w with
  | Some c => ((c =? 46) || (c =? 33) || (c =? 63))%N
  | None => false
  end.

(** The word starts with one of the letters A to Z. *)
Definition startsUpper (w : jsstring) : bool :=
  match w with
  | c :: _ => isUpperAZ c
  | [] => false
  end.

(** The sentence rule with the capitals restricted to A to Z: a word that
    ends in [.], [!] or [?] and is not a recognized abbreviation ends the
    sentence when it is the last word ([next] is [None]) or the next word
    starts with one of the letters A to Z. *)
Definition endsSentence (w : jsstring) (next : option jsstring) : bool :=
  endsInPunctuation w
  && negb (bool_decide (w ∈ abbreviations))
  && match next with
     | None => true
     | Some n => startsUpper n
     end.

(** An upper-case letter, in the words of the specification.  The capital
    letters of Basic Latin, of the Latin-1 Supplement, of Greek and of
    Cyrillic are upper-case letters, whatever else is. *)
Definition isUpperCaseLetter (c : N) : bool :=
  (isUpperAZ c
   || ((0xC0 <=? c) && (c <=? 0xDE) && negb (c =? 0xD7))
   || ((0x391 <=? c) && (c <=? 0x3A9) && negb (c =? 0x3A2))
   || ((0x400 <=? c) && (c <=? 0x42F)))%N.

Definition startsUpperCase (w : jsstring) : bool :=
  match w with
  | c :: _ => isUpperCaseLetter c
  | [] => false
  end.

(** The sentence rule in the words of the specification: the next word
    starts with an upper-case letter. *)
Definition endsSentenceAsWorded (w : jsstring) (next : option jsstring)
  : bool :=
  endsInPunctuation w
  && negb (bool_decide (w ∈ abbreviations))
  && match next with
     | None => true
     | Some n => startsUpperCase n
     end.

(** Walking the words: [cur] is the sentence being built. *)
Fixpoint groupLoop (ws cur : list jsstring) : list (list jsstring) :=
  match ws with
  | [] => match cur with [] => [] | _ => [cur] end
  | w :: rest =>
      if endsSentence w (head rest)
      then (cur ++ [w]) :: groupLoop rest []
      else groupLoop rest (cur ++ [w])
  end.

Definition sentenceGroups (ws : list jsstring) : list (list jsstring) :=
  groupLoop ws [].

(** *** Notions used to state the invariants of the loops *)

Abbreviation solidAll ws := (Forall (fun w : jsstring => solid w = true) ws).

Definition spaceFree (w : jsstring) : bool :=
  forallb (fun c => negb (isSpace c)) w.

(** A string that starts and ends outside whitespace (or is empty): what
    [trim] leaves of it, whatever whitespace surrounds it. *)
Definition tight (u : jsstring) : Prop :=
  u = [] ∨ ∃ c d m, (u = [c] ∨ u = c :: m ++ [d])
                    ∧ isSpace c = false ∧ isSpace d = false.

(** What is left of [s] after the literal [l], if [s] starts with it. *)
Fixpoint stripPrefix (l s : list N) : option (list N) :=
  match l with
  | [] => Some s
  | c :: l' =>
      match s with
      | d :: s' => if (c =? d)%N then stripPrefix l' s' else None
      | [] => None
      end
  end.

(** Whether a run of the matcher found a match. *)
Definition succeeds (o : option mstate) : bool :=
  match o with Some _ => true | None => false end.

(** The alternatives of the abbreviation pattern, without the final dot. *)
Definition abbreviationStems : list string :=
  ["Mr"; "Mrs"; "Ms"; "Dr"; "Prof"; "Sr"; "Jr"; "vs"; "etc"; "i.e"; "e.g"].

(** A group of at most [MAX_WORDS] words, not empty. *)
Definition bounded (p : list jsstring) : Prop :=
  p ≠ [] ∧ length p ≤ MAX_WORDS.

(** The invariant of the loop of [splitLongSentence]: the chunks are the
    pieces cut so far, and fewer than [MAX_WORDS] words are pending. *)
Definition longInv (st : list jsstring * list jsstring)
  (consumed : list jsstring) : Prop :=
  ∃ pieces, fst st = map unwords pieces
            ∧ Forall bounded pieces
            ∧ concat pieces ++ snd st = consumed
            ∧ length (snd st) < MAX_WORDS.

(** The invariant of the loop of [chunkSentences]. *)
Definition packInv (st : packState) (consumed : list jsstring) : Prop :=
  ∃ packs curgs,
    chunks st = map unwords packs
    ∧ currentChunk st = map unwords curgs
    ∧ currentWordCount st = length (concat curgs)
    ∧ length (concat curgs) ≤ MAX_WORDS
    ∧ Forall (fun g => g ≠ []) curgs
    ∧ Forall bounded packs
    ∧ concat packs ++ concat curgs = consumed.

End Words.

(* ===================================================================== *)
(** ** Notions used by the statements                                     *)
(* ===================================================================== *)

Module Notions.
Import JS Chunker Words Db.

(** The options for which [chunkText] throws. *)
Definition isNullOptions (options : optionsArg) : bool :=
  match options with OptionsNull => true | _ => false end.

(** The input is not a string, or is a string of whitespace only (the
    empty string among them). *)
Definition blankInput (t : jsval) : bool :=
  match t with
  | JString s => allSpace s
  | _ => true
  end.

(** Whether [chunkText] runs with structural chunking: the property is
    truthy, or absent (the default). *)
Definition structuralEnabled (options : optionsArg) : bool :=
  match options with
  | OptionsOmitted => true
  | OptionsNull => false
  | OptionsObject JUndefined => true
  | OptionsObject v => truthy v
  end.

(** The header of the section that follows the lines [pre]: none when
    there is no line before the section, else the trimmed title of the
    header line that opens it. *)
Definition headerCase (pre : list jsstring) (h : option jsstring) : Prop :=
  (pre = [] ∧ h = None)
  ∨ ∃ pre' hl title,
      pre = pre' ++ [hl] ∧ headerMatch hl = Some title ∧ h = Some (trim title).

(** The invariant of the scan of [chunkByStructure] after the lines
    [seen]. *)
Definition structInv (seen : list jsstring)
  (st : list section * option jsstring * list jsstring) : Prop :=
  let '(sections, hdr, cont) := st in
  (∃ pre, seen = pre ++ cont
          ∧ Forall (fun l => headerMatch l = None) cont
          ∧ headerCase pre hdr)
  ∧ Forall (fun s => ∃ pre body l post,
                seen = pre ++ body ++ l :: post
                ∧ Forall (fun l => headerMatch l = None) body
                ∧ headerMatch l ≠ None
                ∧ content s = trim (join [LF] body)
                ∧ headerCase pre (header s)) sections.

(** A sentence of 60 words whose 45th word ends in an em-dash (U+2014),
    and the same sentence with a comma there. *)
Definition dashWord : jsstring := js "w" ++ [0x2014%N].

Definition dashSentence : jsstring :=
  join (js " ") (replicate 44 (js "w") ++ [dashWord] ++ replicate 15 (js "w")).

Definition commaSentence : jsstring :=
  join (js " ") (replicate 44 (js "w") ++ [js "w,"] ++ replicate 15 (js "w")).

(** The last heading pattern in the words of the specification: a leading
    roman numeral (letters I, V, X, L, C, in either case), then a dot and
    whitespace, then a capital letter. *)
Fixpoint skip (p : N -> bool) (s : jsstring) : jsstring :=
  match s with
  | c :: s' => if p c then skip p s' else s
  | [] => []
  end.

Definition numeralThenCapital (line : jsstring) : bool :=
  let afterNumeral :=
    skip (fun c => OneOf "IVXLC" (upperASCII c)) line in
  (length afterNumeral <? length line)
  && match afterNumeral with
     | 46%N :: afterDot =>
         let afterSpaces := skip isSpace afterDot in
         (length afterSpaces <? length afterDot)
         && match afterSpaces with
            | c :: _ => isUpperAZ c
            | [] => false
            end
     | _ => false
     end.

(** Two sentences, the second of which starts with an E with an acute
    accent (U+00C9). *)
Definition accentWord : jsstring := [0xC9%N] ++ js "coute".

Definition accentText : jsstring :=
  js "Il dit oui. " ++ accentWord ++ js " moi.".

(** Twenty-six sentences of two words. *)
Definition goOnText : jsstring := join (js " ") (replicate 26 (js "Go on.")).

(** Leading content, then a heading and its content. *)
Definition prefaceText : jsstring :=
  js "Preface text." ++ [LF] ++ js "# Intro" ++ [LF] ++ js "Hello.".

Definition sampleBookmark : bookmark :=
  Bookmark (js "b1") (js "doc") 2 (js "second chunk") (js "2024-01-01").

Definition sampleDocument : document :=
  Document (js "doc") (js "notes.txt") (js "First chunk. Second chunk.")
           [Chunk (js "First chunk. Second chunk.") None] 1 (js "2024-01-01").

(** A document with one bookmark and its reading progress. *)
Definition sampleDb : db :=
  putProgress (Progress (js "doc") 0 (js "2024-01-02"))
    (putBookmark sampleBookmark (putDocument sampleDocument emptyDb)).

End Notions.

(* ===================================================================== *)
(** ** Notions used by the further properties                            *)
(* ===================================================================== *)

Module Invariants.
Import JS Chunker PdfParser TextParser PdfText Db Home Words Notions.

(** *** The store *)

(** A bookmark of the pair (documentId, chunkIndex). *)
Definition ofPair (documentId : jsstring) (chunkIndex : Z) (b : bookmark)
  : bool :=
  streq (bm_documentId b) documentId && (bm_chunkIndex b =? chunkIndex)%Z.

(** The bookmark store with the bookmarks of a document left out. *)
Definition withoutDocument (id : jsstring) (m : gmap jsstring bookmark)
  : gmap jsstring bookmark :=
  filter (fun kb => bm_documentId (snd kb) ≠ id) m.

Definition freshKey (k : jsstring) (s : db) : bool :=
  bool_decide (bookmarks s !! k = None).

(** Most recent first. *)
Definition newerFirst (a b : document) : Prop :=
  keyLeb (doc_createdAt b) (doc_createdAt a) = true.

Definition pairOf (b : bookmark) : jsstring * Z :=
  (bm_documentId b, bm_chunkIndex b).

(** No two bookmarks of the store mark the same chunk of the same
    document. *)
Definition uniquePairs (s : db) : bool :=
  bool_decide (NoDup (map (fun kb => pairOf (snd kb))
                          (map_to_list (bookmarks s)))).

(** The calls the components make: bookmarks are only written through
    [toggleBookmark]. *)
Definition viaToggle (c : call) : bool :=
  match c with
  | SaveBookmark _ _ _ => false
  | _ => true
  end.

(** By primary key, ascending. *)
Definition byKey (a b : bookmark) : Prop :=
  keyLeb (bm_id a) (bm_id b) = true.

(** *** The chunker *)

(** A piece cut inside the loop of [splitLongSentence]: the cut falls on
    the fiftieth pending word or at most nine words before it. *)
Definition fullPiece (p : list jsstring) : Prop :=
  MAX_WORDS - 9 ≤ length p ≤ MAX_WORDS.

Definition cutInv (st : list jsstring * list jsstring)
  (consumed : list jsstring) : Prop :=
  ∃ pieces, fst st = map unwords pieces
            ∧ Forall fullPiece pieces
            ∧ concat pieces ++ snd st = consumed
            ∧ length (snd st) < MAX_WORDS.

(** The number of words of a list of sentences. *)
Definition weight (p : list (list jsstring)) : nat := length (concat p).

(** Sentences packed greedily: no chunk is empty or holds more than
    [MAX_WORDS] words, and the first sentence of a chunk did not fit
    into the chunk before it. *)
Definition greedy (packs : list (list (list jsstring))) : Prop :=
  Forall (fun p => p ≠ [] ∧ weight p ≤ MAX_WORDS) packs
  ∧ ∀ i p q, packs !! i = Some p → packs !! (S i) = Some q →
             MAX_WORDS < weight p + length (hd [] q).

Definition greedyInv (st : packState) (seen : list (list jsstring)) : Prop :=
  ∃ packs curgs,
    chunks st = map (fun p => unwords (concat p)) packs
    ∧ currentChunk st = map unwords curgs
    ∧ currentWordCount st = weight curgs
    ∧ weight curgs ≤ MAX_WORDS
    ∧ (curgs = [] → packs = [])
    ∧ concat packs ++ curgs = seen
    ∧ greedy (match curgs with [] => packs | _ => packs ++ [curgs] end).

(** A sentence of the cleaned text that [chunkSentences] keeps whole. *)
Definition shortSentence (g : list jsstring) : bool :=
  forallb solid g && (0 <? length g) && (length g <=? MAX_WORDS).

(** [headerMatch] as a test, and the lines of a text that are not header
    lines. *)
Definition isHeaderLine (line : jsstring) : bool :=
  match headerMatch line with Some _ => true | None => false end.

Definition bodyLines (t : jsstring) : list jsstring :=
  List.filter (fun line => negb (isHeaderLine line)) (split LF t).

(** The invariant of the scan of [chunkByStructure] on the words seen. *)
Definition bodyInv (seen : list jsstring)
  (st : list section * option jsstring * list jsstring) : Prop :=
  let '(sections, _, cont) := st in
  concat (map (fun s => words (content s)) sections)
  ++ concat (map words cont)
  = concat (map words
              (List.filter (fun line => negb (isHeaderLine line)) seen)).

(** Two texts with the same words, laid out differently. *)
Definition looseText : jsstring :=
  js "  One  two." ++ [CR; LF; LF; 9%N] ++ js "Three four.  ".

Definition tightText : jsstring := js "One two. Three four.".

(** A heading, its text, and a second heading with its text. *)
Definition sectionedText : jsstring :=
  js "# Intro" ++ [LF] ++ js "Hello world." ++ [LF] ++ js "## Next" ++ [LF]
  ++ js "Go on.".

(** *** The parsers *)

(** Neither a carriage return nor a tab. *)
Definition plainUnit (c : N) : bool := negb ((c =? CR)%N || (c =? TAB)%N).

(** The keywords of the fourth heading pattern. *)
Definition headingKeywords : list string :=
  ["introduction"; "conclusion"; "abstract"; "summary"; "overview";
   "background"; "methodology"; "results"; "discussion"; "references";
   "appendix"; "acknowledgment"].

(** The line starts with the letters of a keyword, in any mix of cases. *)
Definition startsWithKeyword (line : jsstring) : bool :=
  existsb (fun kw => streq (map lowerASCII (take (length (js kw)) line))
                           (js kw))
          headingKeywords.

(** A word of Basic Latin with an upper-case letter and no lower-case
    letter. *)
Definition capsWord (w : jsstring) : bool :=
  solid w
  && forallb (fun c => (c <? 128)%N && negb (isLowerAZ c)) w
  && existsb isUpperAZ w.

(** No hyphen in the text, so no hyphenated line break. *)
Definition hyphenFree (t : jsstring) : bool :=
  forallb (fun c => negb (c =? 45)%N) t.

(** *** The import of a file *)

(** A text file of the given name and contents, and an environment in
    which it can be read. *)
Definition sampleFile : file := File (js "notes.txt") 26.

Definition sampleEnv : env :=
  Env (js "doc-2") (js "2024-02-01")
      (fun _ => Resolved (js "First chunk. Second chunk."))
      (fun _ => Rejected (js "not a PDF")) (js "TypeError")
      (fun n => if (100000 <? N.of_nat n)%N
                then Some (js "Maximum call stack size exceeded") else None)
      (fun _ => None).

(** The engine takes every call with spread arguments that the import of
    [text] makes, in [chunkText] and then in [getChunkStats]. *)
Definition engineTakes (e : env) (text : jsstring) : bool :=
  match firstRangeError e
          (chunkTextPushCalls text
           ++ getChunkStatsCalls (chunkString text (JBool true))) with
  | None => true
  | Some _ => false
  end.

(** [saveDocument] resolves on the document of [name] and [text]. *)
Definition storeTakes (e : env) (name text : jsstring) : bool :=
  match saveError e (DocumentInput None name text
                       (chunkString text (JBool true))) with
  | None => true
  | Some _ => false
  end.

(** What the handler does with a file that passes [validateFile] and
    whose text is extracted. *)
Definition afterExtraction (e : env) (name text : jsstring) (s : db)
  : db * option toast :=
  let chunks := chunkString text (JBool true) in
  if negb (nonempty text) || (length (trim text) =? 0) then
    (s, Some (failure (js "Could not extract any text from the file")))
  else
    match firstRangeError e (chunkTextPushCalls text) with
    | Some message => (s, Some (failure message))
    | None =>
        match firstRangeError e (getChunkStatsCalls chunks) with
        | Some message => (s, Some (failure message))
        | None =>
            if length chunks =? 0 then
              (s, Some (failure
                 (js "Could not create any readable chunks from the file")))
            else
              match saveError e (DocumentInput None name text chunks) with
              | Some message => (s, Some (failure message))
              | None =>
                  (putDocument
                     (Document (randomUUID e) name text chunks
                               (length chunks) (now e)) s,
                   Some (AddedToast name (length chunks)))
              end
        end
    end.

End Invariants.


(* ===================================================================== *)
(** ** Facts about strings                                                *)
(* ===================================================================== *)

Module StringFacts.
Import JS Chunker Words.

Lemma nonempty_true (s : jsstring) : nonempty s = true ↔ s ≠ [].
Proof. destruct s; simpl; split; congruence. Qed.

Lemma nonempty_length (s : jsstring) : (0 <? length s) = nonempty s.
Proof. by destruct s. Qed.

Lemma length_pos_nonnil {A} (l : list A) : (0 <? length l) = true ↔ l ≠ [].
Proof. destruct l; simpl; split; (congruence || done). Qed.

Lemma allSpace_app x y : allSpace (x ++ y) = allSpace x && allSpace y.
Proof. apply forallb_app. Qed.

Lemma trimStart_allSpace x s : allSpace x = true → trimStart (x ++ s) = trimStart s.
Proof.
  induction x as [|c x IH]; simpl; [done|].
  intros [Hc Hx]%andb_true_iff. rewrite Hc. auto.
Qed.

Lemma trimStart_nil x : allSpace x = true → trimStart x = [].
Proof.
  intros H. rewrite <- (app_nil_r x). by rewrite trimStart_allSpace.
Qed.

Lemma trimStart_split s : ∃ x, allSpace x = true ∧ s = x ++ trimStart s.
Proof.
  induction s as [|c s [x [Hx Hs]]]; simpl.
  - by exists [].
  - destruct (isSpace c) eqn:Hc.
    + exists (c :: x). simpl. rewrite Hc, Hx. split; [done|]. by f_equal.
    + by exists [].
Qed.

Lemma trimStart_head c s : isSpace c = false → trimStart (c :: s) = c :: s.
Proof. simpl. by intros ->. Qed.

Lemma allSpace_rev x : allSpace (rev x) = allSpace x.
Proof.
  induction x as [|c x IH]; simpl; [done|].
  rewrite allSpace_app, IH. simpl. rewrite andb_true_r. apply andb_comm.
Qed.

Lemma trim_split s :
  ∃ x y, allSpace x = true ∧ allSpace y = true ∧ s = x ++ trim s ++ y.
Proof.
  destruct (trimStart_split s) as [x [Hx Hs]].
  destruct (trimStart_split (rev (trimStart s))) as [y [Hy Hr]].
  exists x, (rev y). rewrite allSpace_rev. split; [done|]. split; [done|].
  unfold trim, trimEnd. rewrite <- rev_app_distr, <- Hr, rev_involutive.
  done.
Qed.

Lemma trimStart_tight u y : tight u → allSpace y = true →
  trimStart (u ++ y) = match u with [] => [] | _ => u ++ y end.
Proof.
  intros [->|(c & d & m & [->| ->] & Hc & Hd)] Hy; simpl.
  - by apply trimStart_nil.
  - by rewrite Hc.
  - by rewrite Hc.
Qed.

Lemma tight_rev u : tight u → tight (rev u).
Proof.
  intros [->|(c & d & m & [->| ->] & Hc & Hd)].
  - by left.
  - right. exists c, c, []. simpl. auto.
  - right. exists d, c, (rev m). split; [|done]. right.
    simpl. rewrite rev_app_distr. simpl. done.
Qed.

Lemma trim_tight x u y :
  allSpace x = true → allSpace y = true → tight u → trim (x ++ u ++ y) = u.
Proof.
  intros Hx Hy Hu. unfold trim, trimEnd.
  rewrite trimStart_allSpace by done.
  rewrite trimStart_tight by done.
  destruct u as [|c u]; [done|].
  rewrite rev_app_distr.
  rewrite trimStart_allSpace by (by rewrite allSpace_rev).
  rewrite <- (app_nil_r (rev (c :: u))).
  rewrite trimStart_tight; [| by apply tight_rev | done].
  rewrite app_nil_r.
  destruct (rev (c :: u)) eqn:E.
  - apply (f_equal (@length N)) in E. rewrite length_rev in E. done.
  - rewrite <- E. apply rev_involutive.
Qed.

Lemma push_nil ws : push [] ws = ws.
Proof. done. Qed.

Lemma words_cons_space c s : isSpace c = true → words (c :: s) = words s.
Proof.
  intros Hc. unfold words. simpl. destruct (tok s) as [w ws]. by rewrite Hc.
Qed.

Lemma words_cons_solid c s : isSpace c = false →
  words (c :: s) = (c :: fst (tok s)) :: snd (tok s).
Proof.
  intros Hc. unfold words. simpl. destruct (tok s) as [w ws]. by rewrite Hc.
Qed.

Lemma words_app_space_l x s : allSpace x = true → words (x ++ s) = words s.
Proof.
  induction x as [|c x IH]; simpl; [done|].
  intros [Hc Hx]%andb_true_iff. rewrite words_cons_space by done. auto.
Qed.

Lemma tok_allSpace y : allSpace y = true → tok y = ([], []).
Proof.
  induction y as [|c y IH]; simpl; [done|].
  intros [Hc Hy]%andb_true_iff. rewrite IH, Hc by done. done.
Qed.

Lemma tok_app_space_r s y : allSpace y = true → tok (s ++ y) = tok s.
Proof.
  intros Hy. induction s as [|c s IH]; simpl.
  - by apply tok_allSpace.
  - by rewrite IH.
Qed.

Lemma words_app_space_r s y : allSpace y = true → words (s ++ y) = words s.
Proof. intros Hy. unfold words. by rewrite tok_app_space_r. Qed.

Lemma words_trim s : words (trim s) = words s.
Proof.
  destruct (trim_split s) as (x & y & Hx & Hy & Hs).
  rewrite Hs at 2. rewrite words_app_space_l, words_app_space_r; done.
Qed.

Lemma isSpace_CR : isSpace 13 = true. Proof. done. Qed.
Lemma isSpace_LF : isSpace 10 = true. Proof. done. Qed.

Lemma tok_replaceCRLF_aux n : ∀ s, length s ≤ n → tok (replaceCRLF s) = tok s.
Proof.
  induction n as [|n IH]; intros s Hn.
  - destruct s; [done|simpl in Hn; lia].
  - destruct s as [|c [|d s]]; [done|done|].
    change (replaceCRLF (c :: d :: s)) with
      (if ((c =? 13) && (d =? 10))%N then LF :: replaceCRLF s
       else c :: replaceCRLF (d :: s)).
    destruct ((c =? 13) && (d =? 10))%N eqn:E.
    + apply andb_true_iff in E as [->%N.eqb_eq ->%N.eqb_eq].
      cbn [tok]. rewrite IH by (simpl in Hn; lia).
      rewrite isSpace_CR, isSpace_LF. destruct (tok s) as [w ws]. done.
    + cbn [tok]. rewrite (IH (d :: s)) by (simpl in *; lia). done.
Qed.

Lemma words_replaceCRLF s : words (replaceCRLF s) = words s.
Proof. unfold words. by rewrite (tok_replaceCRLF_aux (length s)). Qed.

Lemma words_normalize s : words (normalize s) = words s.
Proof. unfold normalize. by rewrite words_trim, words_replaceCRLF. Qed.

Lemma push_Forall (P : jsstring → Prop) w ws :
  (w ≠ [] → P w) → Forall P ws → Forall P (push w ws).
Proof.
  intros H1 H2. destruct w; simpl; [done|]. constructor; [by apply H1|done].
Qed.

Lemma tok_solid s :
  spaceFree (fst (tok s)) = true ∧ Forall (fun w => solid w = true) (snd (tok s)).
Proof.
  induction s as [|c s [IH1 IH2]]; simpl; [done|].
  destruct (tok s) as [w ws]. simpl in *.
  destruct (isSpace c) eqn:Hc; simpl.
  - split; [done|]. apply push_Forall; [|done].
    intros Hw. unfold solid. apply andb_true_iff. split; [|done].
    by apply nonempty_true.
  - rewrite Hc. simpl. done.
Qed.

Lemma words_solid s : Forall (fun w => solid w = true) (words s).
Proof.
  unfold words. pose proof (tok_solid s) as [H1 H2].
  destruct (tok s) as [w ws]. simpl in *. apply push_Forall; [|done].
  intros Hw. unfold solid. apply andb_true_iff. split; [|done].
  by apply nonempty_true.
Qed.

Lemma solid_inv w : solid w = true → w ≠ [] ∧ spaceFree w = true.
Proof.
  unfold solid. intros [H1 H2]%andb_true_iff. split; [|done].
  by apply nonempty_true.
Qed.

Lemma splitSpaces_from_words s :
  (∃ rest, splitSpaces_from false s = fst (tok s) :: rest
           ∧ List.filter (fun w => 0 <? length w) rest = snd (tok s))
  ∧ List.filter (fun w => 0 <? length w) (splitSpaces_from true s) = words s.
Proof.
  induction s as [|c s [(rest & IH1 & IH1') IH2]].
  - split; [by exists []|done].
  - destruct (isSpace c) eqn:Hc.
    + rewrite words_cons_space by done. simpl. rewrite Hc.
      destruct (tok s) as [w ws] eqn:E. simpl. split; [|done].
      exists (splitSpaces_from true s). split; [done|].
      rewrite IH2. unfold words. by rewrite E.
    + rewrite words_cons_solid by done. simpl. rewrite Hc, IH1.
      destruct (tok s) as [w ws] eqn:E. simpl in *. split.
      * by exists rest.
      * by rewrite IH1'.
Qed.

Lemma countWords_words s : countWords s = length (words s).
Proof.
  unfold countWords, splitSpaces. destruct s as [|c s]; [done|].
  cbn [nonempty].
  destruct (splitSpaces_from_words (c :: s)) as [(rest & H1 & H2) _].
  rewrite H1. unfold words. destruct (tok (c :: s)) as [w ws]. simpl in *.
  rewrite H2. unfold push. rewrite nonempty_length. by destruct (nonempty w).
Qed.

Lemma js_space : js " " = [SP].
Proof. reflexivity. Qed.

Lemma unwords_cons w w' ws :
  unwords (w :: w' :: ws) = w ++ SP :: unwords (w' :: ws).
Proof. unfold unwords. cbn [join]. by rewrite js_space. Qed.

Lemma unwords_one w : unwords [w] = w.
Proof. done. Qed.

Lemma tok_app_spaceFree w r : spaceFree w = true →
  tok (w ++ r) = (w ++ fst (tok r), snd (tok r)).
Proof.
  induction w as [|c w IH]; simpl.
  - by destruct (tok r).
  - intros [Hc Hw]%andb_true_iff. rewrite IH by done.
    apply negb_true_iff in Hc. by rewrite Hc.
Qed.

Lemma words_unwords ws : solidAll ws → words (unwords ws) = ws.
Proof.
  induction ws as [|w [|w' ws] IH]; intros Hs; [done| |].
  - apply Forall_inv in Hs. apply solid_inv in Hs as [Hne Hsf].
    rewrite unwords_one. unfold words.
    rewrite <- (app_nil_r w) at 1. rewrite tok_app_spaceFree by done.
    simpl. rewrite app_nil_r. destruct w; done.
  - inversion Hs as [|? ? Hw Hs']; subst.
    apply solid_inv in Hw as [Hne Hsf].
    rewrite unwords_cons. unfold words.
    rewrite tok_app_spaceFree by done.
    specialize (IH Hs'). unfold words in IH.
    cbn [tok]. destruct (tok (unwords (w' :: ws))) as [v vs].
    change (isSpace SP) with true. cbn [fst snd]. rewrite app_nil_r, IH.
    destruct w; done.
Qed.

Lemma countWords_unwords ws : solidAll ws → countWords (unwords ws) = length ws.
Proof. intros H. by rewrite countWords_words, words_unwords. Qed.

Lemma split_cons_hd sep s : ∃ h t, split sep s = h :: t.
Proof.
  destruct s as [|c s]; simpl; [by eexists _, _|].
  destruct (c =? sep)%N; [by eexists _, _|].
  destruct (split sep s); by eexists _, _.
Qed.

Lemma split_app_free w r : spaceFree w = true →
  split SP (w ++ r) = (w ++ hd [] (split SP r)) :: tl (split SP r).
Proof.
  induction w as [|c w IH]; simpl.
  - intros _. by destruct (split_cons_hd SP r) as (h & t & ->).
  - intros [Hc Hw]%andb_true_iff. rewrite IH by done.
    destruct (c =? SP)%N eqn:E; [|done].
    apply N.eqb_eq in E. subst. by vm_compute in Hc.
Qed.

Lemma split_unwords ws : solidAll ws → ws ≠ [] → split SP (unwords ws) = ws.
Proof.
  induction ws as [|w [|w' ws] IH]; intros Hs Hne; [done| |].
  - apply Forall_inv in Hs. apply solid_inv in Hs as [_ Hsf].
    rewrite unwords_one. rewrite <- (app_nil_r w) at 1.
    rewrite split_app_free by done. simpl. by rewrite app_nil_r.
  - inversion Hs as [|? ? Hw Hs']; subst.
    apply solid_inv in Hw as [_ Hsf].
    rewrite unwords_cons, split_app_free by done.
    cbn [split]. rewrite N.eqb_refl, IH by done. simpl. by rewrite app_nil_r.
Qed.

Lemma tight_intro u :
  (∀ c, head u = Some c → isSpace c = false) →
  (∀ d, last u = Some d → isSpace d = false) → tight u.
Proof.
  intros Hh Hl. destruct u as [|c u]; [by left|]. right.
  destruct (rev u) as [|d m] eqn:E.
  - apply (f_equal (@rev N)) in E. rewrite rev_involutive in E. subst u.
    exists c, c, []. split; [by left|]. split; by apply Hh.
  - apply (f_equal (@rev N)) in E. rewrite rev_involutive in E. subst u.
    exists c, d, (rev m). split; [by right|]. split; [by apply Hh|].
    apply Hl. simpl. by rewrite last_cons, last_snoc.
Qed.

Lemma head_unwords w ws : w ≠ [] → head (unwords (w :: ws)) = head w.
Proof.
  intros Hw. destruct ws; [done|]. rewrite unwords_cons. by destruct w.
Qed.

Lemma last_unwords ws w : w ≠ [] → last (unwords (ws ++ [w])) = last w.
Proof.
  intros Hw. induction ws as [|v ws IH]; [done|].
  destruct ws as [|v' ws].
  - simpl. rewrite unwords_cons, unwords_one.
    change (v ++ SP :: w) with (v ++ [SP] ++ w).
    rewrite !last_app. by destruct (last w) eqn:E; [|apply last_None in E].
  - change ((v :: v' :: ws) ++ [w]) with (v :: v' :: (ws ++ [w])).
    rewrite unwords_cons.
    change (v ++ SP :: ?x) with (v ++ [SP] ++ x).
    rewrite !last_app. simpl in IH. rewrite IH.
    by destruct (last w) eqn:E; [|apply last_None in E].
Qed.

Lemma solid_head w : solid w = true → ∃ c, head w = Some c ∧ isSpace c = false.
Proof.
  intros [Hne Hsf]%solid_inv. destruct w as [|c w]; [done|].
  exists c. split; [done|]. simpl in Hsf.
  apply andb_true_iff in Hsf as [Hc _]. by apply negb_true_iff.
Qed.

Lemma spaceFree_elem w c : spaceFree w = true → c ∈ w → isSpace c = false.
Proof.
  unfold spaceFree. rewrite forallb_forall. intros H Hc.
  apply negb_true_iff, H. by apply list_elem_of_In.
Qed.

Lemma solid_last w : solid w = true → ∃ d, last w = Some d ∧ isSpace d = false.
Proof.
  intros [Hne Hsf]%solid_inv. destruct (last w) as [d|] eqn:E.
  - exists d. split; [done|]. apply (spaceFree_elem w); [done|].
    apply last_Some in E as [l ->]. apply elem_of_app. right.
    apply list_elem_of_singleton. done.
  - by apply last_None in E.
Qed.

Lemma tight_unwords ws : solidAll ws → tight (unwords ws).
Proof.
  intros Hs. apply tight_intro.
  - intros c Hc. destruct ws as [|w ws]; [done|].
    apply Forall_inv in Hs. pose proof Hs as [Hne _]%solid_inv.
    rewrite head_unwords in Hc by done.
    destruct (solid_head w Hs) as (c' & Hc' & Hsp). congruence.
  - intros d Hd. destruct (rev ws) as [|w m] eqn:E.
    + apply (f_equal (@rev _)) in E. rewrite rev_involutive in E. by subst.
    + apply (f_equal (@rev _)) in E. rewrite rev_involutive in E. subst ws.
      simpl in *. apply Forall_app in Hs as [_ Hw]. apply Forall_inv in Hw.
      pose proof Hw as [Hne _]%solid_inv.
      rewrite last_unwords in Hd by done.
      destruct (solid_last w Hw) as (d' & Hd' & Hsp). congruence.
Qed.

Lemma trim_unwords ws : solidAll ws → trim (unwords ws) = unwords ws.
Proof.
  intros Hs. rewrite <- (app_nil_r (unwords ws)) at 1.
  by apply (trim_tight [] (unwords ws) []), tight_unwords.
Qed.

Lemma unwords_nonempty ws : solidAll ws → ws ≠ [] → unwords ws ≠ [].
Proof.
  intros Hs Hne. destruct ws as [|w ws]; [done|].
  apply Forall_inv in Hs. apply solid_inv in Hs as [Hw _].
  intros E. apply (f_equal head) in E. rewrite head_unwords in E by done.
  by destruct w.
Qed.

(** Collapsing whitespace keeps the words and puts single spaces between
    them. *)
Lemma collapse_words s :
  (∃ y, allSpace y = true
        ∧ collapseSpaces_from false s
          = fst (tok s) ++ match snd (tok s) with
                           | [] => y
                           | ws => SP :: unwords ws ++ y
                           end)
  ∧ (∃ y, allSpace y = true
          ∧ collapseSpaces_from true s = unwords (words s) ++ y).
Proof.
  induction s as [|c s [(y1 & Hy1 & IH1) (y2 & Hy2 & IH2)]].
  - split; by exists [].
  - destruct (isSpace c) eqn:Hc.
    + rewrite words_cons_space by done. simpl. rewrite Hc.
      split; [|by exists y2].
      rewrite IH2. unfold words. destruct (tok s) as [w ws]. simpl.
      destruct (push w ws) eqn:E.
      * exists (SP :: y2). simpl. by rewrite Hy2.
      * by exists y2.
    + rewrite words_cons_solid by done. simpl. rewrite Hc, IH1.
      destruct (tok s) as [w ws]. simpl. split; [by exists y1|].
      exists y1. split; [done|]. destruct ws as [|w' ws]; [done|].
      rewrite unwords_cons. by rewrite <- !app_assoc.
Qed.

Lemma trim_collapse s : trim (collapseSpaces s) = unwords (words s).
Proof.
  destruct (collapse_words s) as [(y & Hy & H) _].
  unfold collapseSpaces. rewrite H.
  pose proof (words_solid s) as Hs. unfold words in *.
  destruct (tok s) as [w ws]. simpl in *.
  destruct w as [|c w]; simpl in *.
  - destruct ws as [|w' ws].
    + rewrite <- (app_nil_r y).
      by apply (trim_tight y [] []); [| |left].
    + by apply (trim_tight [SP] (unwords (w' :: ws)) y), tight_unwords.
  - destruct ws as [|w' ws].
    + change (c :: w ++ y) with ([] ++ unwords [c :: w] ++ y).
      by apply trim_tight, tight_unwords.
    + replace (c :: w ++ SP :: unwords (w' :: ws) ++ y)
        with ([] ++ unwords ((c :: w) :: w' :: ws) ++ y)
        by (rewrite unwords_cons; simpl; by rewrite <- app_assoc).
      by apply trim_tight, tight_unwords.
Qed.

Lemma unwords_app a b : a ≠ [] → b ≠ [] →
  unwords (a ++ b) = unwords a ++ SP :: unwords b.
Proof.
  intros Ha Hb. induction a as [|w [|w' a] IH]; [done| |].
  - destruct b; [done|]. simpl app. by rewrite unwords_cons.
  - change ((w :: w' :: a) ++ b) with (w :: w' :: (a ++ b)).
    rewrite !unwords_cons. change (w' :: a ++ b) with ((w' :: a) ++ b).
    rewrite IH by done. by rewrite <- app_assoc.
Qed.

Lemma unwords_snoc a w : a ≠ [] → unwords (a ++ [w]) = unwords a ++ SP :: w.
Proof. intros Ha. by rewrite unwords_app. Qed.

(** Joining groups of words and then the groups is joining all the words. *)
Lemma unwords_concat gs : Forall (fun g => g ≠ []) gs →
  unwords (map unwords gs) = unwords (concat gs).
Proof.
  induction gs as [|g [|g' gs] IH]; intros Hg; [done| |].
  - simpl. by rewrite app_nil_r.
  - inversion Hg as [|? ? Hg1 Hg2]; subst.
    change (map unwords (g :: g' :: gs))
      with (unwords g :: unwords g' :: map unwords gs).
    rewrite unwords_cons. change (concat (g :: g' :: gs)) with (g ++ concat (g' :: gs)).
    rewrite unwords_app; [|done|].
    + f_equal. f_equal. by apply IH.
    + inversion Hg2; subst. simpl. by destruct g'.
Qed.

(** *** The patterns of the sentence rule *)

Lemma execFrom_bol ic r c bef s :
  execFrom ic false (Seq Bol r) (c :: bef) s = None.
Proof.
  revert c bef. induction s as [|d s IH]; intros c bef; simpl; [done|].
  apply IH.
Qed.

Lemma matches_bol ic r s :
  matches ic false (Seq Bol r) s
  = match run ic false r (MState [] s []) Some with
    | Some _ => true | None => false end.
Proof.
  unfold matches, exec. destruct s as [|c s]; simpl.
  - by destruct (run ic false r _ _).
  - destruct (run ic false r _ _); [done|]. by rewrite execFrom_bol.
Qed.

Lemma startsWithCapital_spec n :
  nonempty n && startsWithCapital n = startsUpper n.
Proof.
  unfold startsWithCapital. rewrite matches_bol.
  destruct n as [|c n]; [done|]. simpl.
  unfold classMatch. by destruct (isUpperAZ c).
Qed.

Lemma isEndPunctuation_spec w : isEndPunctuation w = endsInPunctuation w.
Proof.
  unfold isEndPunctuation, endsInPunctuation, lastChar.
  destruct (rev w) as [|d m] eqn:E;
    apply (f_equal (@rev _)) in E; rewrite rev_involutive in E; subst w.
  - done.
  - simpl. rewrite last_snoc, length_app. simpl.
    replace (length (rev m) + 1 - 1) with (length (rev m)) by lia.
    rewrite drop_app_length. simpl. unfold streq.
    rewrite orb_false_r.
    destruct (N.eqb_spec d 46) as [->|H1]; [done|].
    destruct (N.eqb_spec d 33) as [->|H2]; [done|].
    destruct (N.eqb_spec d 63) as [->|H3]; [done|].
    rewrite !bool_decide_eq_false_2; [done| | |]; intros [=]; done.
Qed.

Lemma stripPrefix_Some l s s' : stripPrefix l s = Some s' ↔ s = l ++ s'.
Proof.
  revert s. induction l as [|c l IH]; intros s; simpl.
  - split; congruence.
  - destruct s as [|d s]; [done|].
    destruct (N.eqb_spec c d) as [->|Hne].
    + rewrite IH. split; congruence.
    + split; congruence.
Qed.

Lemma run_literal ml l st k :
  run false ml (Seqs (map Chr l)) st k
  = match stripPrefix l (rest st) with
    | Some s' => k (MState (rev l ++ before st) s' (caps st))
    | None => None
    end.
Proof.
  revert st. induction l as [|c l IH]; intros st.
  - by destruct st.
  - assert (Hc : ∀ k', run false ml (Chr c) st k'
              = match rest st with
                | d :: s' => if (c =? d)%N then k' (advance d s' st) else None
                | [] => None
                end) by done.
    destruct l as [|c' l].
    + change (Seqs (map Chr [c])) with (Chr c). rewrite Hc. simpl.
      destruct (rest st) as [|d s']; [done|].
      destruct (N.eqb_spec c d) as [->|]; reflexivity.
    + change (Seqs (map Chr (c :: c' :: l)))
        with (Seq (Chr c) (Seqs (map Chr (c' :: l)))).
      change (run false ml (Seq ?a ?b) st k)
        with (run false ml a st (fun st' => run false ml b st' k)).
      rewrite Hc.
      destruct (rest st) as [|d s']; [done|].
      change (stripPrefix (c :: c' :: l) (d :: s'))
        with (if (c =? d)%N then stripPrefix (c' :: l) s' else None).
      destruct (N.eqb_spec c d) as [->|]; [|done].
      rewrite IH. unfold advance. cbn [rest before caps].
      destruct (stripPrefix (c' :: l) s'); [|done].
      f_equal. f_equal. cbn [rev]. by rewrite <- !app_assoc.
Qed.

Lemma run_Alts ic ml rs st k : rs ≠ [] →
  succeeds (run ic ml (Alts rs) st k)
  = existsb (fun r => succeeds (run ic ml r st k)) rs.
Proof.
  induction rs as [|r [|r' rs] IH]; intros Hne; [done| |].
  - simpl. by rewrite orb_false_r.
  - change (Alts (r :: r' :: rs)) with (Alt r (Alts (r' :: rs))).
    cbn [run existsb]. destruct (run ic ml r st k); [done|].
    by apply IH.
Qed.

Lemma existsb_map_ext {A B} (f : B → bool) (g : A → B) (h : A → bool) l :
  (∀ a, f (g a) = h a) → existsb f (map g l) = existsb h l.
Proof. intros H. induction l as [|a l IH]; simpl; [done|]. by rewrite H, IH. Qed.

Lemma dot_then_end st0 st' :
  succeeds (run false false (Seq (Chr 46) Eol) (capture 1 st0 st') Some)
  = bool_decide (rest st' = [46%N]).
Proof.
  destruct st' as [bef [|d [|e s]] cs]; cbn -[N.eqb]; unfold classMatch.
  - done.
  - destruct (N.eqb_spec 46 d) as [<-|Hne]; cbn.
    + done.
    + symmetry. apply bool_decide_eq_false_2. congruence.
  - destruct (N.eqb_spec 46 d) as [<-|Hne]; cbn.
    + symmetry. apply bool_decide_eq_false_2. congruence.
    + symmetry. apply bool_decide_eq_false_2. congruence.
Qed.

Lemma isAbbreviation_existsb w :
  isAbbreviation w
  = existsb (fun a => bool_decide (w = js a ++ [46%N])) abbreviationStems.
Proof.
  unfold isAbbreviation.
  change abbreviationPattern
    with (Seq Bol (Seq (Group 1 (Alts (map Lit abbreviationStems)))
                       (Seq (Chr 46) Eol))).
  rewrite matches_bol.
  change (run false false (Seq (Group 1 ?a) ?b) ?st Some)
    with (run false false a st
            (fun st' => run false false b (capture 1 st st') Some)).
  fold (succeeds (run false false (Alts (map Lit abbreviationStems))
     (MState [] w [])
     (fun st' => run false false (Seq (Chr 46) Eol)
         (capture 1 (MState [] w []) st') Some))).
  rewrite run_Alts by done.
  apply existsb_map_ext. intros a. unfold Lit. rewrite run_literal.
  cbn [rest]. destruct (stripPrefix (js a) w) as [s'|] eqn:E.
  - apply stripPrefix_Some in E. subst w. rewrite dot_then_end. cbn [rest].
    apply bool_decide_ext. split; [by intros ->|]. by intros ?%app_inv_head.
  - cbn. symmetry. apply bool_decide_eq_false_2. intros ->.
    assert (stripPrefix (js a) (js a ++ [46%N]) = Some [46%N])
      by by apply stripPrefix_Some.
    congruence.
Qed.

Lemma isAbbreviation_spec w :
  isAbbreviation w = bool_decide (w ∈ abbreviations).
Proof.
  rewrite isAbbreviation_existsb.
  change abbreviations with (map (fun a => js a ++ [46%N]) abbreviationStems).
  induction abbreviationStems as [|a l IH]; [done|].
  cbn [existsb map]. rewrite IH.
  destruct (decide (w = js a ++ [46%N])) as [->|Hne].
  - rewrite bool_decide_eq_true_2 by done. symmetry.
    apply bool_decide_eq_true_2. apply elem_of_cons. by left.
  - rewrite (bool_decide_eq_false_2 _ Hne). simpl.
    apply bool_decide_ext. rewrite elem_of_cons. tauto.
Qed.

Lemma closesSentence_spec w next :
  closesSentence w next = endsSentence w next.
Proof.
  unfold closesSentence, endsSentence.
  rewrite isEndPunctuation_spec, isAbbreviation_spec.
  destruct next as [n|]; [|by rewrite orb_true_r].
  by rewrite orb_false_r, startsWithCapital_spec.
Qed.

(** *** The sentence loop *)

Lemma unwords_extend cur w : solidAll cur →
  unwords cur ++ (if nonempty (unwords cur) then js " " else []) ++ w
  = unwords (cur ++ [w]).
Proof.
  intros Hs. destruct cur as [|v cur]; [done|].
  assert (Hne : unwords (v :: cur) ≠ []) by by apply unwords_nonempty.
  apply nonempty_true in Hne. rewrite Hne, js_space.
  by rewrite unwords_snoc.
Qed.

Lemma nonempty_unwords ws : solidAll ws →
  nonempty (unwords ws) = match ws with [] => false | _ => true end.
Proof.
  intros Hs. destruct ws as [|w ws]; [done|].
  apply nonempty_true. by apply unwords_nonempty.
Qed.

Lemma sentenceLoop_groups ws : ∀ cur sents, solidAll ws → solidAll cur →
  (let '(ss, c) := sentenceLoop ws (unwords cur) sents in
   if nonempty (trim c) then ss ++ [trim c] else ss)
  = sents ++ map unwords (groupLoop ws cur).
Proof.
  induction ws as [|w rest IH]; intros cur sents Hws Hcur.
  - simpl. rewrite trim_unwords, nonempty_unwords by done.
    destruct cur; simpl; [by rewrite app_nil_r|done].
  - inversion Hws as [|? ? Hw Hrest]; subst.
    assert (Hcw : solidAll (cur ++ [w])) by (apply Forall_app; auto).
    cbn [sentenceLoop groupLoop].
    rewrite unwords_extend, closesSentence_spec by done.
    destruct (endsSentence w (head rest)).
    + rewrite trim_unwords by done.
      change (sentenceLoop rest [] ?s)
        with (sentenceLoop rest (unwords []) s).
      rewrite (IH [] (sents ++ [unwords (cur ++ [w])])) by done.
      by rewrite <- app_assoc.
    + by apply IH.
Qed.

Lemma splitIntoSentences_unwords ws : solidAll ws →
  splitIntoSentences (unwords ws) = map unwords (sentenceGroups ws).
Proof.
  intros Hs. destruct ws as [|w ws]; [done|].
  unfold splitIntoSentences. rewrite split_unwords by done.
  pose proof (sentenceLoop_groups (w :: ws) [] [] Hs (List.Forall_nil _)) as H.
  change (unwords []) with (@nil N) in H.
  destruct (sentenceLoop (w :: ws) [] []) as [ss c]. done.
Qed.

Lemma groupLoop_concat ws : ∀ cur, concat (groupLoop ws cur) = cur ++ ws.
Proof.
  induction ws as [|w rest IH]; intros cur; simpl.
  - destruct cur; simpl; by rewrite ?app_nil_r.
  - destruct (endsSentence w (head rest)); simpl; rewrite IH.
    + by rewrite <- app_assoc.
    + by rewrite <- app_assoc.
Qed.

Lemma groupLoop_nonempty ws : ∀ cur, Forall (fun g => g ≠ []) (groupLoop ws cur).
Proof.
  induction ws as [|w rest IH]; intros cur; simpl.
  - destruct cur; by repeat constructor.
  - destruct (endsSentence w (head rest)); [|done].
    constructor; [|done]. by destruct cur.
Qed.

Lemma Forall_concat_inv {A} (P : A → Prop) (ls : list (list A)) :
  Forall P (concat ls) → Forall (Forall P) ls.
Proof.
  induction ls as [|l ls IH]; simpl; [done|].
  intros [H1 H2]%Forall_app. constructor; auto.
Qed.

(** *** The hard split *)

Lemma breakIndex_bounds l : l ≠ [] →
  length l - 10 ≤ breakIndex l < length l.
Proof.
  intros Hl. assert (0 < length l) by (destruct l; simpl; [done|lia]).
  unfold breakIndex.
  destruct (List.find _ _) as [i|] eqn:E; [|lia].
  apply find_some in E as [Hin _]. unfold lookBack in Hin.
  apply in_rev, in_seq in Hin. lia.
Qed.

Lemma longStep_inv st consumed w :
  longInv st consumed → longInv (longStep st w) (consumed ++ [w]).
Proof.
  destruct st as [chunks cur]. intros (pieces & Hc & Hb & Hcat & Hlen).
  cbn [fst snd] in Hc, Hcat, Hlen. subst chunks consumed.
  unfold longInv, longStep, sliceTo, sliceFrom. cbv zeta.
  assert (Hl : length (cur ++ [w]) = S (length cur))
    by (rewrite length_app; simpl; lia).
  destruct (MAX_WORDS <=? length (cur ++ [w])) eqn:E.
  - apply Nat.leb_le in E.
    assert (Hne : cur ++ [w] ≠ []) by by destruct cur.
    pose proof (breakIndex_bounds _ Hne) as Hbi.
    set (b := breakIndex (cur ++ [w])) in *.
    exists (pieces ++ [take (b + 1) (cur ++ [w])]). cbn [fst snd].
    split; [rewrite map_app; reflexivity|]. split; [|split].
    + apply Forall_app. split; [done|]. constructor; [|done]. split.
      * intros Ht. apply (f_equal (@length _)) in Ht.
        rewrite length_take in Ht. simpl in Ht. lia.
      * rewrite length_take. unfold MAX_WORDS in *. lia.
    + rewrite concat_app. simpl. rewrite app_nil_r, <- !app_assoc.
      by rewrite take_drop.
    + rewrite length_drop. unfold MAX_WORDS in *. lia.
  - apply Nat.leb_gt in E. exists pieces. cbn [fst snd].
    split; [done|]. split; [done|]. split; [by rewrite app_assoc|done].
Qed.

Lemma fold_longStep_inv ws : ∀ st consumed,
  longInv st consumed → longInv (fold_left longStep ws st) (consumed ++ ws).
Proof.
  induction ws as [|w ws IH]; intros st consumed H; simpl.
  - by rewrite app_nil_r.
  - replace (consumed ++ w :: ws) with ((consumed ++ [w]) ++ ws)
      by by rewrite <- app_assoc.
    by apply IH, longStep_inv.
Qed.

Lemma filter_all {A} (f : A → bool) l :
  Forall (fun x => f x = true) l → List.filter f l = l.
Proof.
  induction 1 as [|x l Hx Hl IH]; simpl; [done|]. by rewrite Hx, IH.
Qed.

Lemma kept_trim p : solidAll p → p ≠ [] → (0 <? length (trim (unwords p))) = true.
Proof.
  intros Hs Hne. rewrite trim_unwords by done. apply length_pos_nonnil.
  by apply unwords_nonempty.
Qed.

Lemma kept p : solidAll p → p ≠ [] → (0 <? length (unwords p)) = true.
Proof.
  intros Hs Hne. apply length_pos_nonnil. by apply unwords_nonempty.
Qed.

Lemma kept_trim_all pieces :
  Forall (fun p => solidAll p) pieces → Forall bounded pieces →
  Forall (fun c => (0 <? length (trim c)) = true) (map unwords pieces).
Proof.
  intros Hp Hb. apply Forall_map.
  assert (H : Forall (fun p => solidAll p ∧ bounded p) pieces)
    by by apply Forall_and.
  eapply Forall_impl; [exact H|]. intros p [H1 [H2 _]]. by apply kept_trim.
Qed.

Lemma kept_all pieces :
  Forall (fun p => solidAll p) pieces → Forall bounded pieces →
  Forall (fun c => (0 <? length c) = true) (map unwords pieces).
Proof.
  intros Hp Hb. apply Forall_map.
  assert (H : Forall (fun p => solidAll p ∧ bounded p) pieces)
    by by apply Forall_and.
  eapply Forall_impl; [exact H|]. intros p [H1 [H2 _]]. by apply kept.
Qed.

Lemma splitLongSentence_words g : solidAll g → g ≠ [] →
  ∃ pieces, splitLongSentence (unwords g) = map unwords pieces
            ∧ concat pieces = g ∧ Forall bounded pieces.
Proof.
  intros Hs Hne. unfold splitLongSentence. rewrite split_unwords by done.
  assert (H0 : longInv ([], []) []) by (exists []; simpl; unfold MAX_WORDS; repeat split; auto; lia).
  pose proof (fold_longStep_inv g _ _ H0) as (pieces & Hc & Hb & Hcat & Hlen).
  destruct (fold_left longStep g ([], [])) as [chunks cur].
  simpl in *. subst chunks.
  assert (Hall : Forall (fun p => solidAll p) pieces ∧ solidAll cur).
  { rewrite <- Hcat in Hs. apply Forall_app in Hs as [H1 H2].
    split; [by apply Forall_concat_inv|done]. }
  destruct Hall as [Hp Hcur].
  destruct cur as [|v cur].
  - exists pieces. simpl. rewrite app_nil_r in Hcat. split; [|done].
    apply filter_all. by apply kept_trim_all.
  - exists (pieces ++ [v :: cur]). simpl. split; [|split].
    + rewrite map_app. simpl. apply filter_all. apply Forall_app. split.
      * by apply kept_trim_all.
      * constructor; [|done]. by apply kept_trim.
    + rewrite concat_app. simpl. by rewrite app_nil_r.
    + apply Forall_app. split; [done|]. constructor; [|done].
      split; [done|]. simpl in *. lia.
Qed.

(** *** Packing *)

Lemma concat_nonempty {A} (gs : list (list A)) :
  gs ≠ [] → Forall (fun g => g ≠ []) gs → concat gs ≠ [].
Proof.
  intros Hne Hg. destruct gs as [|g gs]; [done|].
  apply Forall_inv in Hg. simpl. by destruct g.
Qed.

Lemma pushCurrent_words st packs curgs :
  chunks st = map unwords packs → currentChunk st = map unwords curgs →
  Forall (fun g => g ≠ []) curgs → solidAll (concat curgs) →
  pushCurrent st = map unwords (packs ++ [concat curgs]).
Proof.
  intros Hc Hcur Hg Hs. unfold pushCurrent. rewrite Hc, Hcur, map_app.
  f_equal. simpl. f_equal. fold (unwords (map unwords curgs)).
  rewrite unwords_concat by done. by apply trim_unwords.
Qed.

Lemma packStep_inv st consumed g :
  solidAll consumed → solidAll g → g ≠ [] →
  packInv st consumed → packInv (packStep st (unwords g)) (consumed ++ g).
Proof.
  intros Hcons Hg Hne (packs & curgs & Hc & Hcur & Hcnt & Hle & Hgs & Hb & Hcat).
  assert (Hsc : solidAll (concat curgs)).
  { rewrite <- Hcat in Hcons. by apply Forall_app in Hcons as [_ ?]. }
  unfold packStep. cbv zeta. rewrite countWords_unwords by done.
  assert (Hlen : (0 <? length (currentChunk st)) = true ↔ curgs ≠ []).
  { rewrite Hcur, length_map. apply length_pos_nonnil. }
  destruct (MAX_WORDS <? length g) eqn:E1.
  - destruct (splitLongSentence_words g Hg Hne) as (pieces & Hsp & Hpc & Hpb).
    destruct (0 <? length (currentChunk st)) eqn:E2.
    + assert (Hcg : curgs ≠ []) by by apply Hlen.
      exists ((packs ++ [concat curgs]) ++ pieces), []. cbn [chunks currentChunk currentWordCount concat length map app].
      rewrite (pushCurrent_words st packs curgs), Hsp by done.
      split; [by rewrite <- map_app|]. split; [done|]. split; [done|].
      split; [lia|]. split; [done|]. split.
      * apply Forall_app. split; [|done]. apply Forall_app. split; [done|].
        constructor; [|done]. split; [|done]. by apply concat_nonempty.
      * rewrite !concat_app. simpl. rewrite !app_nil_r, Hpc.
        by rewrite <- Hcat.
    + assert (Hcg : curgs = []).
      { destruct curgs; [done|]. exfalso.
        assert (false = true) by (by apply Hlen). done. }
      subst curgs. simpl in *. rewrite app_nil_r in Hcat.
      exists (packs ++ pieces), []. cbn [chunks currentChunk currentWordCount concat length map app].
      rewrite Hc, Hsp, Hcur, Hcnt.
      split; [by rewrite <- map_app|]. split; [done|]. split; [done|].
      split; [lia|]. split; [done|]. split.
      * by apply Forall_app.
      * rewrite concat_app, app_nil_r, Hpc. by rewrite Hcat.
  - apply Nat.ltb_ge in E1.
    destruct (MAX_WORDS <? currentWordCount st + length g) eqn:E3.
    + exists (if 0 <? length (currentChunk st) then packs ++ [concat curgs]
              else packs), [g]. cbn [chunks currentChunk currentWordCount concat length map app].
      split; [|split; [reflexivity|split; [by rewrite app_nil_r|
              split; [rewrite app_nil_r; lia|split; [by repeat constructor|]]]]].
      * destruct (0 <? length (currentChunk st)) eqn:E2; [|done].
        by apply pushCurrent_words.
      * destruct (0 <? length (currentChunk st)) eqn:E2.
        -- assert (Hcg : curgs ≠ []) by by apply Hlen.
           split.
           ++ apply Forall_app. split; [done|]. constructor; [|done].
              split; [|done]. by apply concat_nonempty.
           ++ rewrite concat_app. simpl. rewrite !app_nil_r.
              by rewrite <- Hcat.
        -- assert (Hcg : curgs = []).
           { destruct curgs; [done|]. exfalso.
             assert (false = true) by (by apply Hlen). done. }
           subst curgs. simpl in *. rewrite app_nil_r in *.
           split; [done|]. by rewrite Hcat.
    + apply Nat.ltb_ge in E3.
      exists packs, (curgs ++ [g]). cbn [chunks currentChunk currentWordCount concat length map app].
      rewrite Hc, Hcur, Hcnt, map_app, concat_app, length_app. simpl.
      rewrite !app_nil_r.
      split; [done|]. split; [done|]. split; [done|].
      split; [lia|]. split; [|split; [done|]].
      * apply Forall_app. split; [done|]. by constructor.
      * by rewrite app_assoc, Hcat.
Qed.

Lemma fold_packStep_inv gs : ∀ st consumed,
  solidAll consumed → Forall (fun g => solidAll g ∧ g ≠ []) gs →
  packInv st consumed →
  packInv (fold_left packStep (map unwords gs) st) (consumed ++ concat gs).
Proof.
  induction gs as [|g gs IH]; intros st consumed Hcons Hgs Hinv; simpl.
  - by rewrite app_nil_r.
  - inversion Hgs as [|? ? [Hg Hne] Hgs']; subst.
    rewrite app_assoc. apply IH; [by apply Forall_app|done|].
    by apply packStep_inv.
Qed.

(** Packing keeps the words, in groups of at most [MAX_WORDS]. *)
Lemma chunkSentences_words gs :
  Forall (fun g => solidAll g ∧ g ≠ []) gs →
  ∃ packs, chunkSentences (map unwords gs) = map unwords packs
           ∧ concat packs = concat gs
           ∧ Forall bounded packs.
Proof.
  intros Hgs.
  assert (H0 : packInv (PackState [] [] 0) []).
  { exists [], []. simpl. repeat split; auto. unfold MAX_WORDS. lia. }
  pose proof (fold_packStep_inv gs _ _ (List.Forall_nil _) Hgs H0)
    as (packs & curgs & Hc & Hcur & Hcnt & Hle & Hg & Hb & Hcat).
  simpl in Hcat. unfold chunkSentences. cbv zeta.
  set (st := fold_left packStep (map unwords gs) (PackState [] [] 0)) in *.
  assert (Hsol : solidAll (concat gs)).
  { apply Forall_concat. eapply Forall_impl; [exact Hgs|]. by intros g [? _]. }
  assert (Hsc : solidAll (concat curgs) ∧ Forall (fun p => solidAll p) packs).
  { rewrite <- Hcat in Hsol. apply Forall_app in Hsol as [H1 H2].
    split; [done|]. by apply Forall_concat_inv. }
  destruct Hsc as [Hsc Hsp].
  destruct (0 <? length (currentChunk st)) eqn:E.
  - assert (Hcg : curgs ≠ []).
    { rewrite Hcur, length_map in E. by apply length_pos_nonnil in E. }
    assert (Hb' : Forall bounded (packs ++ [concat curgs])).
    { apply Forall_app. split; [done|]. constructor; [|done].
      split; [|done]. by apply concat_nonempty. }
    exists (packs ++ [concat curgs]).
    rewrite (pushCurrent_words st packs curgs) by done.
    split; [|split; [|done]].
    + apply filter_all, kept_all; [|done].
      apply Forall_app. split; [done|]. by constructor.
    + rewrite concat_app. simpl. by rewrite app_nil_r.
  - assert (Hcg : curgs = []).
    { rewrite Hcur, length_map in E. destruct curgs; done. }
    subst curgs. simpl in Hcat. rewrite app_nil_r in Hcat.
    exists packs. rewrite Hc. split; [|done].
    by apply filter_all, kept_all.
Qed.

(** The whole pipeline on one piece of text. *)
Lemma pipeline_words t :
  ∃ packs,
    chunkSentences (splitIntoSentences (trim (collapseSpaces t)))
    = map unwords packs
    ∧ concat packs = words t
    ∧ Forall bounded packs.
Proof.
  pose proof (words_solid t) as Hs.
  rewrite trim_collapse, splitIntoSentences_unwords by done.
  destruct (chunkSentences_words (sentenceGroups (words t))) as (packs & H1 & H2 & H3).
  - unfold sentenceGroups.
    assert (Hc := groupLoop_concat (words t) []).
    assert (Hn := groupLoop_nonempty (words t) []).
    simpl in Hc. rewrite <- Hc in Hs. apply Forall_concat_inv in Hs.
    by apply Forall_and.
  - exists packs. split; [done|]. split; [|done].
    rewrite H2. unfold sentenceGroups. by rewrite groupLoop_concat.
Qed.

Lemma bounded_countWords packs c :
  solidAll (concat packs) → Forall bounded packs →
  c ∈ map unwords packs → countWords c ≤ MAX_WORDS.
Proof.
  intros Hs Hb Hc. apply list_elem_of_fmap in Hc as (p & -> & Hp).
  apply Forall_concat_inv in Hs.
  rewrite Forall_forall in Hs, Hb.
  rewrite countWords_unwords by by apply Hs. by apply Hb.
Qed.

End StringFacts.

(* ===================================================================== *)
(** ** Properties of the chunker                                          *)
(* ===================================================================== *)

Module ChunkerProps.
Import JS Chunker Words Notions StringFacts.

(** *** The embedding on the examples of the specification *)

Example chunkText_intro :
  chunkText (JString (js "# Intro" ++ [LF] ++ js "Hello world. This is a test."))
            OptionsOmitted
  = Ok [Chunk (js "Hello world. This is a test.") (Some (js "Intro"))].
Proof. by vm_compute. Qed.

Example chunkText_flat_when_disabled :
  chunkText (JString (js "# Intro" ++ [LF] ++ js "Hello world."))
            (OptionsObject (JBool false))
  = Ok [Chunk (js "# Intro Hello world.") None].
Proof. by vm_compute. Qed.

Example chunkText_null_options : chunkText (JString (js "Hello.")) OptionsNull = TypeError.
Proof. reflexivity. Qed.

(** Seven hashes are no header; trailing whitespace is part of the title
    the pattern captures; a line of hashes and two spaces has an empty
    title. *)
Example headerMatch_samples :
  headerMatch (js "## Getting started  ") = Some (js "Getting started  ")
  ∧ headerMatch (js "####### x") = None
  ∧ headerMatch (js "#title") = None
  ∧ headerMatch (js "#  ") = Some (js " ").
Proof. by vm_compute. Qed.

(** [\s] crosses the end of a line: a lone [#] followed by a line of text
    passes the test of [chunkText], and is no header line for
    [chunkByStructure]. *)
Example hasHeaders_across_lines :
  hasHeaders (js "#" ++ [LF] ++ js "text") = true
  ∧ chunkText (JString (js "#" ++ [LF] ++ js "text")) OptionsOmitted
    = Ok [Chunk (js "# text") None].
Proof. by vm_compute. Qed.

Example countWords_samples :
  countWords (js "  two   words ") = 2 ∧ countWords [] = 0.
Proof. by vm_compute. Qed.

(** *** Malformed and blank input *)

Lemma allSpace_cons c x : allSpace (c :: x) = isSpace c && allSpace x.
Proof. done. Qed.

Lemma allSpace_replaceCRLF_aux n : ∀ s, length s ≤ n →
  allSpace s = true → allSpace (replaceCRLF s) = true.
Proof.
  induction n as [|n IH]; intros s Hn Hs.
  - destruct s; [done|simpl in Hn; lia].
  - destruct s as [|c [|d s]]; [done|done|].
    change (replaceCRLF (c :: d :: s)) with
      (if ((c =? 13) && (d =? 10))%N then LF :: replaceCRLF s
       else c :: replaceCRLF (d :: s)).
    simpl in Hs. apply andb_true_iff in Hs as [Hc Hs].
    apply andb_true_iff in Hs as [Hd Hs].
    destruct ((c =? 13) && (d =? 10))%N.
    + rewrite allSpace_cons. apply IH; [simpl in Hn; lia|done].
    + rewrite allSpace_cons, Hc. apply IH; [simpl in *; lia|].
      by rewrite allSpace_cons, Hd.
Qed.

Lemma normalize_blank s : allSpace s = true → normalize s = [].
Proof.
  intros Hs. unfold normalize, trim.
  rewrite trimStart_nil; [done|].
  by apply (allSpace_replaceCRLF_aux (length s)).
Qed.

Lemma chunkString_blank s v : allSpace s = true → chunkString s v = [].
Proof.
  intros Hs. unfold chunkString. destruct (nonempty s); [|done].
  by rewrite normalize_blank.
Qed.

(** C7: [chunkText] applied to a value that is not a string ([null],
    [undefined], a number, an object, ...), to the empty string or to a
    string of whitespace only returns the empty chunk sequence, whatever
    the options are (options that are not [null], for which destructuring
    throws before the text is looked at). *)
Theorem chunkText_lenient (t : jsval) (options : optionsArg) :
  blankInput t = true → isNullOptions options = false →
  chunkText t options = Ok [].
Proof.
  intros Ht Ho. destruct options; [| done |];
    (destruct t; try done; simpl in Ht; simpl; by rewrite chunkString_blank).
Qed.

(** C7, instances: [null], the empty string, a number with structural
    chunking disabled, and two spaces. *)
Lemma chunkText_lenient_witness :
  chunkText JNull OptionsOmitted = Ok []
  ∧ chunkText (JString []) OptionsOmitted = Ok []
  ∧ chunkText (JNumber 7) (OptionsObject (JBool false)) = Ok []
  ∧ chunkText (JString (js "  ")) OptionsOmitted = Ok [].
Proof.
  split; [|split; [|split]]; apply chunkText_lenient; reflexivity.
Defined.

Lemma pipeline_bound t c :
  c ∈ chunkSentences (splitIntoSentences (trim (collapseSpaces t))) →
  countWords c ≤ 50.
Proof.
  destruct (pipeline_words t) as (packs & -> & Hcat & Hb).
  apply bounded_countWords; [|done]. rewrite Hcat. apply words_solid.
Qed.

Lemma flatChunks_bound t :
  Forall (fun c => countWords (text c) ≤ 50) (flatChunks t).
Proof.
  unfold flatChunks. apply Forall_map, Forall_forall.
  intros c Hc. simpl. by apply (pipeline_bound t).
Qed.

Lemma sectionChunks_bound s :
  Forall (fun c => countWords (text c) ≤ 50) (sectionChunks s).
Proof.
  unfold sectionChunks. destruct (nonempty (content s)); [|done].
  apply Forall_map, Forall_forall.
  intros c Hc. simpl. by apply (pipeline_bound (content s)).
Qed.

Lemma chunkByStructure_bound t :
  Forall (fun c => countWords (text c) ≤ 50) (chunkByStructure t).
Proof.
  unfold chunkByStructure. induction (sectionsOf t) as [|s l IH]; simpl; [done|].
  apply Forall_app. split; [apply sectionChunks_bound|done].
Qed.

Lemma chunkString_bound s v :
  Forall (fun c => countWords (text c) ≤ 50) (chunkString s v).
Proof.
  unfold chunkString. destruct (nonempty s); [|done].
  destruct (nonempty (normalize s)); [|done].
  destruct (truthy v && hasHeaders (normalize s)).
  - apply chunkByStructure_bound.
  - apply flatChunks_bound.
Qed.

(** C1: for every input value and every options value, [chunkText] returns
    (it throws only for [null] options), and every chunk of the sequence it
    returns has at most 50 words, counted by [countWords] (the non-empty
    tokens between whitespace runs); the pieces of a hard-split sentence are
    chunks of that sequence. *)
Theorem chunkText_word_bound (t : jsval) (options : optionsArg) :
  match chunkText t options with
  | Ok chunks => Forall (fun c => countWords (text c) ≤ 50) chunks
  | TypeError => options = OptionsNull
  end.
Proof.
  destruct options as [| |v]; [|done|]; simpl.
  - destruct t; try done. apply chunkString_bound.
  - destruct t; try (by destruct v). destruct v; apply chunkString_bound.
Qed.

(** C5: ["Dr. Smith arrived. He left."] splits into ["Dr. Smith arrived."]
    and ["He left."].  In general, on a text of words separated by single
    spaces: the test the loop makes at a word is the rule [endsSentence] (the
    word ends in [.], [!] or [?], is not one of the eleven abbreviations, and
    is the last word or is followed by a word that starts with A-Z); a
    recognized abbreviation never closes a sentence; and the sentences
    returned are the words cut after exactly the words that satisfy the
    rule, the words left at the end forming the last sentence. *)
Theorem splitIntoSentences_rule (ws : list jsstring) :
  forallb solid ws = true →
  splitIntoSentences (js "Dr. Smith arrived. He left.")
  = [js "Dr. Smith arrived."; js "He left."]
  ∧ (∀ w next, closesSentence w next = endsSentence w next)
  ∧ (∀ w next, w ∈ abbreviations → closesSentence w next = false)
  ∧ splitIntoSentences (unwords ws) = map unwords (sentenceGroups ws).
Proof.
  intros Hs. split; [by vm_compute|]. split; [apply closesSentence_spec|].
  split.
  { intros w next Hw. rewrite closesSentence_spec. unfold endsSentence.
    rewrite (bool_decide_eq_true_2 _ Hw). simpl. by rewrite andb_false_r. }
  apply splitIntoSentences_unwords. apply Forall_forall.
  intros w Hw. rewrite forallb_forall in Hs. apply Hs.
  by apply list_elem_of_In.
Qed.

Lemma collapse_app_free w r b : spaceFree w = true → (w ≠ [] ∨ b = false) →
  collapseSpaces_from b (w ++ r) = w ++ collapseSpaces_from false r.
Proof.
  intros Hw Hb. destruct w as [|c w].
  - destruct Hb as [?| ->]; done.
  - clear Hb. revert c b Hw. induction w as [|d w IH]; intros c b Hw.
    + simpl in *. apply andb_true_iff in Hw as [Hc _].
      apply negb_true_iff in Hc. by rewrite Hc.
    + simpl in Hw. apply andb_true_iff in Hw as [Hc Hw].
      apply negb_true_iff in Hc.
      change ((c :: d :: w) ++ r) with (c :: ((d :: w) ++ r)).
      cbn [collapseSpaces_from]. rewrite Hc. rewrite (IH d false Hw). done.
Qed.

Lemma collapse_unwords ws : solidAll ws →
  collapseSpaces (unwords ws) = unwords ws.
Proof.
  unfold collapseSpaces.
  induction ws as [|w [|w' ws] IH]; intros Hs; [done| |].
  - apply Forall_inv in Hs. apply solid_inv in Hs as [Hne Hsf].
    rewrite unwords_one. rewrite <- (app_nil_r w) at 1.
    rewrite collapse_app_free by auto. simpl. by rewrite app_nil_r.
  - inversion Hs as [|? ? Hw Hs']; subst.
    pose proof Hw as [Hne Hsf]%solid_inv.
    rewrite unwords_cons, collapse_app_free by auto.
    f_equal. cbn [collapseSpaces_from]. change (isSpace SP) with true.
    cbv iota. f_equal.
    inversion Hs' as [|? ? Hw' Hs'']; subst.
    pose proof Hw' as [Hne' Hsf']%solid_inv.
    specialize (IH Hs').
    destruct ws as [|w'' ws].
    + rewrite unwords_one in *. rewrite <- (app_nil_r w') at 1.
      rewrite collapse_app_free by auto. simpl. by rewrite app_nil_r.
    + rewrite unwords_cons in *.
      rewrite collapse_app_free by auto.
      rewrite collapse_app_free in IH by auto. done.
Qed.

Lemma flatChunks_content t :
  join (js " ") (map text (flatChunks t)) = unwords (words t)
  ∧ solidAll (words t).
Proof.
  split; [|apply words_solid].
  unfold flatChunks. destruct (pipeline_words t) as (packs & -> & Hcat & Hb).
  rewrite map_map. simpl. rewrite map_id.
  fold (unwords (map unwords packs)). rewrite unwords_concat, Hcat; [done|].
  eapply Forall_impl; [exact Hb|]. by intros p [? _].
Qed.

Lemma words_nil_allSpace s : nonempty s = false → words s = [].
Proof. by destruct s. Qed.

Lemma trim_nil_words s : trim s = [] → words s = [].
Proof. intros H. rewrite <- words_trim, H. done. Qed.

(** C2, as amended: for every input string without a Markdown heading
    line, joining the text fields of the chunks in order with single spaces
    (and collapsing whitespace runs, which changes nothing) gives exactly
    the input with its whitespace runs collapsed and trimmed. *)
Theorem chunkText_content_preserved (t : jsstring) (options : optionsArg) :
  hasHeaders (normalize t) = false → isNullOptions options = false →
  ∃ chunks,
    chunkText (JString t) options = Ok chunks
    ∧ collapseSpaces (join (js " ") (map text chunks))
      = trim (collapseSpaces t).
Proof.
  intros Hh Ho.
  exists (chunkString t (match options with
                         | OptionsObject JUndefined | OptionsOmitted
                         | OptionsNull => JBool true
                         | OptionsObject v => v end)).
  split; [by destruct options|].
  rewrite trim_collapse.
  set (v := match options with OptionsObject JUndefined => _ | _ => _ end).
  unfold chunkString. rewrite Hh, andb_false_r.
  destruct (nonempty t) eqn:E1.
  - destruct (nonempty (normalize t)) eqn:E2.
    + destruct (flatChunks_content (normalize t)) as [-> Hs].
      rewrite collapse_unwords by done. by rewrite words_normalize.
    + rewrite <- words_normalize. by destruct (normalize t).
  - by destruct t.
Qed.

(** C5, instance: four words, the second an abbreviation. *)
Lemma splitIntoSentences_rule_witness :
  splitIntoSentences (js "Dr. Smith arrived. He left.")
  = [js "Dr. Smith arrived."; js "He left."]
  ∧ (∀ w next, closesSentence w next = endsSentence w next)
  ∧ (∀ w next, w ∈ abbreviations → closesSentence w next = false)
  ∧ splitIntoSentences (unwords [js "See"; js "Dr."; js "Who."; js "Now."])
    = map unwords (sentenceGroups [js "See"; js "Dr."; js "Who."; js "Now."]).
Proof. apply splitIntoSentences_rule. reflexivity. Defined.

(** C5, counterexample: a word that ends in a full stop, is no
    abbreviation and is followed by a word that starts with an upper-case
    letter outside A to Z ends the sentence by the rule as worded, and
    does not end it in the code: the text comes back as one sentence. *)
Lemma capital_outside_AZ_does_not_split :
  startsUpperCase accentWord = true
  ∧ endsSentenceAsWorded (js "oui.") (Some accentWord) = true
  ∧ closesSentence (js "oui.") (Some accentWord) = false
  ∧ splitIntoSentences accentText = [accentText]
  ∧ splitIntoSentences (js "Il dit oui. Ecoute moi.")
    = [js "Il dit oui."; js "Ecoute moi."].
Proof. by vm_compute. Qed.

(** C2, counterexample: twenty-six sentences of two words have no heading
    line and give two chunks; concatenated without a separator, the last
    word of the first chunk and the first word of the second become one
    word. *)
Lemma concatenation_glues_words :
  hasHeaders (normalize goOnText) = false
  ∧ chunkText (JString goOnText) OptionsOmitted
    = Ok [Chunk (join (js " ") (replicate 25 (js "Go on."))) None;
          Chunk (js "Go on.") None]
  ∧ collapseSpaces (concat (map text
        [Chunk (join (js " ") (replicate 25 (js "Go on."))) None;
         Chunk (js "Go on.") None]))
    ≠ trim (collapseSpaces goOnText).
Proof. split; [by vm_compute|]. split; [by vm_compute|]. by vm_compute. Qed.

(** C2, instance: the same text. *)
Lemma chunkText_content_preserved_witness :
  ∃ chunks,
    chunkText (JString goOnText) OptionsOmitted = Ok chunks
    ∧ collapseSpaces (join (js " ") (map text chunks))
      = trim (collapseSpaces goOnText).
Proof. apply chunkText_content_preserved; reflexivity. Defined.

(** *** The hard split *)

Lemma find_rev_seq (f : nat → bool) a n i :
  List.find f (rev (seq a n)) = Some i →
  f i = true ∧ a ≤ i < a + n ∧ ∀ j, i < j < a + n → f j = false.
Proof.
  induction n as [|n IH]; [done|].
  rewrite seq_S, rev_app_distr. simpl.
  destruct (f (a + n)) eqn:E.
  - intros [= <-]. split; [done|]. split; [lia|]. intros j Hj. lia.
  - intros H. destruct (IH H) as (H1 & H2 & H3). split; [done|].
    split; [lia|]. intros j Hj.
    destruct (decide (j = a + n)) as [->|Hne]; [done|]. apply H3. lia.
Qed.

Lemma find_rev_seq_None (f : nat → bool) a n :
  List.find f (rev (seq a n)) = None → ∀ j, a ≤ j < a + n → f j = false.
Proof.
  intros H j Hj. apply (find_none _ _ H), in_rev.
  rewrite rev_involutive. apply in_seq. lia.
Qed.

(** Where the hard split cuts: after the last of the final ten words that
    is a break word for [isBreakWord], else after the last word. *)
Lemma breakIndex_spec (currentChunk : list jsstring) :
  let len := length currentChunk in
  let i := breakIndex currentChunk in
  (isBreakWord (nth i currentChunk []) = true
   ∧ len - 10 ≤ i < len
   ∧ ∀ j, i < j < len → isBreakWord (nth j currentChunk []) = false)
  ∨ (i = len - 1
     ∧ ∀ j, len - 10 ≤ j < len → isBreakWord (nth j currentChunk []) = false).
Proof.
  intros len i. unfold i, breakIndex, lookBack. fold len.
  destruct (List.find _ _) as [k|] eqn:E.
  - left. apply find_rev_seq in E as (H1 & H2 & H3).
    split; [done|]. split; [lia|]. intros j Hj. apply H3. lia.
  - right. split; [done|]. intros j Hj.
    apply (find_rev_seq_None _ _ _ E). lia.
Qed.

(** C4: the scan does not see a word that ends in an em-dash.  In a
    sentence of 60 words whose 45th word ends in U+2014 the first cut falls
    after word 50; with a comma at the same place it falls after word 45.
    The literal the scan compares with is the three code units U+00E2,
    U+20AC, U+201D. *)
Theorem splitLongSentence_em_dash :
  countWords dashSentence = 60
  ∧ isBreakWord dashWord = false
  ∧ isBreakWord (js "w" ++ DASH_LITERAL) = true
  ∧ splitLongSentence dashSentence
    = [join (js " ")
         (replicate 44 (js "w") ++ [dashWord] ++ replicate 5 (js "w"));
       join (js " ") (replicate 10 (js "w"))]
  ∧ splitLongSentence commaSentence
    = [join (js " ") (replicate 44 (js "w") ++ [js "w,"]);
       join (js " ") (replicate 15 (js "w"))].
Proof. by vm_compute. Qed.

(** *** Sections and contexts *)

Lemma structStep_inv seen st line :
  structInv seen st → structInv (seen ++ [line]) (structStep st line).
Proof.
  destruct st as [[sections hdr] cont].
  intros [(pre & Hseen & Hcont & Hcase) Hsec].
  assert (Hold : Forall (fun s => ∃ pre body l post,
                (seen ++ [line]) = pre ++ body ++ l :: post
                ∧ Forall (fun l => headerMatch l = None) body
                ∧ headerMatch l ≠ None
                ∧ content s = trim (join [LF] body)
                ∧ headerCase pre (header s)) sections).
  { eapply Forall_impl; [exact Hsec|].
    intros s (p & b & l & post & -> & ? & ? & ? & ?).
    exists p, b, l, (post ++ [line]). split; [|done].
    by rewrite <- !app_assoc. }
  unfold structStep. destruct (headerMatch line) as [title|] eqn:E.
  - split.
    + exists (seen ++ [line]). split; [by rewrite app_nil_r|].
      split; [done|]. right. by exists seen, line, title.
    + unfold closeSection. destruct (0 <? length cont); [|done].
      apply Forall_app. split; [done|]. constructor; [|done].
      exists pre, cont, line, []. simpl. split; [by rewrite Hseen, <- app_assoc|].
      split; [done|]. split; [congruence|]. done.
  - split; [|done].
    exists pre. split; [by rewrite Hseen, <- app_assoc|]. split; [|done].
    apply Forall_app. split; [done|]. by constructor.
Qed.

Lemma fold_structStep_inv lines : ∀ seen st,
  structInv seen st → structInv (seen ++ lines) (fold_left structStep lines st).
Proof.
  induction lines as [|l lines IH]; intros seen st H; simpl.
  - by rewrite app_nil_r.
  - replace (seen ++ l :: lines) with ((seen ++ [l]) ++ lines)
      by by rewrite <- app_assoc.
    by apply IH, structStep_inv.
Qed.

(** Every section is a maximal run of lines that are not header lines,
    under the header line just before it. *)
Lemma sectionsOf_spans t s : s ∈ sectionsOf t →
  ∃ pre body post,
    split LF t = pre ++ body ++ post
    ∧ Forall (fun l => headerMatch l = None) body
    ∧ (∀ l, head post = Some l → headerMatch l ≠ None)
    ∧ content s = trim (join [LF] body)
    ∧ headerCase pre (header s).
Proof.
  unfold sectionsOf.
  assert (H0 : structInv [] ([], None, [])).
  { split; [|done]. exists []. split; [done|]. split; [done|]. by left. }
  pose proof (fold_structStep_inv (split LF t) _ _ H0) as H. simpl in H.
  destruct (fold_left structStep (split LF t) ([], None, []))
    as [[sections hdr] cont].
  destruct H as [(pre & Hseen & Hcont & Hcase) Hsec].
  unfold closeSection. intros Hs.
  assert (Hin : s ∈ sections ∨ s = Section_ hdr (trim (join [LF] cont))).
  { destruct (0 <? length cont); [|by left].
    apply elem_of_app in Hs as [?|Hs]; [by left|].
    apply list_elem_of_singleton in Hs. by right. }
  destruct Hin as [Hin| ->].
  - rewrite Forall_forall in Hsec.
    destruct (Hsec s Hin) as (p & b & l & post & E & ? & ? & ? & ?).
    exists p, b, (l :: post). split; [done|]. split; [done|].
    split; [|done]. intros l' [= <-]. done.
  - exists pre, cont, []. rewrite app_nil_r. split; [done|]. split; [done|].
    split; [|done]. by intros l [=].
Qed.

Lemma chunkByStructure_context t c : c ∈ chunkByStructure t →
  ∃ pre body post,
    split LF t = pre ++ body ++ post
    ∧ Forall (fun l => headerMatch l = None) body
    ∧ (∀ l, head post = Some l → headerMatch l ≠ None)
    ∧ text c ∈ chunkSentences
                 (splitIntoSentences
                    (trim (collapseSpaces (trim (join [LF] body)))))
    ∧ headerCase pre (context c).
Proof.
  unfold chunkByStructure. intros Hc.
  apply list_elem_of_In, in_flat_map in Hc as (s & Hs & Hc).
  apply list_elem_of_In in Hs.
  destruct (sectionsOf_spans t s Hs) as (pre & body & post & H1 & H2 & H3 & H4 & H5).
  exists pre, body, post. split; [done|]. split; [done|]. split; [done|].
  unfold sectionChunks in Hc. destruct (nonempty (content s)); [|done].
  apply in_map_iff in Hc as (x & <- & Hx). simpl. rewrite <- H4.
  split; [by apply list_elem_of_In|done].
Qed.

(** C3, as amended: with structural chunking enabled and a Markdown
    heading line in the input, every chunk comes from a section: a maximal
    run [body] of lines that are not header lines.  Its context is the
    trimmed title of the header line just before the section, and it is
    absent exactly when no line precedes the section, that is for the
    content before the first header line. *)
Theorem chunkText_context (t : jsstring) (options : optionsArg) :
  structuralEnabled options = true → hasHeaders (normalize t) = true →
  ∃ chunks,
    chunkText (JString t) options = Ok chunks
    ∧ ∀ c, c ∈ chunks →
        ∃ pre body post,
          split LF (normalize t) = pre ++ body ++ post
          ∧ Forall (fun l => headerMatch l = None) body
          ∧ (∀ l, head post = Some l → headerMatch l ≠ None)
          ∧ text c ∈ chunkSentences
                       (splitIntoSentences
                          (trim (collapseSpaces (trim (join [LF] body)))))
          ∧ ((pre = [] ∧ context c = None)
             ∨ ∃ pre' hl title,
                 pre = pre' ++ [hl] ∧ headerMatch hl = Some title
                 ∧ context c = Some (trim title)).
Proof.
  intros Ho Hh.
  assert (Hn : nonempty (normalize t) = true).
  { destruct (normalize t); [by vm_compute in Hh|done]. }
  assert (Ht : nonempty t = true).
  { destruct t; [by vm_compute in Hn|done]. }
  exists (chunkByStructure (normalize t)). split.
  - destruct options as [| |v]; [| done |]; simpl;
      unfold chunkString; rewrite Ht, Hn, Hh; [done|].
    destruct v; simpl in *; try done; by rewrite Ho.
  - intros c Hc. by apply chunkByStructure_context.
Qed.

(** C3, counterexample: the input has a heading line, and the chunk of the
    content before it has no context. *)
Lemma leading_content_has_no_context :
  structuralEnabled OptionsOmitted = true
  ∧ hasHeaders (normalize prefaceText) = true
  ∧ chunkText (JString prefaceText) OptionsOmitted
    = Ok [Chunk (js "Preface text.") None;
          Chunk (js "Hello.") (Some (js "Intro"))].
Proof. by vm_compute. Qed.

(** C3, instance: the same text. *)
Lemma chunkText_context_witness :
  ∃ chunks,
    chunkText (JString prefaceText) OptionsOmitted = Ok chunks
    ∧ ∀ c, c ∈ chunks →
        ∃ pre body post,
          split LF (normalize prefaceText) = pre ++ body ++ post
          ∧ Forall (fun l => headerMatch l = None) body
          ∧ (∀ l, head post = Some l → headerMatch l ≠ None)
          ∧ text c ∈ chunkSentences
                       (splitIntoSentences
                          (trim (collapseSpaces (trim (join [LF] body)))))
          ∧ ((pre = [] ∧ context c = None)
             ∨ ∃ pre' hl title,
                 pre = pre' ++ [hl] ∧ headerMatch hl = Some title
                 ∧ context c = Some (trim title)).
Proof. apply chunkText_context; reflexivity. Defined.

(** *** Statistics *)

Lemma fold_left_add l : ∀ a, fold_left Nat.add l a = a + sum_list l.
Proof.
  induction l as [|x l IH]; intros a; simpl; [lia|]. rewrite IH. lia.
Qed.

Lemma fold_left_min l : ∀ x,
  (fold_left Nat.min l x = x ∨ fold_left Nat.min l x ∈ l)
  ∧ fold_left Nat.min l x ≤ x
  ∧ Forall (fun w => fold_left Nat.min l x ≤ w) l.
Proof.
  induction l as [|y l IH]; intros x; simpl.
  - split; [by left|]. split; [lia|done].
  - destruct (IH (Nat.min x y)) as (H1 & H2 & H3).
    split; [|split].
    + destruct H1 as [H1|H1].
      * rewrite H1. destruct (Nat.min_spec x y) as [[_ ->]|[_ ->]].
        -- by left.
        -- right. apply elem_of_cons. by left.
      * right. apply elem_of_cons. by right.
    + lia.
    + constructor; [lia|done].
Qed.

Lemma fold_left_max l : ∀ x,
  (fold_left Nat.max l x = x ∨ fold_left Nat.max l x ∈ l)
  ∧ x ≤ fold_left Nat.max l x
  ∧ Forall (fun w => w ≤ fold_left Nat.max l x) l.
Proof.
  induction l as [|y l IH]; intros x; simpl.
  - split; [by left|]. split; [lia|done].
  - destruct (IH (Nat.max x y)) as (H1 & H2 & H3).
    split; [|split].
    + destruct H1 as [H1|H1].
      * rewrite H1. destruct (Nat.max_spec x y) as [[_ ->]|[_ ->]].
        -- right. apply elem_of_cons. by left.
        -- by left.
      * right. apply elem_of_cons. by right.
    + lia.
    + constructor; [lia|done].
Qed.

Lemma minOf_spec x l :
  minOf (x :: l) ∈ x :: l ∧ Forall (fun w => minOf (x :: l) ≤ w) (x :: l).
Proof.
  simpl. destruct (fold_left_min l x) as (H1 & H2 & H3). split.
  - apply elem_of_cons. destruct H1; auto.
  - by constructor.
Qed.

Lemma maxOf_spec x l :
  maxOf (x :: l) ∈ x :: l ∧ Forall (fun w => w ≤ maxOf (x :: l)) (x :: l).
Proof.
  simpl. destruct (fold_left_max l x) as (H1 & H2 & H3). split.
  - apply elem_of_cons. destruct H1; auto.
  - by constructor.
Qed.

Lemma roundDiv_nearest a b : 0 < b →
  2 * b * roundDiv a b ≤ 2 * a + b < 2 * b * (roundDiv a b + 1).
Proof.
  intros Hb. unfold roundDiv.
  pose proof (Nat.div_mod (2 * a + b) (2 * b) ltac:(lia)) as H.
  pose proof (Nat.mod_upper_bound (2 * a + b) (2 * b) ltac:(lia)) as H'.
  nia.
Qed.

(** C8, as amended: on the empty sequence [getChunkStats] returns
    [{totalChunks: 0, avgWords: 0, minWords: 0, maxWords: 0}], an object
    without [totalWords], and divides nothing.  On a non-empty sequence it
    reports the number of chunks, the sum of the word counts, the integer
    nearest to their mean (a tie going up), and the least and the greatest
    word count. *)
Theorem getChunkStats_report (c : chunkItem) (cs : list chunkItem) :
  let chunks := c :: cs in
  let wordCounts := map (fun x => countWords (getTextFromChunk x)) chunks in
  let st := getChunkStats (Some chunks) in
  getChunkStats (Some []) = Stats 0 None 0 0 0
  ∧ totalChunks st = length chunks
  ∧ totalWords st = Some (sum_list wordCounts)
  ∧ 2 * length chunks * avgWords st ≤ 2 * sum_list wordCounts + length chunks
      < 2 * length chunks * (avgWords st + 1)
  ∧ (minWords st ∈ wordCounts ∧ Forall (fun w => minWords st ≤ w) wordCounts)
  ∧ (maxWords st ∈ wordCounts ∧ Forall (fun w => w ≤ maxWords st) wordCounts).
Proof.
  intros chunks wordCounts st.
  assert (Hst : st = Stats (length chunks) (Some (sum_list wordCounts))
                       (roundDiv (sum_list wordCounts) (length chunks))
                       (minOf wordCounts) (maxOf wordCounts)).
  { unfold st, getChunkStats, chunks. fold chunks. fold wordCounts.
    by rewrite fold_left_add. }
  rewrite Hst. cbn [totalChunks totalWords avgWords minWords maxWords].
  split; [done|]. split; [done|]. split; [done|]. split.
  - apply roundDiv_nearest. simpl. lia.
  - split; [apply minOf_spec|apply maxOf_spec].
Qed.

(** C8, counterexample: on the empty sequence the total word count is not
    reported as zero; the object has no such property. *)
Lemma getChunkStats_empty_has_no_total :
  totalWords (getChunkStats (Some [])) = None
  ∧ totalWords (getChunkStats (Some [])) ≠ Some 0.
Proof. by split. Qed.

End ChunkerProps.

(* ===================================================================== *)
(** ** Properties of the heading heuristic                                *)
(* ===================================================================== *)

Module PdfParserProps.
Import JS PdfParser Notions.

Example detectHeadingPattern_samples :
  map (fun line => detectHeadingPattern (js line))
      ["Chapter 1"; "CHAPTER iv"; "Section 1.2 Scope"; "1.2 Title";
       "1.2 title"; "RESULTS AND DISCUSSION"; "Introduction"; "IV. Methods";
       "A plain line of text."; "X"]
  = [true; true; true; true; false; true; true; true; false; false].
Proof. by vm_compute. Qed.

(** C6: a line that starts with a roman numeral letter, a dot, a space
    and a lower-case letter is classified as a heading, by the last pattern
    alone: its [i] flag also applies to the class [[A-Z]], so the line
    matches although no capital letter follows the numeral.  The numbered
    outline pattern, which has no [i] flag, rejects the same line with a
    digit in front. *)
Theorem detectHeadingPattern_lower_case_after_numeral :
  detectHeadingPattern (js "C. elegans is a model organism") = true
  ∧ matches true false chapterPattern (js "C. elegans is a model organism")
    = false
  ∧ matches true false sectionPattern (js "C. elegans is a model organism")
    = false
  ∧ matches false false outlinePattern (js "C. elegans is a model organism")
    = false
  ∧ forallb isCapsWord (splitSpaces (js "C. elegans is a model organism"))
    = false
  ∧ matches true false keywordPattern (js "C. elegans is a model organism")
    = false
  ∧ matches true false romanPattern (js "C. elegans is a model organism")
    = true
  ∧ numeralThenCapital (js "C. elegans is a model organism") = false
  ∧ numeralThenCapital (js "C. Elegans is a model organism") = true
  ∧ detectHeadingPattern (js "1. elegans is a model organism") = false.
Proof. by vm_compute. Qed.

End PdfParserProps.

(* ===================================================================== *)
(** ** Properties of the bookmark store                                   *)
(* ===================================================================== *)

Module DbProps.
Import JS Chunker Db Notions.

Lemma streq_true a b : streq a b = true ↔ a = b.
Proof. unfold streq. apply bool_decide_eq_true. Qed.

Lemma forallb_map_to_list {V} (f : jsstring * V → bool) (m : gmap jsstring V) :
  forallb f (map_to_list m) = true ↔ ∀ k v, m !! k = Some v → f (k, v) = true.
Proof.
  rewrite forallb_forall. split.
  - intros H k v Hk. apply H, list_elem_of_In. by apply elem_of_map_to_list.
  - intros H [k v] Hin. apply H.
    by apply list_elem_of_In, elem_of_map_to_list in Hin.
Qed.

(** What the in-line keys mean. *)
Lemma keyed_spec s :
  keyed s = true
  ↔ (∀ k d, documents s !! k = Some d → doc_id d = k)
    ∧ (∀ k b, bookmarks s !! k = Some b → bm_id b = k)
    ∧ (∀ k p, progresses s !! k = Some p → pr_documentId p = k).
Proof.
  unfold keyed, keyedDocuments, keyedBookmarks, keyedProgress.
  rewrite !andb_true_iff, !forallb_map_to_list.
  setoid_rewrite streq_true. simpl. tauto.
Qed.

Lemma keyed_emptyDb : keyed emptyDb = true.
Proof. apply keyed_spec. by repeat split; intros k v H. Qed.

Lemma keyed_putBookmark b s : keyed s = true → keyed (putBookmark b s) = true.
Proof.
  rewrite !keyed_spec. intros (Hd & Hb & Hp). split; [done|]. split; [|done].
  intros k b'. cbn [putBookmark bookmarks].
  rewrite lookup_insert. case_decide as E; [by intros [= <-]|]. apply Hb.
Qed.

Lemma keyed_deleteFromBookmarks k s :
  keyed s = true → keyed (deleteFromBookmarks k s) = true.
Proof.
  rewrite !keyed_spec. intros (Hd & Hb & Hp). split; [done|]. split; [|done].
  intros k' b'. cbn [deleteFromBookmarks bookmarks].
  intros [_ H]%lookup_delete_Some. by apply Hb.
Qed.

(** The in-line keys are an invariant of [toggleBookmark]. *)
Lemma keyed_toggleBookmark uuid now d i t s :
  keyed s = true → keyed (fst (toggleBookmark uuid now d i t s)) = true.
Proof.
  intros H. unfold toggleBookmark. destruct (List.find _ _).
  - by apply keyed_deleteFromBookmarks.
  - by apply keyed_putBookmark.
Qed.

Lemma getBookmarksByDocument_elem d s b :
  b ∈ getBookmarksByDocument d s
  ↔ bm_documentId b = d ∧ ∃ k, bookmarks s !! k = Some b.
Proof.
  unfold getBookmarksByDocument.
  rewrite list_elem_of_In, filter_In, <- list_elem_of_In, streq_true.
  rewrite list_elem_of_fmap.
  split.
  - intros [([k b'] & -> & Hin) Hd]. split; [done|]. exists k.
    rewrite merge_sort_Permutation in Hin.
    by apply elem_of_map_to_list in Hin.
  - intros [Hd [k Hk]]. split; [|done]. exists (k, b). split; [done|].
    rewrite merge_sort_Permutation. by apply elem_of_map_to_list.
Qed.

Lemma isChunkBookmarked_true d i s :
  isChunkBookmarked d i s = true
  ↔ ∃ k b, bookmarks s !! k = Some b
           ∧ bm_documentId b = d ∧ bm_chunkIndex b = i.
Proof.
  unfold isChunkBookmarked. rewrite existsb_exists. split.
  - intros (b & Hb & Hi). apply list_elem_of_In in Hb.
    apply getBookmarksByDocument_elem in Hb as [Hd [k Hk]].
    exists k, b. split; [done|]. split; [done|]. by apply Z.eqb_eq.
  - intros (k & b & Hk & Hd & Hi). exists b. split; [|by apply Z.eqb_eq].
    apply list_elem_of_In, getBookmarksByDocument_elem. eauto.
Qed.

Lemma isChunkBookmarked_false d i s :
  isChunkBookmarked d i s = false
  ↔ ∀ k b, bookmarks s !! k = Some b → bm_documentId b = d →
           bm_chunkIndex b ≠ i.
Proof.
  rewrite <- not_true_iff_false, isChunkBookmarked_true. split.
  - intros H k b Hk Hd Hi. apply H. by exists k, b.
  - intros H (k & b & Hk & Hd & Hi). by apply (H k b).
Qed.

Lemma find_chunk_None d i s :
  isChunkBookmarked d i s = false →
  List.find (fun b => (bm_chunkIndex b =? i)%Z) (getBookmarksByDocument d s)
  = None.
Proof.
  unfold isChunkBookmarked. intros H.
  destruct (List.find _ _) as [b|] eqn:E; [|done].
  apply find_some in E as [Hin Hb].
  assert (existsb (λ b, (bm_chunkIndex b =? i)%Z) (getBookmarksByDocument d s) = true)
    by (apply existsb_exists; eauto).
  congruence.
Qed.

(** C9: from any state of the store without a bookmark of the pair
    (documentId, chunkIndex), the first [toggleBookmark] of the pair returns
    [{added: true}], the second [{added: false}], and after the second the
    store holds no bookmark of the pair; this whatever identifiers and
    dates the two calls draw. *)
Theorem toggleBookmark_twice (s : db) (documentId : jsstring)
  (chunkIndex : Z) (text1 text2 uuid1 now1 uuid2 now2 : jsstring) :
  isChunkBookmarked documentId chunkIndex s = false →
  let '(s1, r1) := toggleBookmark uuid1 now1 documentId chunkIndex text1 s in
  let '(s2, r2) := toggleBookmark uuid2 now2 documentId chunkIndex text2 s1 in
  added r1 = true ∧ added r2 = false
  ∧ isChunkBookmarked documentId chunkIndex s2 = false
  ∧ ∀ k b, bookmarks s2 !! k = Some b →
           ¬ (bm_documentId b = documentId ∧ bm_chunkIndex b = chunkIndex).
Proof.
  intros Hno.
  pose proof (proj1 (isChunkBookmarked_false _ _ _) Hno) as Hno'.
  unfold toggleBookmark at 1. rewrite find_chunk_None by done.
  cbn [saveBookmark in_id in_documentId in_chunkIndex in_text].
  set (b1 := Bookmark uuid1 documentId chunkIndex text1 now1).
  set (s1 := putBookmark b1 s).
  unfold toggleBookmark.
  destruct (List.find _ (getBookmarksByDocument documentId s1))
    as [existing|] eqn:E.
  - apply find_some in E as [Hin Hidx].
    apply list_elem_of_In, getBookmarksByDocument_elem in Hin as [Hd [k Hk]].
    apply Z.eqb_eq in Hidx.
    assert (existing = b1) as ->.
    { unfold s1, putBookmark in Hk. cbn [bookmarks bm_id b1] in Hk.
      destruct (decide (k = uuid1)) as [->|Hne].
      - rewrite lookup_insert_eq in Hk. congruence.
      - rewrite lookup_insert_ne in Hk by done.
        by destruct (Hno' k existing). }
    assert (Hs2 : ∀ k b,
      bookmarks (deleteBookmark (bm_id b1) s1) !! k = Some b →
      bookmarks s !! k = Some b).
    { intros k' b'. unfold deleteBookmark, deleteFromBookmarks, s1, putBookmark.
      cbn [bookmarks bm_id b1]. rewrite delete_insert_eq.
      intros H. apply lookup_delete_Some in H as [_ H]. done. }
    split; [done|]. split; [done|].
    assert (Hfin : ∀ k b,
      bookmarks (deleteBookmark (bm_id b1) s1) !! k = Some b →
      bm_documentId b = documentId → bm_chunkIndex b ≠ chunkIndex).
    { intros k' b' H. apply Hs2 in H.
      by apply (Hno' k'). }
    split; [by apply isChunkBookmarked_false|].
    intros k' b' H [H1 H2]. by apply (Hfin k' b').
  - exfalso.
    assert (isChunkBookmarked documentId chunkIndex s1 = true).
    { apply isChunkBookmarked_true. exists uuid1, b1.
      split; [|done]. unfold s1, putBookmark. cbn [bookmarks bm_id b1].
      apply lookup_insert_eq. }
    unfold isChunkBookmarked in H. apply existsb_exists in H as (b & Hb & Hi).
    by apply (find_none _ _ E) in Hb; congruence.
Qed.

Lemma fold_delete_bookmarks l : ∀ s,
  let s' := fold_left (fun s b => deleteFromBookmarks (bm_id b) s) l s in
  documents s' = documents s ∧ progresses s' = progresses s
  ∧ ∀ k, bookmarks s' !! k
         = if bool_decide (k ∈ map bm_id l) then None else bookmarks s !! k.
Proof.
  induction l as [|b l IH]; intros s; cbn [fold_left map]; cbv zeta.
  - split; [done|]. split; [done|]. intros k.
    rewrite bool_decide_eq_false_2; [done|]. apply not_elem_of_nil.
  - destruct (IH (deleteFromBookmarks (bm_id b) s)) as (H1 & H2 & H3).
    split; [done|]. split; [done|]. intros k. rewrite H3.
    cbn [deleteFromBookmarks bookmarks].
    destruct (decide (k = bm_id b)) as [->|Hne].
    + rewrite lookup_delete_eq.
      rewrite (bool_decide_eq_true_2 (bm_id b ∈ bm_id b :: _));
        [|apply elem_of_cons; by left].
      by destruct (bool_decide _).
    + rewrite lookup_delete_ne by done.
      assert (Hiff : k ∈ map bm_id l ↔ k ∈ bm_id b :: map bm_id l).
      { rewrite elem_of_cons. tauto. }
      by rewrite (bool_decide_ext _ _ Hiff).
Qed.

(** C10: after [deleteDocument id] the store holds no document with that
    id, no bookmark whose [documentId] is [id], and no progress entry keyed
    by [id]; the stores keep their in-line keys. *)
Theorem deleteDocument_cascade (id : jsstring) (s : db) :
  keyed s = true →
  let s' := deleteDocument id s in
  getDocument id s' = None
  ∧ (∀ k d, documents s' !! k = Some d → doc_id d ≠ id)
  ∧ (∀ k b, bookmarks s' !! k = Some b → bm_documentId b ≠ id)
  ∧ getBookmarksByDocument id s' = []
  ∧ getProgress id s' = None
  ∧ (∀ k p, progresses s' !! k = Some p → pr_documentId p ≠ id)
  ∧ keyed s' = true.
Proof.
  intros Hk. pose proof (proj1 (keyed_spec s) Hk) as (Kd & Kb & Kp).
  unfold deleteDocument. cbv zeta.
  set (s1 := deleteFromDocuments id s).
  set (l := getBookmarksByDocument id s1).
  destruct (fold_delete_bookmarks l s1) as (H1 & H2 & H3).
  set (s2 := fold_left _ l s1) in *.
  assert (Hsub : ∀ k b, bookmarks s2 !! k = Some b → bookmarks s !! k = Some b).
  { intros k b Hkb. rewrite H3 in Hkb.
    by destruct (bool_decide (k ∈ map bm_id l)). }
  assert (Hb : ∀ k b, bookmarks s2 !! k = Some b → bm_documentId b ≠ id).
  { intros k b Hkb Hd. pose proof (Hsub k b Hkb) as Hs. rewrite H3 in Hkb.
    destruct (bool_decide (k ∈ map bm_id l)) eqn:E; [done|].
    apply bool_decide_eq_false in E. apply E.
    rewrite <- (Kb k b Hs).
    apply list_elem_of_fmap. exists b. split; [done|].
    apply getBookmarksByDocument_elem. split; [done|]. by exists k. }
  assert (Hdoc : ∀ k d, documents (deleteFromProgress id s2) !! k = Some d →
                 documents s !! k = Some d ∧ k ≠ id).
  { intros k d. cbn [deleteFromProgress documents]. rewrite H1.
    cbn [s1 deleteFromDocuments documents].
    intros [? ?]%lookup_delete_Some. done. }
  assert (Hpr : ∀ k p, progresses (deleteFromProgress id s2) !! k = Some p →
                progresses s !! k = Some p ∧ k ≠ id).
  { intros k p. cbn [deleteFromProgress progresses]. rewrite H2.
    intros [? ?]%lookup_delete_Some. done. }
  unfold getDocument, getProgress.
  split; [|split; [|split; [done|split; [|split; [|split]]]]].
  - cbn [deleteFromProgress documents]. rewrite H1. apply lookup_delete_eq.
  - intros k d [Hd Hne]%Hdoc. by rewrite (Kd k d Hd).
  - destruct (getBookmarksByDocument id (deleteFromProgress id s2))
      as [|b l'] eqn:E; [done|].
    assert (Hin : b ∈ getBookmarksByDocument id (deleteFromProgress id s2))
      by (rewrite E; apply elem_of_cons; by left).
    apply getBookmarksByDocument_elem in Hin as [Hd [k Hkb]].
    by destruct (Hb k b).
  - apply lookup_delete_eq.
  - intros k p [Hp Hne]%Hpr. by rewrite (Kp k p Hp).
  - apply keyed_spec. split; [|split].
    + intros k d [Hd _]%Hdoc. by apply Kd.
    + intros k b Hkb. by apply Kb, Hsub.
    + intros k p [Hp _]%Hpr. by apply Kp.
Qed.

(** C9, instance: a store that holds a bookmark of another chunk. *)
Lemma toggleBookmark_twice_witness :
  let '(s1, r1) :=
    toggleBookmark (js "u1") (js "t1") (js "doc") 5 (js "fifth") sampleDb in
  let '(s2, r2) :=
    toggleBookmark (js "u2") (js "t2") (js "doc") 5 (js "fifth") s1 in
  added r1 = true ∧ added r2 = false
  ∧ isChunkBookmarked (js "doc") 5 s2 = false
  ∧ ∀ k b, bookmarks s2 !! k = Some b →
           ¬ (bm_documentId b = js "doc" ∧ bm_chunkIndex b = 5%Z).
Proof.
  apply (toggleBookmark_twice sampleDb (js "doc") 5 (js "fifth") (js "fifth")
           (js "u1") (js "t1") (js "u2") (js "t2")).
  vm_compute. reflexivity.
Defined.

(** C10, instance: a store that holds a bookmark of the document. *)
Lemma deleteDocument_cascade_witness :
  let s' := deleteDocument (js "doc") sampleDb in
  getDocument (js "doc") s' = None
  ∧ (∀ k d, documents s' !! k = Some d → doc_id d ≠ js "doc")
  ∧ (∀ k b, bookmarks s' !! k = Some b → bm_documentId b ≠ js "doc")
  ∧ getBookmarksByDocument (js "doc") s' = []
  ∧ getProgress (js "doc") s' = None
  ∧ (∀ k p, progresses s' !! k = Some p → pr_documentId p ≠ js "doc")
  ∧ keyed s' = true.
Proof. apply deleteDocument_cascade. vm_compute. reflexivity. Defined.

End DbProps.

(* ===================================================================== *)
(** ** Further properties of the chunker                                 *)
(* ===================================================================== *)

Module ChunkerLaws.
Import JS Chunker Words Notions Invariants StringFacts ChunkerProps.

Lemma push_app w l m : push w (l ++ m) = push w l ++ m.
Proof. unfold push. by destruct (nonempty w). Qed.

Lemma tok_app_sep a c b : isSpace c = true →
  tok (a ++ c :: b) = (fst (tok a), snd (tok a) ++ words b).
Proof.
  intros Hc. induction a as [|x a IH]; cbn [app tok].
  - rewrite Hc. unfold words. by destruct (tok b).
  - rewrite IH. destruct (tok a) as [w ws]. cbn [fst snd].
    destruct (isSpace x); [|done]. by rewrite push_app.
Qed.

Lemma words_app_sep a c b : isSpace c = true →
  words (a ++ c :: b) = words a ++ words b.
Proof.
  intros Hc. unfold words at 1 2. rewrite tok_app_sep by done.
  destruct (tok a) as [w ws]. apply push_app.
Qed.

Lemma words_nil : words [] = [].
Proof. done. Qed.

Lemma words_join c l : isSpace c = true →
  words (join [c] l) = concat (map words l).
Proof.
  intros Hc. induction l as [|x l IH]; [done|].
  destruct l as [|y l].
  - simpl. by rewrite app_nil_r.
  - change (join [c] (x :: y :: l)) with (x ++ c :: join [c] (y :: l)).
    rewrite words_app_sep by done. by rewrite IH.
Qed.

Lemma sum_list_length_concat {A} (ls : list (list A)) :
  length (concat ls) = sum_list (map length ls).
Proof. induction ls as [|l ls IH]; simpl; [done|]. rewrite length_app. lia. Qed.


Lemma words_nil_iff t : words t = [] ↔ allSpace t = true.
Proof.
  split.
  - induction t as [|c t IH]; [done|]. intros H. rewrite allSpace_cons.
    destruct (isSpace c) eqn:E.
    + rewrite words_cons_space in H by done. by apply IH.
    + by rewrite words_cons_solid in H.
  - intros H. rewrite <- (app_nil_r t), words_app_space_l by done. done.
Qed.

(** X2: [countWords] does not change under [trim], under the replacement
    of CR LF by LF, or under the collapsing of whitespace runs, and it is 0
    exactly on the texts of whitespace only. *)
Theorem countWords_layout (t : jsstring) :
  countWords (trim t) = countWords t
  ∧ countWords (replaceCRLF t) = countWords t
  ∧ countWords (collapseSpaces t) = countWords t
  ∧ (countWords t = 0 ↔ allSpace t = true).
Proof.
  rewrite !countWords_words, words_trim, words_replaceCRLF.
  split; [done|]. split; [done|]. split.
  - rewrite <- (words_trim (collapseSpaces t)), trim_collapse.
    rewrite words_unwords; [done|apply words_solid].
  - rewrite <- words_nil_iff. apply length_zero_iff_nil.
Qed.

(** *** Sentences *)

Lemma forallb_solid ws : forallb solid ws = true ↔ solidAll ws.
Proof. rewrite forallb_forall, List.Forall_forall. done. Qed.

Lemma sentenceGroups_solid ws : solidAll ws →
  Forall (fun g => solidAll g ∧ g ≠ []) (sentenceGroups ws).
Proof.
  intros Hs. apply Forall_and. split.
  - apply Forall_concat_inv. unfold sentenceGroups.
    by rewrite groupLoop_concat.
  - apply groupLoop_nonempty.
Qed.

(** X3: on a cleaned text (whitespace runs collapsed, trimmed) the
    sentences of [splitIntoSentences], joined by single spaces, are the text;
    every sentence is itself cleaned and has a word, and the word counts of
    the sentences add up to the word count of the text. *)
Theorem splitIntoSentences_join (t : jsstring) :
  let cleanText := trim (collapseSpaces t) in
  join (js " ") (splitIntoSentences cleanText) = cleanText
  ∧ Forall (fun s => trim (collapseSpaces s) = s ∧ 1 ≤ countWords s)
           (splitIntoSentences cleanText)
  ∧ sum_list (map countWords (splitIntoSentences cleanText)) = countWords t.
Proof.
  cbv zeta. rewrite trim_collapse.
  pose proof (words_solid t) as Hs.
  rewrite splitIntoSentences_unwords by done.
  pose proof (sentenceGroups_solid _ Hs) as Hg.
  assert (Hcat : concat (sentenceGroups (words t)) = words t)
    by apply groupLoop_concat.
  split; [|split].
  - fold (unwords (map unwords (sentenceGroups (words t)))).
    rewrite unwords_concat; [by rewrite Hcat|apply groupLoop_nonempty].
  - apply Forall_map. eapply Forall_impl; [exact Hg|].
    intros g [H1 H2]. cbn beta. rewrite trim_collapse, words_unwords by done.
    split; [done|]. rewrite countWords_unwords by done.
    destruct g; [done|simpl; lia].
  - rewrite map_map.
    rewrite (map_ext_Forall _ length).
    + by rewrite <- sum_list_length_concat, Hcat, countWords_words.
    + eapply Forall_impl; [exact Hg|]. intros g [H1 _].
      by apply countWords_unwords.
Qed.

(** *** Long sentences *)

Lemma longStep_cut st consumed w :
  cutInv st consumed → cutInv (longStep st w) (consumed ++ [w]).
Proof.
  destruct st as [chunks cur]. intros (pieces & Hc & Hb & Hcat & Hlen).
  cbn [fst snd] in Hc, Hcat, Hlen. subst chunks consumed.
  unfold cutInv, longStep, sliceTo, sliceFrom. cbv zeta.
  assert (Hl : length (cur ++ [w]) = S (length cur))
    by (rewrite length_app; simpl; lia).
  destruct (MAX_WORDS <=? length (cur ++ [w])) eqn:E.
  - apply Nat.leb_le in E.
    assert (Hne : cur ++ [w] ≠ []) by by destruct cur.
    pose proof (breakIndex_bounds _ Hne) as Hbi.
    set (b := breakIndex (cur ++ [w])) in *.
    exists (pieces ++ [take (b + 1) (cur ++ [w])]). cbn [fst snd].
    split; [rewrite map_app; reflexivity|]. split; [|split].
    + apply Forall_app. split; [done|]. constructor; [|done].
      unfold fullPiece. rewrite length_take. unfold MAX_WORDS in *. lia.
    + rewrite concat_app. simpl. rewrite app_nil_r, <- !app_assoc.
      by rewrite take_drop.
    + rewrite length_drop. unfold MAX_WORDS in *. lia.
  - apply Nat.leb_gt in E. exists pieces. cbn [fst snd].
    split; [done|]. split; [done|]. split; [by rewrite app_assoc|done].
Qed.

Lemma fold_longStep_cut ws : ∀ st consumed,
  cutInv st consumed → cutInv (fold_left longStep ws st) (consumed ++ ws).
Proof.
  induction ws as [|w ws IH]; intros st consumed H; simpl.
  - by rewrite app_nil_r.
  - replace (consumed ++ w :: ws) with ((consumed ++ [w]) ++ ws)
      by by rewrite <- app_assoc.
    by apply IH, longStep_cut.
Qed.

Lemma fullPiece_bounded p : fullPiece p → bounded p.
Proof.
  unfold fullPiece, bounded, MAX_WORDS. intros H. split; [|lia].
  intros ->. simpl in H. lia.
Qed.

(** X4: [splitLongSentence] on a sentence of words separated by single
    spaces cuts it into pieces that join back to the sentence: every piece
    cut inside the loop has 41 to 50 words, and at most one last piece, of 1
    to 49 words, follows them. *)
Theorem splitLongSentence_pieces (g : list jsstring) :
  forallb solid g = true → 0 < length g →
  ∃ pieces rest,
    splitLongSentence (unwords g) = map unwords (pieces ++ rest)
    ∧ concat (pieces ++ rest) = g
    ∧ Forall (fun p => 41 ≤ length p ≤ 50) pieces
    ∧ Forall (fun p => 1 ≤ length p < 50) rest
    ∧ length rest ≤ 1
    ∧ join (js " ") (splitLongSentence (unwords g)) = unwords g.
Proof.
  intros Hs Hne. apply forallb_solid in Hs.
  assert (Hg : g ≠ []) by (intros ->; simpl in Hne; lia).
  unfold splitLongSentence. rewrite split_unwords by done.
  assert (H0 : cutInv ([], []) [])
    by (exists []; simpl; unfold MAX_WORDS; repeat split; auto; lia).
  pose proof (fold_longStep_cut g _ _ H0) as (pieces & Hc & Hb & Hcat & Hlen).
  destruct (fold_left longStep g ([], [])) as [chunks cur].
  simpl in Hc, Hcat, Hlen. subst chunks.
  assert (Hall : Forall (fun p => solidAll p) pieces ∧ solidAll cur).
  { rewrite <- Hcat in Hs. apply Forall_app in Hs as [H1 H2].
    split; [by apply Forall_concat_inv|done]. }
  destruct Hall as [Hp Hcur].
  assert (Hbd : Forall bounded pieces)
    by (eapply Forall_impl; [exact Hb|apply fullPiece_bounded]).
  exists pieces, (match cur with [] => [] | _ => [cur] end).
  assert (Hres :
    List.filter (fun c => 0 <? length (trim c))
      (if 0 <? length cur then map unwords pieces ++ [join (js " ") cur]
       else map unwords pieces)
    = map unwords (pieces ++ match cur with [] => [] | _ => [cur] end)).
  { destruct cur as [|v cur].
    - simpl. rewrite app_nil_r. apply filter_all. by apply kept_trim_all.
    - simpl. rewrite map_app. simpl. apply filter_all. apply Forall_app. split.
      + by apply kept_trim_all.
      + constructor; [|done]. by apply kept_trim. }
  assert (Hcc : concat (pieces ++ match cur with [] => [] | _ => [cur] end) = g).
  { rewrite concat_app, <- Hcat. destruct cur; simpl; by rewrite ?app_nil_r. }
  rewrite Hres. split; [done|]. split; [done|]. split; [|split; [|split]].
  - eapply Forall_impl; [exact Hb|]. unfold fullPiece, MAX_WORDS. intros; lia.
  - destruct cur; [done|]. constructor; [|done]. unfold MAX_WORDS in Hlen.
    simpl in *. lia.
  - destruct cur; simpl; lia.
  - fold (unwords (map unwords (pieces ++ match cur with [] => [] | _ => [cur] end))).
    rewrite unwords_concat; [by rewrite Hcc|].
    apply Forall_app. split.
    + eapply Forall_impl; [exact Hbd|]. by intros p [H _].
    + destruct cur; [done|]. by constructor.
Qed.

(** *** Greedy packing *)

Lemma weight_app p q : weight (p ++ q) = weight p + weight q.
Proof. unfold weight. by rewrite concat_app, length_app. Qed.

Lemma weight_one g : weight [g] = length g.
Proof. unfold weight. simpl. by rewrite app_nil_r. Qed.

Lemma greedy_one p : p ≠ [] → weight p ≤ MAX_WORDS → greedy [p].
Proof.
  intros Hp Hw. split; [constructor; [done|constructor]|].
  intros i x y Hx Hy. destruct i; simpl in Hy; done.
Qed.

Lemma greedy_snoc_new packs cur g :
  greedy (packs ++ [cur]) → MAX_WORDS < weight cur + length g →
  length g ≤ MAX_WORDS →
  greedy ((packs ++ [cur]) ++ [[g]]).
Proof.
  intros [Hall Hadj] Hfit Hg. split.
  - apply Forall_app. split; [done|]. constructor; [|done].
    split; [done|]. by rewrite weight_one.
  - intros i p q Hp Hq.
    destruct (decide (S i < length (packs ++ [cur]))) as [Hi|Hi].
    + rewrite lookup_app_l in Hp by lia. rewrite lookup_app_l in Hq by lia.
      by eapply Hadj.
    + apply lookup_lt_Some in Hq as Hlt. rewrite length_app in Hlt.
      simpl in Hlt. assert (S i = length (packs ++ [cur])) as Hi' by lia.
      rewrite lookup_app_r in Hq by lia. rewrite Hi', Nat.sub_diag in Hq.
      injection Hq as <-. rewrite lookup_app_l in Hp by lia.
      rewrite length_app in Hi'. simpl in Hi'.
      rewrite lookup_app_r in Hp by lia.
      replace (i - length packs) with 0 in Hp by lia.
      injection Hp as <-. done.
Qed.

Lemma greedy_snoc_extend packs cur g :
  cur ≠ [] → greedy (packs ++ [cur]) → weight cur + length g ≤ MAX_WORDS →
  greedy (packs ++ [cur ++ [g]]).
Proof.
  intros Hne [Hall Hadj] Hfit. apply Forall_app in Hall as [Hall Hcur].
  split.
  - apply Forall_app. split; [done|]. constructor; [|done]. split.
    + by destruct cur.
    + by rewrite weight_app, weight_one.
  - intros i p q Hp Hq.
    apply lookup_lt_Some in Hq as Hlt. rewrite length_app in Hlt.
    simpl in Hlt.
    rewrite lookup_app_l in Hp by lia.
    destruct (decide (S i < length packs)) as [Hi|Hi].
    + rewrite lookup_app_l in Hq by lia. apply (Hadj i).
      * by rewrite lookup_app_l by lia.
      * by rewrite lookup_app_l by lia.
    + rewrite lookup_app_r in Hq by lia.
      replace (S i - length packs) with 0 in Hq by lia.
      injection Hq as <-.
      assert (Hq' : (packs ++ [cur]) !! S i = Some cur).
      { rewrite lookup_app_r by lia.
        by replace (S i - length packs) with 0 by lia. }
      assert (Hp' : (packs ++ [cur]) !! i = Some p)
        by by rewrite lookup_app_l by lia.
      pose proof (Hadj i p cur Hp' Hq') as H. by destruct cur.
Qed.

Lemma pack_nonempty p :
  p ≠ [] → Forall (fun g => solidAll g ∧ g ≠ []) p →
  (0 <? length (unwords (concat p))) = true.
Proof.
  intros Hne Hp. apply Forall_and in Hp as [H1 H2]. apply kept.
  - clear Hne H2. induction H1; simpl; [done|]. by apply Forall_app.
  - by apply concat_nonempty.
Qed.

Lemma solidAll_concat (p : list (list jsstring)) :
  Forall (fun g => solidAll g ∧ g ≠ []) p → solidAll (concat p).
Proof. induction 1 as [|g p [Hg _] _ IH]; simpl; [done|]. by apply Forall_app. Qed.

Lemma pushCurrent_pack st packs curgs :
  chunks st = map (fun p => unwords (concat p)) packs →
  currentChunk st = map unwords curgs →
  Forall (fun g => solidAll g ∧ g ≠ []) curgs →
  pushCurrent st = map (fun p => unwords (concat p)) (packs ++ [curgs]).
Proof.
  intros Hc Hcur Hg. unfold pushCurrent. rewrite Hc, Hcur, map_app.
  f_equal. simpl. f_equal. fold (unwords (map unwords curgs)).
  rewrite unwords_concat by (eapply Forall_impl; [exact Hg|]; by intros g [_ ?]).
  apply trim_unwords. by apply solidAll_concat.
Qed.

Lemma packStep_greedy st seen g :
  Forall (fun g => solidAll g ∧ g ≠ []) seen →
  solidAll g → g ≠ [] → length g ≤ MAX_WORDS →
  greedyInv st seen → greedyInv (packStep st (unwords g)) (seen ++ [g]).
Proof.
  intros Hseen Hg Hne Hle
    (packs & curgs & Hc & Hcur & Hcnt & Hw & Hnil & Hcat & Hgr).
  assert (Hcs : Forall (fun g => solidAll g ∧ g ≠ []) curgs).
  { rewrite <- Hcat in Hseen. by apply Forall_app in Hseen as [_ ?]. }
  unfold packStep. cbv zeta. rewrite countWords_unwords by done.
  destruct (MAX_WORDS <? length g) eqn:E1; [apply Nat.ltb_lt in E1; lia|].
  rewrite Hcnt.
  destruct (MAX_WORDS <? weight curgs + length g) eqn:E2.
  - apply Nat.ltb_lt in E2.
    assert (Hcg : curgs ≠ []).
    { intros ->. unfold weight in E2. simpl in E2. lia. }
    assert (Hlen : (0 <? length (currentChunk st)) = true).
    { rewrite Hcur, length_map. by apply length_pos_nonnil. }
    rewrite Hlen. exists (packs ++ [curgs]), [g].
    cbn [chunks currentChunk currentWordCount map].
    rewrite (pushCurrent_pack st packs curgs) by done.
    split; [done|]. split; [done|]. split; [by rewrite weight_one|].
    split; [by rewrite weight_one|]. split; [done|]. split.
    + rewrite concat_app. simpl. by rewrite app_nil_r, <- Hcat.
    + destruct curgs; [done|]. by apply greedy_snoc_new.
  - apply Nat.ltb_ge in E2. exists packs, (curgs ++ [g]).
    cbn [chunks currentChunk currentWordCount].
    split; [done|]. split; [by rewrite Hcur, map_app|].
    split; [by rewrite weight_app, weight_one|].
    split; [by rewrite weight_app, weight_one|].
    split; [by destruct curgs|]. split; [by rewrite <- Hcat, app_assoc|].
    destruct curgs as [|c curgs].
    + rewrite (Hnil eq_refl). simpl. apply greedy_one; [done|].
      by rewrite weight_one.
    + change ((c :: curgs) ++ [g]) with (((c :: curgs) ++ [g])).
      destruct ((c :: curgs) ++ [g]) eqn:Ecg; [done|]. rewrite <- Ecg.
      by apply greedy_snoc_extend.
Qed.

Lemma fold_packStep_greedy gs : ∀ st seen,
  Forall (fun g => solidAll g ∧ g ≠ []) seen →
  Forall (fun g => solidAll g ∧ g ≠ [] ∧ length g ≤ MAX_WORDS) gs →
  greedyInv st seen →
  greedyInv (fold_left packStep (map unwords gs) st) (seen ++ gs).
Proof.
  induction gs as [|g gs IH]; intros st seen Hseen Hgs H; simpl.
  - by rewrite app_nil_r.
  - apply Forall_cons in Hgs as [(H1 & H2 & H3) Hgs].
    replace (seen ++ g :: gs) with ((seen ++ [g]) ++ gs)
      by by rewrite <- app_assoc.
    apply IH; [|done|by apply packStep_greedy].
    apply Forall_app. split; [done|]. by constructor.
Qed.

Lemma shortSentence_spec g :
  shortSentence g = true ↔ solidAll g ∧ g ≠ [] ∧ length g ≤ MAX_WORDS.
Proof.
  unfold shortSentence. rewrite !andb_true_iff, forallb_solid.
  rewrite length_pos_nonnil, Nat.leb_le. tauto.
Qed.

(** X5: on sentences of 1 to 50 words [chunkSentences] packs greedily:
    every chunk is a run of whole sentences in their order, joined by single
    spaces, no chunk is empty or has more than 50 words, and the first
    sentence of a chunk would not have fitted into the chunk before it. *)
Theorem chunkSentences_greedy (gs : list (list jsstring)) :
  forallb shortSentence gs = true →
  ∃ packs,
    chunkSentences (map unwords gs)
    = map (fun p => join (js " ") (map unwords p)) packs
    ∧ concat packs = gs
    ∧ greedy packs.
Proof.
  intros Hall.
  assert (Hgs : Forall (fun g => solidAll g ∧ g ≠ [] ∧ length g ≤ MAX_WORDS) gs).
  { apply List.Forall_forall. intros g Hin. apply shortSentence_spec.
    rewrite forallb_forall in Hall. by apply Hall. }
  assert (Hgs' : Forall (fun g => solidAll g ∧ g ≠ []) gs).
  { eapply Forall_impl; [exact Hgs|]. by intros g (? & ? & _). }
  assert (H0 : greedyInv (PackState [] [] 0) []).
  { exists [], []. simpl. unfold weight, MAX_WORDS. simpl.
    repeat split; auto; try lia. intros i p q H. done. }
  pose proof (fold_packStep_greedy gs _ [] (Forall_nil_2 _) Hgs H0)
    as (packs & curgs & Hc & Hcur & Hcnt & Hw & Hnil & Hcat & Hgr).
  simpl in Hcat. unfold chunkSentences. cbv zeta.
  set (st := fold_left packStep (map unwords gs) (PackState [] [] 0)) in *.
  assert (Hcs : Forall (fun g => solidAll g ∧ g ≠ []) curgs).
  { rewrite <- Hcat in Hgs'. by apply Forall_app in Hgs' as [_ ?]. }
  assert (Hps : Forall (Forall (fun g => solidAll g ∧ g ≠ [])) packs).
  { rewrite <- Hcat in Hgs'. apply Forall_app in Hgs' as [? _].
    by apply Forall_concat_inv. }
  exists (match curgs with [] => packs | _ => packs ++ [curgs] end).
  assert (Hfin :
    (if 0 <? length (currentChunk st) then pushCurrent st else chunks st)
    = map (fun p => unwords (concat p))
          (match curgs with [] => packs | _ => packs ++ [curgs] end)).
  { rewrite Hcur, length_map. destruct curgs as [|c curgs]; [done|].
    cbn [length Nat.ltb Nat.leb]. by apply pushCurrent_pack. }
  rewrite Hfin. split; [|split; [|done]].
  - rewrite filter_all.
    + apply map_ext_Forall.
      assert (Hps' : Forall (Forall (fun g => solidAll g ∧ g ≠ []))
                (match curgs with [] => packs | _ => packs ++ [curgs] end)).
      { destruct curgs; [done|]. apply Forall_app. split; [done|].
        by constructor. }
      eapply Forall_impl; [exact Hps'|]. intros p Hp. cbn beta.
      fold (unwords (map unwords p)). symmetry. apply unwords_concat.
      eapply Forall_impl; [exact Hp|]. by intros g [_ ?].
    + apply Forall_map. destruct Hgr as [Hne _].
      assert (Hps' : Forall (Forall (fun g => solidAll g ∧ g ≠ []))
                (match curgs with [] => packs | _ => packs ++ [curgs] end)).
      { destruct curgs; [done|]. apply Forall_app. split; [done|].
        by constructor. }
      assert (Hboth : Forall (fun p => (p ≠ [] ∧ weight p ≤ MAX_WORDS)
                        ∧ Forall (fun g => solidAll g ∧ g ≠ []) p)
                (match curgs with [] => packs | _ => packs ++ [curgs] end))
        by by apply Forall_and.
      eapply Forall_impl; [exact Hboth|]. intros p [[Hp _] Hs].
      by apply pack_nonempty.
  - destruct curgs as [|c curgs].
    + by rewrite app_nil_r in Hcat.
    + rewrite concat_app. simpl. by rewrite app_nil_r.
Qed.


(** *** The chunks of a text *)

Lemma flatChunks_words t :
  ∃ packs, flatChunks t = map (fun p => Chunk (unwords p) None) packs
           ∧ concat packs = words t ∧ Forall bounded packs.
Proof.
  destruct (pipeline_words t) as (packs & Hc & Hcat & Hb).
  exists packs. unfold flatChunks. cbv zeta. rewrite Hc, map_map. done.
Qed.

Lemma sectionChunks_words s :
  ∃ packs, sectionChunks s = map (fun p => Chunk (unwords p) (header s)) packs
           ∧ concat packs = words (content s) ∧ Forall bounded packs.
Proof.
  unfold sectionChunks. destruct (nonempty (content s)) eqn:E.
  - destruct (pipeline_words (content s)) as (packs & Hc & Hcat & Hb).
    exists packs. cbv zeta. rewrite Hc, map_map. done.
  - exists []. rewrite words_nil_allSpace by done. done.
Qed.

Lemma packs_solid (packs : list (list jsstring)) t :
  concat packs = words t → Forall (fun p => solidAll p) packs.
Proof.
  intros H. apply Forall_concat_inv. rewrite H. apply words_solid.
Qed.

Lemma clean_pack p : solidAll p → bounded p →
  trim (collapseSpaces (unwords p)) = unwords p
  ∧ nonempty (unwords p) = true.
Proof.
  intros Hs [Hne _]. split.
  - rewrite trim_collapse, words_unwords; done.
  - apply nonempty_true. by apply unwords_nonempty.
Qed.

Lemma clean_packs (packs : list (list jsstring)) (h : option jsstring) t :
  concat packs = words t → Forall bounded packs →
  Forall (fun c => trim (collapseSpaces (text c)) = text c
                   ∧ nonempty (text c) = true)
         (map (fun p => Chunk (unwords p) h) packs).
Proof.
  intros Hcat Hb. apply Forall_map.
  assert (H : Forall (fun p => solidAll p ∧ bounded p) packs).
  { apply Forall_and. split; [by eapply packs_solid|done]. }
  eapply Forall_impl; [exact H|]. intros p [H1 H2]. by apply clean_pack.
Qed.

Lemma chunkString_clean s v :
  Forall (fun c => trim (collapseSpaces (text c)) = text c
                   ∧ nonempty (text c) = true) (chunkString s v).
Proof.
  unfold chunkString. destruct (nonempty s); [|done]. cbv zeta.
  destruct (nonempty (normalize s)); [|done].
  destruct (truthy v && hasHeaders (normalize s)).
  - unfold chunkByStructure. apply Forall_flat_map, List.Forall_forall.
    intros sec _. destruct (sectionChunks_words sec) as (packs & -> & Hc & Hb).
    by eapply clean_packs.
  - destruct (flatChunks_words (normalize s)) as (packs & -> & Hc & Hb).
    by eapply clean_packs.
Qed.

Lemma chunkString_clean_count s v :
  Forall (fun c => trim (collapseSpaces (text c)) = text c
                   ∧ nonempty (text c) = true
                   ∧ 1 ≤ countWords (text c)) (chunkString s v).
Proof.
  eapply Forall_impl; [apply chunkString_clean|].
  intros c [H1 H2]. split; [done|]. split; [done|].
  destruct (countWords (text c)) eqn:E; [|lia].
  rewrite countWords_words in E. apply length_zero_iff_nil in E.
  rewrite <- H1, trim_collapse, E in H2. done.
Qed.

(** X6: whatever the input and the options, the text of every chunk of a
    sequence that [chunkText] returns is cleaned text (collapsing its
    whitespace and trimming it changes nothing), is not empty and has at
    least one word. *)
Theorem chunkText_chunks_clean (t : jsval) (options : optionsArg)
  (chunks : list chunk) :
  chunkText t options = Ok chunks →
  Forall (fun c => trim (collapseSpaces (text c)) = text c
                   ∧ nonempty (text c) = true
                   ∧ 1 ≤ countWords (text c)) chunks.
Proof.
  unfold chunkText. destruct options as [| |v]; [|done|];
    destruct t; intros [= <-]; try apply chunkString_clean_count; done.
Qed.

Lemma flat_blank t : words t = [] → flatChunks t = [].
Proof.
  intros H. unfold flatChunks. cbv zeta. by rewrite trim_collapse, H.
Qed.

Lemma nonempty_normalize_words t :
  nonempty (normalize t) = false → words t = [].
Proof.
  intros H. rewrite <- words_normalize. by apply words_nil_allSpace.
Qed.

(** What [chunkString] returns without structural chunking, as a function
    of the words. *)
Lemma chunkString_flat t v :
  truthy v && hasHeaders (normalize t) = false →
  chunkString t v
  = map (fun chunkText => Chunk chunkText None)
        (chunkSentences (splitIntoSentences (unwords (words t)))).
Proof.
  intros Hflat. unfold chunkString.
  assert (Hblank : words t = [] →
    [] = map (fun chunkText => Chunk chunkText None)
             (chunkSentences (splitIntoSentences (unwords (words t)))))
    by by intros ->.
  destruct (nonempty t) eqn:E1.
  - cbv zeta. destruct (nonempty (normalize t)) eqn:E2.
    + rewrite Hflat. unfold flatChunks. cbv zeta.
      by rewrite trim_collapse, words_normalize.
    + by apply Hblank, nonempty_normalize_words.
  - by apply Hblank, words_nil_allSpace.
Qed.

Lemma structuralEnabled_false options :
  structuralEnabled options = false → isNullOptions options = false →
  ∃ v, options = OptionsObject v ∧ truthy v = false
       ∧ ∀ t, chunkText (JString t) options = Ok (chunkString t v).
Proof.
  destruct options as [| |v]; try done. intros H _. exists v.
  destruct v; try done; simpl in H; subst; done.
Qed.

(** X7: with structural chunking switched off, [chunkText] depends on the
    words of the text only: two texts with the same words, whatever their
    whitespace and line breaks, give the same chunks. *)
Theorem chunkText_flat_layout (t1 t2 : jsstring) (options : optionsArg) :
  structuralEnabled options = false → isNullOptions options = false →
  words t1 = words t2 →
  chunkText (JString t1) options = chunkText (JString t2) options.
Proof.
  intros H1 H2 Hw.
  destruct (structuralEnabled_false _ H1 H2) as (v & -> & Hv & Hc).
  rewrite !Hc, !chunkString_flat by by rewrite Hv. by rewrite Hw.
Qed.

Lemma sum_list_map_length_concat packs :
  Forall (fun p => solidAll p) packs →
  sum_list (map (fun p => countWords (unwords p)) packs)
  = length (concat packs).
Proof.
  induction 1 as [|p packs Hp _ IH]; simpl; [done|].
  by rewrite length_app, countWords_unwords, IH.
Qed.

Lemma bounded_total packs :
  Forall bounded packs →
  length packs ≤ length (concat packs) ≤ MAX_WORDS * length packs.
Proof.
  induction 1 as [|p packs [Hne Hle] _ IH]; simpl; [lia|].
  rewrite length_app. assert (0 < length p) by (destruct p; simpl; [done|lia]).
  unfold MAX_WORDS in *. lia.
Qed.

Lemma chunkText_flat_case t options :
  structuralEnabled options && hasHeaders (normalize t) = false →
  isNullOptions options = false →
  ∃ v, truthy v && hasHeaders (normalize t) = false
       ∧ chunkText (JString t) options = Ok (chunkString t v).
Proof.
  destruct options as [| |v]; intros H Hn; [|done|].
  - by exists (JBool true).
  - destruct v; first [by exists (JBool true) | by eexists; split; [|reflexivity]].
Qed.

(** X8: when [chunkText] does not chunk by structure (the option is off or
    the text has no header), every chunk has the context [null], the word
    counts of the chunks add up to the word count of the text, and the number
    of chunks lies between a fiftieth of the word count and the word count. *)
Theorem chunkText_flat_count (t : jsstring) (options : optionsArg) :
  structuralEnabled options && hasHeaders (normalize t) = false →
  isNullOptions options = false →
  ∃ chunks,
    chunkText (JString t) options = Ok chunks
    ∧ Forall (fun c => context c = None) chunks
    ∧ sum_list (map (fun c => countWords (text c)) chunks) = countWords t
    ∧ length chunks ≤ countWords t ≤ 50 * length chunks.
Proof.
  intros H1 H2. destruct (chunkText_flat_case _ _ H1 H2) as (v & Hv & ->).
  eexists. split; [done|]. rewrite chunkString_flat by done.
  destruct (pipeline_words t) as (packs & Hc & Hcat & Hb).
  rewrite trim_collapse in Hc. rewrite Hc, !map_map. cbn [text context].
  rewrite !length_map, countWords_words, <- Hcat.
  split; [|split].
  - apply Forall_map. by apply Forall_true.
  - apply sum_list_map_length_concat. by eapply packs_solid.
  - by apply bounded_total.
Qed.

(** *** Sections *)

Lemma closeSection_words sections hdr cont :
  concat (map (fun s => words (content s)) (closeSection sections hdr cont))
  = concat (map (fun s => words (content s)) sections)
    ++ concat (map words cont).
Proof.
  unfold closeSection. destruct cont as [|l cont].
  - simpl. by rewrite app_nil_r.
  - cbn [length Nat.ltb Nat.leb]. rewrite map_app, concat_app. f_equal.
    cbn [map concat content]. rewrite app_nil_r, words_trim.
    by apply words_join.
Qed.

Lemma structStep_body seen st line :
  bodyInv seen st → bodyInv (seen ++ [line]) (structStep st line).
Proof.
  destruct st as [[sections hdr] cont]. unfold bodyInv, structStep, isHeaderLine.
  intros H. rewrite List.filter_app. cbn [List.filter].
  destruct (headerMatch line) as [title|]; cbn [negb].
  - rewrite app_nil_r, closeSection_words. simpl. by rewrite app_nil_r.
  - rewrite !map_app, !concat_app, app_assoc, H. done.
Qed.

Lemma fold_structStep_body lines : ∀ seen st,
  bodyInv seen st → bodyInv (seen ++ lines) (fold_left structStep lines st).
Proof.
  induction lines as [|l lines IH]; intros seen st H; simpl.
  - by rewrite app_nil_r.
  - replace (seen ++ l :: lines) with ((seen ++ [l]) ++ lines)
      by by rewrite <- app_assoc.
    by apply IH, structStep_body.
Qed.

Lemma sectionsOf_words t :
  concat (map (fun s => words (content s)) (sectionsOf t))
  = concat (map words (bodyLines t)).
Proof.
  unfold sectionsOf, bodyLines.
  assert (H0 : bodyInv [] ([], None, [])) by done.
  pose proof (fold_structStep_body (split LF t) _ _ H0) as H.
  destruct (fold_left structStep (split LF t) ([], None, []))
    as [[sections hdr] cont].
  simpl in H. by rewrite closeSection_words.
Qed.

Lemma unwords_packs (packs : list (list jsstring)) :
  Forall bounded packs →
  join (js " ") (map unwords packs) = unwords (concat packs).
Proof.
  intros Hb. fold (unwords (map unwords packs)). apply unwords_concat.
  eapply Forall_impl; [exact Hb|]. by intros p [? _].
Qed.

Lemma chunkByStructure_words t :
  ∃ packs, map text (chunkByStructure t) = map unwords packs
           ∧ concat packs = concat (map words (bodyLines t))
           ∧ Forall bounded packs.
Proof.
  rewrite <- sectionsOf_words. unfold chunkByStructure.
  induction (sectionsOf t) as [|s secs (packs & IH1 & IH2 & IH3)].
  - by exists [].
  - destruct (sectionChunks_words s) as (ps & Hs & Hc & Hb).
    exists (ps ++ packs). cbn [flat_map map concat].
    rewrite !map_app, concat_app, Hs, map_map, IH1, IH2, Hc.
    split; [done|]. split; [done|]. by apply Forall_app.
Qed.

Lemma chunkText_structural_case t options :
  structuralEnabled options = true → hasHeaders (normalize t) = true →
  chunkText (JString t) options
  = Ok (if nonempty t && nonempty (normalize t)
        then chunkByStructure (normalize t) else []).
Proof.
  intros H1 H2.
  assert (∀ v, truthy v = true →
    chunkString t v = if nonempty t && nonempty (normalize t)
                      then chunkByStructure (normalize t) else []) as Hs.
  { intros v Hv. unfold chunkString. destruct (nonempty t); [|done].
    cbv zeta. destruct (nonempty (normalize t)); [|done].
    by rewrite Hv, H2. }
  destruct options as [| |v]; [|done|].
  - cbn. by rewrite Hs.
  - cbn. destruct v; try done; cbn; by rewrite Hs.
Qed.

Lemma words_lines_solid (ls : list jsstring) :
  solidAll (concat (map words ls)).
Proof.
  induction ls as [|l ls IH]; simpl; [done|].
  apply Forall_app. split; [apply words_solid|done].
Qed.

(** X9: when [chunkText] chunks by structure, the chunk texts joined by
    single spaces are the cleaned text of the lines that are not header
    lines: header lines become context and never text, and no other word is
    lost or added. *)
Theorem chunkText_structural_body (t : jsstring) (options : optionsArg) :
  structuralEnabled options = true → hasHeaders (normalize t) = true →
  ∃ chunks,
    chunkText (JString t) options = Ok chunks
    ∧ join (js " ") (map text chunks)
      = trim (collapseSpaces (join [LF] (bodyLines (normalize t))))
    ∧ sum_list (map (fun c => countWords (text c)) chunks)
      = sum_list (map countWords (bodyLines (normalize t))).
Proof.
  intros H1 H2. rewrite chunkText_structural_case by done.
  eexists. split; [done|].
  assert (Hne : nonempty t && nonempty (normalize t) = true).
  { destruct (nonempty (normalize t)) eqn:E.
    - destruct t; [done|done].
    - exfalso. unfold hasHeaders in H2.
      destruct (normalize t); [|done]. by vm_compute in H2. }
  rewrite Hne.
  destruct (chunkByStructure_words (normalize t)) as (packs & Ht & Hc & Hb).
  split.
  - rewrite Ht, unwords_packs, Hc, trim_collapse by done.
    by rewrite words_join.
  - transitivity (sum_list (map countWords (map text (chunkByStructure (normalize t)))));
      [by rewrite map_map|].
    rewrite Ht, map_map, sum_list_map_length_concat.
    + rewrite Hc, sum_list_length_concat, map_map. f_equal.
      apply map_ext. intros l. by rewrite countWords_words.
    + apply Forall_concat_inv. rewrite Hc. apply words_lines_solid.
Qed.

(** *** Statistics *)

Lemma sum_between (l : list nat) m M :
  Forall (fun w => m ≤ w) l → Forall (fun w => w ≤ M) l →
  length l * m ≤ sum_list l ≤ length l * M.
Proof.
  induction l as [|x l IH]; intros H1 H2; simpl; [lia|].
  apply Forall_cons in H1 as [? H1]. apply Forall_cons in H2 as [? H2].
  specialize (IH H1 H2). lia.
Qed.

Lemma roundDiv_between a b m M : 0 < b → b * m ≤ a ≤ b * M →
  m ≤ roundDiv a b ≤ M.
Proof.
  intros Hb [H1 H2]. unfold roundDiv. split.
  - apply Nat.div_le_lower_bound; [lia|]. nia.
  - apply Nat.lt_succ_r, Nat.Div0.div_lt_upper_bound. nia.
Qed.

(** X10: in the report of [getChunkStats] the rounded average lies between
    the minimum and the maximum, the number of chunks is the length of the
    array, and when there is a total it lies between the number of chunks
    times the minimum and times the maximum; there is no total exactly when
    there is no chunk. *)
Theorem getChunkStats_order (chunks : option (list chunkItem)) :
  let st := getChunkStats chunks in
  minWords st ≤ avgWords st ≤ maxWords st
  ∧ totalChunks st = match chunks with Some l => length l | None => 0 end
  ∧ match totalWords st with
    | Some total =>
        totalChunks st * minWords st ≤ total ≤ totalChunks st * maxWords st
    | None => totalChunks st = 0
    end.
Proof.
  destruct chunks as [[|c cs]|]; cbv zeta; cbn [getChunkStats]; [cbn; lia| |cbn; lia].
  set (wc := map (fun chunk => countWords (getTextFromChunk chunk)) (c :: cs)).
  cbn [minWords avgWords maxWords totalChunks totalWords].
  rewrite fold_left_add, Nat.add_0_l.
  destruct (minOf_spec (countWords (getTextFromChunk c))
              (map (fun chunk => countWords (getTextFromChunk chunk)) cs))
    as [_ Hmin].
  destruct (maxOf_spec (countWords (getTextFromChunk c))
              (map (fun chunk => countWords (getTextFromChunk chunk)) cs))
    as [_ Hmax].
  fold wc in Hmin, Hmax. change (map _ (c :: cs)) with wc in Hmin, Hmax.
  pose proof (sum_between wc _ _ Hmin Hmax) as Hs.
  assert (Hl : length wc = length (c :: cs)) by apply length_map.
  rewrite Hl in Hs. split; [|split; [done|]].
  - apply roundDiv_between; [simpl; lia|]. exact Hs.
  - exact Hs.
Qed.

(** X4, instance: a sentence of sixty words. *)
Lemma splitLongSentence_pieces_witness :
  ∃ pieces rest,
    splitLongSentence (unwords (replicate 60 (js "w")))
    = map unwords (pieces ++ rest)
    ∧ concat (pieces ++ rest) = replicate 60 (js "w")
    ∧ Forall (fun p => 41 ≤ length p ≤ 50) pieces
    ∧ Forall (fun p => 1 ≤ length p < 50) rest
    ∧ length rest ≤ 1
    ∧ join (js " ") (splitLongSentence (unwords (replicate 60 (js "w"))))
      = unwords (replicate 60 (js "w")).
Proof.
  apply (splitLongSentence_pieces (replicate 60 (js "w")));
    [reflexivity|simpl; lia].
Defined.

(** X5, instance: sentences of 30, 20, 1 and 50 words. *)
Lemma chunkSentences_greedy_witness :
  ∃ packs,
    chunkSentences
      (map unwords [replicate 30 (js "a"); replicate 20 (js "b");
                    replicate 1 (js "c"); replicate 50 (js "d")])
    = map (fun p => join (js " ") (map unwords p)) packs
    ∧ concat packs = [replicate 30 (js "a"); replicate 20 (js "b");
                      replicate 1 (js "c"); replicate 50 (js "d")]
    ∧ greedy packs.
Proof.
  apply (chunkSentences_greedy
           [replicate 30 (js "a"); replicate 20 (js "b");
            replicate 1 (js "c"); replicate 50 (js "d")]).
  reflexivity.
Defined.

(** X6, instance: leading content, then a heading and its content. *)
Lemma chunkText_chunks_clean_witness :
  Forall (fun c => trim (collapseSpaces (text c)) = text c
                   ∧ nonempty (text c) = true
                   ∧ 1 ≤ countWords (text c))
         [Chunk (js "Preface text.") None;
          Chunk (js "Hello.") (Some (js "Intro"))].
Proof.
  apply (chunkText_chunks_clean (JString prefaceText) OptionsOmitted).
  reflexivity.
Defined.

(** X7, instance: the same four words on two lines and on one. *)
Lemma chunkText_flat_layout_witness :
  chunkText (JString looseText) (OptionsObject (JBool false))
  = chunkText (JString tightText) (OptionsObject (JBool false)).
Proof.
  apply (chunkText_flat_layout looseText tightText
           (OptionsObject (JBool false))); reflexivity.
Defined.

(** X8, instance: twenty-six sentences of two words. *)
Lemma chunkText_flat_count_witness :
  ∃ chunks,
    chunkText (JString goOnText) OptionsOmitted = Ok chunks
    ∧ Forall (fun c => context c = None) chunks
    ∧ sum_list (map (fun c => countWords (text c)) chunks)
      = countWords goOnText
    ∧ length chunks ≤ countWords goOnText ≤ 50 * length chunks.
Proof.
  apply (chunkText_flat_count goOnText OptionsOmitted); reflexivity.
Defined.

(** X9, instance: two sections. *)
Lemma chunkText_structural_body_witness :
  ∃ chunks,
    chunkText (JString sectionedText) OptionsOmitted = Ok chunks
    ∧ join (js " ") (map text chunks)
      = trim (collapseSpaces (join [LF] (bodyLines (normalize sectionedText))))
    ∧ sum_list (map (fun c => countWords (text c)) chunks)
      = sum_list (map countWords (bodyLines (normalize sectionedText))).
Proof.
  apply (chunkText_structural_body sectionedText OptionsOmitted); reflexivity.
Defined.

End ChunkerLaws.

(* ===================================================================== *)
(** ** Properties of the text parser                                     *)
(* ===================================================================== *)

Module TextParserProps.
Import JS Chunker Words Notions TextParser Invariants StringFacts ChunkerProps ChunkerLaws.

Example cleanText_sample :
  cleanText ([BOM] ++ js "  Title " ++ [CR; LF; CR; LF; CR; LF; TAB]
             ++ js "two   words  " ++ [CR] ++ js " end ")
  = js "Title" ++ [LF; LF] ++ js "two words" ++ [LF] ++ js "end".
Proof. vm_compute. reflexivity. Qed.

Example getFileType_samples :
  map (fun n => getFileType (js n))
      ["notes.txt"; "Paper.PDF"; "README.md"; "a.tar.gz"; "pdf"; "x.";
       "book.Markdown"; ""]
  = [Txt; Pdf; Txt; Unknown; Pdf; Unknown; Txt; Unknown].
Proof. vm_compute. reflexivity. Qed.


(** *** [cleanText] keeps the words *)

Lemma tok_cons_space c s : isSpace c = true → tok (c :: s) = ([], words s).
Proof. intros H. cbn [tok]. unfold words. destruct (tok s). by rewrite H. Qed.

Lemma words_of_tok s : words s = push (fst (tok s)) (snd (tok s)).
Proof. unfold words. by destruct (tok s). Qed.

Lemma words_cons_tok c s s' : tok s = tok s' → words (c :: s) = words (c :: s').
Proof. intros H. unfold words. cbn [tok]. by rewrite H. Qed.

Lemma tok_cons_tok c s s' : tok s = tok s' → tok (c :: s) = tok (c :: s').
Proof. intros H. cbn [tok]. by rewrite H. Qed.

Lemma tok_replaceUnit a b s : isSpace a = true → isSpace b = true →
  tok (replaceUnit a b s) = tok s.
Proof.
  intros Ha Hb. induction s as [|c s IH]; [done|].
  cbn [replaceUnit map]. fold (replaceUnit a b s).
  destruct (N.eqb_spec c a) as [->|Hne].
  - rewrite !tok_cons_space by done. by rewrite !words_of_tok, IH.
  - by apply tok_cons_tok.
Qed.

Lemma isSpace_SP : isSpace SP = true. Proof. done. Qed.
Lemma isSpace_TAB : isSpace TAB = true. Proof. done. Qed.
Lemma isSpace_BOM : isSpace BOM = true. Proof. done. Qed.

Lemma isLineTerminator_isSpace c : isLineTerminator c = true → isSpace c = true.
Proof. unfold isSpace. intros ->. apply orb_true_r. Qed.

Lemma squeezeNewlines_tok s : ∀ run,
  words (squeezeNewlines_from run s) = words s
  ∧ (run < 2 → tok (squeezeNewlines_from run s) = tok s).
Proof.
  induction s as [|c s IH]; intros run; [done|].
  cbn [squeezeNewlines_from]. destruct (N.eqb_spec c LF) as [->|Hne].
  - destruct (Nat.ltb_spec run 2) as [Hr|Hr].
    + destruct (IH (S run)) as [Hw _].
      rewrite !tok_cons_space, !words_cons_space, Hw by done. done.
    + destruct (IH (S run)) as [Hw _].
      rewrite words_cons_space by done. split; [done|lia].
  - destruct (IH 0) as [_ Ht]. specialize (Ht ltac:(lia)).
    split; [by apply words_cons_tok|]. intros _. by apply tok_cons_tok.
Qed.

Lemma collapseBlanks_tok s : ∀ inRun,
  words (collapseBlanks_from inRun s) = words s
  ∧ (inRun = false → tok (collapseBlanks_from inRun s) = tok s).
Proof.
  induction s as [|c s IH]; intros inRun; [done|].
  cbn [collapseBlanks_from]. destruct (N.eqb_spec c SP) as [->|Hne].
  - destruct (IH true) as [Hw _]. destruct inRun.
    + rewrite words_cons_space by done. done.
    + rewrite !tok_cons_space, !words_cons_space, Hw by done. done.
  - destruct (IH false) as [_ Ht]. specialize (Ht eq_refl).
    split; [by apply words_cons_tok|]. intros _. by apply tok_cons_tok.
Qed.

Lemma stripLineStarts_tok s : ∀ atStart,
  words (stripLineStarts_from atStart s) = words s
  ∧ (atStart = false → tok (stripLineStarts_from atStart s) = tok s).
Proof.
  induction s as [|c s IH]; intros atStart; [done|].
  cbn [stripLineStarts_from].
  destruct (atStart && (c =? SP)%N) eqn:E.
  - apply andb_true_iff in E as [-> ->%N.eqb_eq].
    destruct (IH true) as [Hw _].
    rewrite words_cons_space by done. done.
  - destruct (isLineTerminator c) eqn:El.
    + destruct (IH true) as [Hw _].
      pose proof (isLineTerminator_isSpace _ El) as Hs.
      rewrite !tok_cons_space, !words_cons_space, Hw by done. done.
    + destruct (IH false) as [_ Ht]. specialize (Ht eq_refl).
      split; [by apply words_cons_tok|]. intros _. by apply tok_cons_tok.
Qed.

Lemma atLineEnd_tok s : atLineEnd (dropBlanks s) = true → fst (tok s) = [].
Proof.
  destruct s as [|d s]; [done|]. cbn [dropBlanks].
  destruct (N.eqb_spec d SP) as [->|Hne].
  - intros _. by rewrite tok_cons_space.
  - cbn [atLineEnd]. intros H%isLineTerminator_isSpace.
    by rewrite tok_cons_space.
Qed.

Lemma stripLineEnds_tok s : tok (stripLineEnds s) = tok s.
Proof.
  induction s as [|c s IH]; [done|]. cbn [stripLineEnds].
  destruct ((c =? SP)%N && atLineEnd (dropBlanks s)) eqn:E.
  - apply andb_true_iff in E as [->%N.eqb_eq H%atLineEnd_tok].
    rewrite tok_cons_space, words_of_tok, H, IH by done.
    destruct (tok s) as [w ws]. simpl in H. subst w. done.
  - by apply tok_cons_tok.
Qed.

Lemma words_stripBOM s : words (stripBOM s) = words s.
Proof.
  destruct s as [|c s]; [done|]. cbn [stripBOM].
  destruct (N.eqb_spec c BOM) as [->|Hne]; [|done].
  by rewrite words_cons_space.
Qed.

Lemma words_of_tok_eq s s' : tok s = tok s' → words s = words s'.
Proof. intros H. by rewrite !words_of_tok, H. Qed.

Lemma words_cleanText t : words (cleanText t) = words t.
Proof.
  unfold cleanText. rewrite words_trim, words_stripBOM.
  rewrite (words_of_tok_eq _ _ (stripLineEnds_tok _)).
  unfold stripLineStarts. rewrite (proj1 (stripLineStarts_tok _ _)).
  unfold collapseBlanks. rewrite (proj1 (collapseBlanks_tok _ _)).
  rewrite (words_of_tok_eq _ _ (tok_replaceUnit TAB SP _ isSpace_TAB isSpace_SP)).
  unfold squeezeNewlines. rewrite (proj1 (squeezeNewlines_tok _ _)).
  rewrite (words_of_tok_eq _ _ (tok_replaceUnit CR LF _ isSpace_CR isSpace_LF)).
  apply words_replaceCRLF.
Qed.

(** *** What is left of the control characters *)

Section Kept.
Variable P : N → bool.

Lemma forallb_squeezeNewlines s : ∀ run,
  forallb P s = true → forallb P (squeezeNewlines_from run s) = true.
Proof.
  induction s as [|c s IH]; intros run; [done|].
  cbn [forallb squeezeNewlines_from]. intros [Hc Hs]%andb_true_iff.
  destruct (N.eqb_spec c LF) as [->|Hne].
  - destruct (run <? 2); [|by apply IH]. cbn [forallb].
    by rewrite Hc, IH.
  - cbn [forallb]. by rewrite Hc, IH.
Qed.

Lemma forallb_collapseBlanks s : ∀ inRun,
  forallb P s = true → forallb P (collapseBlanks_from inRun s) = true.
Proof.
  induction s as [|c s IH]; intros inRun; [done|].
  cbn [forallb collapseBlanks_from]. intros [Hc Hs]%andb_true_iff.
  destruct (N.eqb_spec c SP) as [->|Hne].
  - destruct inRun; [by apply IH|]. cbn [forallb]. by rewrite Hc, IH.
  - cbn [forallb]. by rewrite Hc, IH.
Qed.

Lemma forallb_stripLineStarts s : ∀ atStart,
  forallb P s = true → forallb P (stripLineStarts_from atStart s) = true.
Proof.
  induction s as [|c s IH]; intros atStart; [done|].
  cbn [forallb stripLineStarts_from]. intros [Hc Hs]%andb_true_iff.
  destruct (atStart && (c =? SP)%N); [by apply IH|].
  cbn [forallb]. by rewrite Hc, IH.
Qed.

Lemma forallb_stripLineEnds s :
  forallb P s = true → forallb P (stripLineEnds s) = true.
Proof.
  induction s as [|c s IH]; [done|].
  cbn [forallb stripLineEnds]. intros [Hc Hs]%andb_true_iff.
  destruct ((c =? SP)%N && atLineEnd (dropBlanks s)); [by apply IH|].
  cbn [forallb]. by rewrite Hc, IH.
Qed.

Lemma forallb_stripBOM s : forallb P s = true → forallb P (stripBOM s) = true.
Proof.
  destruct s as [|c s]; [done|]. cbn [forallb stripBOM].
  intros [Hc Hs]%andb_true_iff. destruct (c =? BOM)%N; [done|].
  cbn [forallb]. by rewrite Hc.
Qed.

Lemma forallb_trim s : forallb P s = true → forallb P (trim s) = true.
Proof.
  destruct (trim_split s) as (x & y & _ & _ & Hs). intros H.
  rewrite Hs, !forallb_app in H.
  by apply andb_true_iff in H as [_ [? _]%andb_true_iff].
Qed.
End Kept.

Lemma plain_after_CR s :
  forallb (fun c => negb (c =? CR)%N) (replaceUnit CR LF s) = true.
Proof.
  apply forallb_forall. intros c Hin. unfold replaceUnit in Hin.
  apply in_map_iff in Hin as (d & <- & _).
  by destruct (N.eqb_spec d CR) as [->|Hne]; [|apply negb_true_iff, N.eqb_neq].
Qed.

Lemma plain_after_TAB s :
  forallb (fun c => negb (c =? CR)%N) s = true →
  forallb plainUnit (replaceUnit TAB SP s) = true.
Proof.
  rewrite !forallb_forall. intros H c Hin. unfold replaceUnit in Hin.
  apply in_map_iff in Hin as (d & <- & Hd). specialize (H d Hd).
  unfold plainUnit. destruct (N.eqb_spec d TAB) as [->|Hne]; [done|].
  apply negb_true_iff in H. rewrite H. by apply negb_true_iff, N.eqb_neq.
Qed.

Lemma plain_cleanText t : forallb plainUnit (cleanText t) = true.
Proof.
  unfold cleanText. apply forallb_trim, forallb_stripBOM, forallb_stripLineEnds,
    forallb_stripLineStarts, forallb_collapseBlanks, plain_after_TAB,
    forallb_squeezeNewlines, plain_after_CR.
Qed.

(** X11: [cleanText] of the text parser changes layout only: the words, and
    so the word count and the cleaned text the chunker works on, are those
    of the input; no carriage return and no tab is left; and without
    structural chunking the chunks of the cleaned text are the chunks of the
    raw text. *)
Theorem cleanText_keeps_words (t : jsstring) :
  countWords (cleanText t) = countWords t
  ∧ trim (collapseSpaces (cleanText t)) = trim (collapseSpaces t)
  ∧ forallb plainUnit (cleanText t) = true
  ∧ chunkText (JString (cleanText t)) (OptionsObject (JBool false))
    = chunkText (JString t) (OptionsObject (JBool false)).
Proof.
  split; [|split; [|split]].
  - by rewrite !countWords_words, words_cleanText.
  - by rewrite !trim_collapse, words_cleanText.
  - apply plain_cleanText.
  - cbn [chunkText]. f_equal. rewrite !chunkString_flat by done.
    by rewrite words_cleanText.
Qed.

(** *** [getFileType] *)

Lemma split_nonempty sep s : split sep s ≠ [].
Proof. destruct (split_cons_hd sep s) as (h & t & ->). done. Qed.

Lemma split_app_sep sep a b :
  split sep (a ++ sep :: b) = split sep a ++ split sep b.
Proof.
  induction a as [|c a IH]; cbn [app split].
  - by rewrite N.eqb_refl.
  - rewrite IH. destruct (c =? sep)%N; [done|].
    destruct (split_cons_hd sep a) as (h & t & ->). done.
Qed.

Lemma last_app_nonempty {A} (l1 l2 : list A) : l2 ≠ [] →
  last (l1 ++ l2) = last l2.
Proof.
  intros H. destruct l2 as [|x l2] using rev_ind; [done|].
  by rewrite app_assoc, !last_snoc.
Qed.

Lemma extension_after_dot base rest :
  extension (base ++ DOT :: rest) = extension rest.
Proof.
  unfold extension. rewrite split_app_sep, last_app_nonempty; [done|].
  apply split_nonempty.
Qed.

Lemma upperASCII_dot c : (upperASCII c =? DOT)%N = (c =? DOT)%N.
Proof.
  unfold upperASCII, isLowerAZ, DOT.
  destruct (N.leb_spec 97 c), (N.leb_spec c 122); cbn [andb]; try done.
  destruct (N.eqb_spec (c - 32) 46), (N.eqb_spec c 46); try done; lia.
Qed.

Lemma split_upper s :
  split DOT (map upperASCII s) = map (map upperASCII) (split DOT s).
Proof.
  induction s as [|c s IH]; [done|]. cbn [map split].
  rewrite upperASCII_dot, IH. destruct (c =? DOT)%N; [done|].
  destruct (split_cons_hd DOT s) as (h & t & ->). done.
Qed.

Lemma lowerUnit_upper c : lowerUnit (upperASCII c) = lowerUnit c.
Proof.
  unfold lowerUnit, upperASCII, isLowerAZ, isUpperAZ.
  destruct (N.leb_spec 97 c), (N.leb_spec c 122); cbn [andb]; try done.
  destruct (N.leb_spec 65 (c - 32)), (N.leb_spec (c - 32) 90);
    cbn [andb]; try lia.
  destruct (N.leb_spec 65 c), (N.leb_spec c 90); cbn [andb]; try lia.
  destruct (N.eqb_spec c 0x212A); [lia|].
  destruct (N.eqb_spec c 0x130); [lia|].
  f_equal. lia.
Qed.

Lemma toLowerCase_upper s : toLowerCase (map upperASCII s) = toLowerCase s.
Proof.
  induction s as [|c s IH]; [done|]. cbn [map]. unfold toLowerCase in *.
  cbn [flat_map]. by rewrite lowerUnit_upper, IH.
Qed.

Lemma last_map {A B} (f : A → B) l : last (map f l) = f <$> last l.
Proof. apply fmap_last. Qed.

(** X12: [getFileType] reads the type off what follows the last dot of
    the name: whatever precedes a dot is irrelevant, upper-casing the Basic
    Latin letters of the name changes nothing, and a name that ends in a dot
    is of unknown type. *)
Theorem getFileType_extension (base rest name : jsstring) :
  getFileType (base ++ DOT :: rest) = getFileType rest
  ∧ getFileType (map upperASCII name) = getFileType name
  ∧ getFileType (base ++ [DOT]) = Unknown.
Proof.
  split; [|split].
  - unfold getFileType. by rewrite extension_after_dot.
  - unfold getFileType, extension. rewrite split_upper, last_map.
    destruct (last (split DOT name)) as [e|]; [|done].
    cbn [fmap option_fmap option_map]. by rewrite toLowerCase_upper.
  - unfold getFileType. by rewrite extension_after_dot.
Qed.

End TextParserProps.

(* ===================================================================== *)
(** ** Properties of the PDF text cleaner                                *)
(* ===================================================================== *)

Module PdfTextProps.
Import JS Chunker Words Notions TextParser PdfText Invariants StringFacts ChunkerProps ChunkerLaws TextParserProps.

Example pdf_cleanText_sample :
  PdfText.cleanText (js "  An exam-" ++ [LF] ++ js "ple   of" ++ [FF]
                     ++ js " text" ++ [LF; LF; LF; LF; LF] ++ js "# End ")
  = js "An example of" ++ [LF; LF] ++ js " text" ++ [LF; LF] ++ js "# End".
Proof. vm_compute. reflexivity. Qed.

Lemma capNewlines_tok s : ∀ run,
  words (capNewlines_from run s) = words s
  ∧ (run < 3 → tok (capNewlines_from run s) = tok s).
Proof.
  induction s as [|c s IH]; intros run; [done|].
  cbn [capNewlines_from]. destruct (N.eqb_spec c LF) as [->|Hne].
  - destruct (Nat.ltb_spec run 3) as [Hr|Hr].
    + destruct (IH (S run)) as [Hw _].
      rewrite !tok_cons_space, !words_cons_space, Hw by done. done.
    + destruct (IH (S run)) as [Hw _].
      rewrite words_cons_space by done. split; [done|lia].
  - destruct (IH 0) as [_ Ht]. specialize (Ht ltac:(lia)).
    split; [by apply words_cons_tok|]. intros _. by apply tok_cons_tok.
Qed.

Lemma forallb_capNewlines (P : N → bool) s : ∀ run,
  forallb P s = true → forallb P (capNewlines_from run s) = true.
Proof.
  induction s as [|c s IH]; intros run; [done|].
  cbn [forallb capNewlines_from]. intros [Hc Hs]%andb_true_iff.
  destruct (N.eqb_spec c LF) as [->|Hne].
  - destruct (run <? 3); [|by apply IH]. cbn [forallb].
    by rewrite Hc, IH.
  - cbn [forallb]. by rewrite Hc, IH.
Qed.

Lemma tok_expandFormFeeds s : tok (expandFormFeeds s) = tok s.
Proof.
  induction s as [|c s IH]; [done|].
  unfold expandFormFeeds in *. cbn [flat_map].
  destruct (N.eqb_spec c FF) as [->|Hne].
  - cbn [app]. rewrite !tok_cons_space, words_cons_space by done.
    by rewrite !words_of_tok, IH.
  - cbn [app]. by apply tok_cons_tok.
Qed.

Lemma tightenHeadings_tok n : ∀ s, length s ≤ n →
  tok (tightenHeadings s) = tok s.
Proof.
  induction n as [|n IH]; intros s Hn.
  - destruct s; [done|simpl in Hn; lia].
  - destruct s as [|c t]; [done|]. simpl in Hn.
    assert (Hd : tok (c :: tightenHeadings t) = tok (c :: t))
      by (apply tok_cons_tok, IH; lia).
    destruct t as [|c2 [|c3 [|c4 [|c5 s']]]]; try exact Hd.
    cbn [tightenHeadings].
    destruct ((c =? LF)%N && (c2 =? LF)%N && (c3 =? LF)%N && (c4 =? HASH)%N
              && (c5 =? SP)%N) eqn:E; [|exact Hd].
    repeat (apply andb_true_iff in E as [E ?]).
    apply N.eqb_eq in E as ->.
    repeat match goal with H : (_ =? _)%N = true |- _ =>
      apply N.eqb_eq in H as -> end.
    rewrite (tok_cons_space LF (LF :: LF :: _)) by done.
    rewrite (tok_cons_space LF (LF :: HASH :: _)) by done.
    rewrite !(words_cons_space LF) by done. f_equal.
    apply words_cons_tok, tok_cons_tok, IH. simpl in Hn. lia.
Qed.

Lemma joinHyphenated_id n : ∀ s, length s ≤ n →
  forallb (fun c => negb (c =? HYPHEN)%N) s = true → joinHyphenated s = s.
Proof.
  induction n as [|n IH]; intros s Hn Hs.
  - destruct s; [done|simpl in Hn; lia].
  - destruct s as [|c t]; [done|]. simpl in Hn.
    cbn [forallb] in Hs. apply andb_true_iff in Hs as [Hc Ht].
    apply negb_true_iff in Hc.
    assert (Hd : c :: joinHyphenated t = c :: t)
      by (f_equal; apply IH; [lia|done]).
    destruct t as [|d [|x s']]; try exact Hd.
    cbn [joinHyphenated]. rewrite Hc. exact Hd.
Qed.

Lemma joinHyphenated_count n : ∀ s, length s ≤ n →
  length (snd (tok (joinHyphenated s))) ≤ length (snd (tok s))
  ∧ length (words (joinHyphenated s)) ≤ length (words s).
Proof.
  induction n as [|n IH]; intros s Hn.
  - destruct s; [done|simpl in Hn; lia].
  - destruct s as [|c t]; [done|]. simpl in Hn.
    assert (Hd : length (snd (tok (c :: joinHyphenated t)))
                 ≤ length (snd (tok (c :: t)))
                 ∧ length (words (c :: joinHyphenated t))
                   ≤ length (words (c :: t))).
    { destruct (IH t ltac:(lia)) as [H1 H2].
      destruct (isSpace c) eqn:Ec.
      - rewrite !tok_cons_space, !words_cons_space by done. done.
      - rewrite !words_cons_solid by done. cbn [tok].
        destruct (tok (joinHyphenated t)) as [w' ws'].
        destruct (tok t) as [w ws]. rewrite Ec. simpl in *. lia. }
    destruct t as [|d [|x s']]; try exact Hd.
    cbn [joinHyphenated].
    destruct ((c =? HYPHEN)%N && (d =? LF)%N && negb (isSpace x)) eqn:E;
      [|exact Hd].
    apply andb_true_iff in E as [[->%N.eqb_eq ->%N.eqb_eq]%andb_true_iff Hx].
    apply negb_true_iff in Hx.
    destruct (IH s' ltac:(simpl in Hn; lia)) as [H1 H2].
    rewrite (words_cons_solid HYPHEN) by done.
    rewrite (tok_cons_space LF) by done.
    rewrite !(words_cons_solid x) by done.
    cbn [tok]. rewrite Hx.
    destruct (tok (joinHyphenated s')) as [w' ws'].
    destruct (tok s') as [w ws]. change (isSpace HYPHEN) with false.
    simpl in *. lia.
Qed.

Lemma forallb_expandFormFeeds s :
  forallb (fun c => negb (c =? FF)%N) (expandFormFeeds s) = true.
Proof.
  induction s as [|c s IH]; [done|]. unfold expandFormFeeds in *.
  cbn [flat_map]. rewrite forallb_app, IH, andb_true_r.
  destruct (N.eqb_spec c FF) as [->|Hne]; [done|].
  cbn. rewrite andb_true_r. by apply negb_true_iff, N.eqb_neq.
Qed.

Lemma forallb_tightenHeadings (P : N → bool) n : ∀ s, length s ≤ n →
  forallb P s = true → forallb P (tightenHeadings s) = true.
Proof.
  induction n as [|n IH]; intros s Hn Hs.
  - destruct s; [done|simpl in Hn; lia].
  - destruct s as [|c t]; [done|]. simpl in Hn.
    cbn [forallb] in Hs. apply andb_true_iff in Hs as [Hc Ht].
    assert (Hd : forallb P (c :: tightenHeadings t) = true)
      by (cbn [forallb]; rewrite Hc; apply IH; [lia|done]).
    destruct t as [|c2 [|c3 [|c4 [|c5 s']]]]; try exact Hd.
    cbn [tightenHeadings].
    destruct ((c =? LF)%N && (c2 =? LF)%N && (c3 =? LF)%N && (c4 =? HASH)%N
              && (c5 =? SP)%N) eqn:E; [|exact Hd].
    repeat (apply andb_true_iff in E as [E ?]).
    apply N.eqb_eq in E as ->.
    repeat match goal with H : (_ =? _)%N = true |- _ =>
      apply N.eqb_eq in H as -> end.
    cbn [forallb] in Ht |- *.
    repeat (apply andb_true_iff in Ht as [? Ht]).
    rewrite Hc. repeat (apply andb_true_iff; split; try done).
    apply IH; [simpl in Hn; lia|done].
Qed.

(** X30: [cleanText] of the PDF text extractor never adds a word (joining a
    hyphenated line break can only merge two words), leaves no form feed,
    and on a text without any hyphen it changes layout only: the cleaned
    text the chunker works on is that of the input. *)
Theorem pdf_cleanText_words (t : jsstring) :
  countWords (PdfText.cleanText t) ≤ countWords t
  ∧ forallb (fun c => negb (c =? FF)%N) (PdfText.cleanText t) = true
  ∧ (hyphenFree t = true →
     trim (collapseSpaces (PdfText.cleanText t)) = trim (collapseSpaces t)).
Proof.
  assert (Hpre : words (stripLineStarts (collapseBlanks (capNewlines t)))
                 = words t).
  { unfold stripLineStarts. rewrite (proj1 (stripLineStarts_tok _ _)).
    unfold collapseBlanks. rewrite (proj1 (collapseBlanks_tok _ _)).
    unfold capNewlines. apply (proj1 (capNewlines_tok _ _)). }
  assert (Hpost : ∀ u, words (trim (tightenHeadings (expandFormFeeds u)))
                       = words u).
  { intros u. rewrite words_trim.
    rewrite (words_of_tok_eq _ _ (tightenHeadings_tok _ _ (Nat.le_refl _))).
    apply words_of_tok_eq, tok_expandFormFeeds. }
  split; [|split].
  - unfold PdfText.cleanText. rewrite !countWords_words, Hpost, <- Hpre.
    apply (joinHyphenated_count _ _ (Nat.le_refl _)).
  - unfold PdfText.cleanText. apply forallb_trim.
    apply (forallb_tightenHeadings _ _ _ (Nat.le_refl _)).
    apply forallb_expandFormFeeds.
  - intros Hh. rewrite !trim_collapse. f_equal.
    unfold PdfText.cleanText. rewrite Hpost.
    rewrite (joinHyphenated_id _ _ (Nat.le_refl _)); [done|].
    apply forallb_stripLineStarts, forallb_collapseBlanks, forallb_capNewlines.
    exact Hh.
Qed.

End PdfTextProps.


(* ===================================================================== *)
(** ** Further properties of the heading heuristic                       *)
(* ===================================================================== *)

Module HeadingProps.
Import JS Chunker PdfParser Words Notions Invariants StringFacts ChunkerProps DbProps.

Lemma classMatch_icase x d : lowerASCII d = x →
  classMatch true (N.eqb x) d = true.
Proof.
  intros <-. unfold classMatch. rewrite N.eqb_refl. apply orb_true_r.
Qed.

Lemma run_literal_icase ml pre : ∀ s' b c k,
  run true ml (Seqs (map Chr (map lowerASCII pre))) (MState b (pre ++ s') c) k
  = k (MState (rev pre ++ b) s' c).
Proof.
  induction pre as [|d pre IH]; intros s' b c k; [done|].
  assert (Hc : ∀ k', run true ml (Chr (lowerASCII d))
                         (MState b ((d :: pre) ++ s') c) k'
                     = k' (MState (d :: b) (pre ++ s') c)).
  { intros k'. cbn [run Chr rest app]. by rewrite classMatch_icase. }
  destruct pre as [|d' pre].
  - change (Seqs (map Chr (map lowerASCII [d]))) with (Chr (lowerASCII d)).
    by rewrite Hc.
  - change (Seqs (map Chr (map lowerASCII (d :: d' :: pre))))
      with (Seq (Chr (lowerASCII d))
                (Seqs (map Chr (map lowerASCII (d' :: pre))))).
    change (run true ml (Seq ?a ?b0) ?st k)
      with (run true ml a st (fun st' => run true ml b0 st' k)).
    rewrite Hc, IH. f_equal. f_equal. cbn [rev]. by rewrite <- !app_assoc.
Qed.

Lemma run_Lit_icase ml kw line b c k :
  map lowerASCII (take (length (js kw)) line) = js kw →
  run true ml (Lit kw) (MState b line c) k
  = k (MState (rev (take (length (js kw)) line) ++ b)
              (drop (length (js kw)) line) c).
Proof.
  intros H. unfold Lit. rewrite <- H at 1.
  rewrite <- (take_drop (length (js kw)) line) at 2.
  apply run_literal_icase.
Qed.

Lemma keywordPattern_matches line :
  startsWithKeyword line = true → matches true false keywordPattern line = true.
Proof.
  unfold startsWithKeyword. intros (kw & Hin & Hkw)%existsb_exists.
  apply streq_true in Hkw.
  change keywordPattern
    with (Seq Bol (Group 1 (Alts (map Lit (removelast headingKeywords)
             ++ [Seq (Lit "acknowledgment") (Opt (Chr 115))])))).
  rewrite matches_bol.
  change (run true false (Group 1 ?a) ?st Some)
    with (run true false a st (fun st' => Some (capture 1 st st'))).
  match goal with |- match ?o with _ => _ end = true =>
    change (succeeds o = true) end.
  rewrite run_Alts by done. apply existsb_exists.
  unfold headingKeywords in Hin. cbn [In] in Hin.
  do 11 (destruct Hin as [<-|Hin];
    [match type of Hkw with _ = js ?k => exists (Lit k) end; split;
       [cbn [removelast headingKeywords map app In];
        repeat (first [left; reflexivity | right])
       | rewrite run_Lit_icase by done; reflexivity]
    |]).
  destruct Hin as [<-|[]].
  exists (Seq (Lit "acknowledgment") (Opt (Chr 115))). split.
  - cbn [removelast headingKeywords map app In]. do 11 right. by left.
  - change (run true false (Seq ?a ?b0) ?st ?k)
      with (run true false a st (fun st' => run true false b0 st' k)).
    rewrite run_Lit_icase by done. unfold Opt, Chr. cbn [run rest].
    destruct (drop (length (js "acknowledgment")) line) as [|e s']; [done|].
    by destruct (classMatch true (N.eqb 115) e).
Qed.

Lemma keyword_length line : startsWithKeyword line = true → 7 ≤ length line.
Proof.
  unfold startsWithKeyword. intros (kw & Hin & Hkw)%existsb_exists.
  apply streq_true in Hkw. apply (f_equal (@length _)) in Hkw.
  rewrite length_map, length_take in Hkw.
  assert (7 ≤ length (js kw)); [|lia].
  unfold headingKeywords in Hin. cbn [In] in Hin.
  repeat (destruct Hin as [<-|Hin]; [vm_compute; lia|]). done.
Qed.

(** X13: a line whose trimmed text starts with the letters of one of the
    twelve heading keywords, in any mix of cases, is a heading, whatever
    follows the keyword. *)
Theorem detectHeadingPattern_keyword (line : jsstring) :
  startsWithKeyword (trim line) = true → detectHeadingPattern line = true.
Proof.
  intros H. unfold detectHeadingPattern. cbv zeta.
  pose proof (keyword_length _ H) as Hlen.
  destruct (Nat.ltb_spec (length (trim line)) 2) as [?|_]; [lia|].
  rewrite (keywordPattern_matches _ H).
  repeat match goal with |- (if ?b then true else _) = true =>
    destruct b; [reflexivity|] end.
  reflexivity.
Qed.

(** *** Lines in capitals *)

Lemma splitSpaces_from_solid b c s : isSpace c = false →
  splitSpaces_from b (c :: s) = splitSpaces_from false (c :: s).
Proof. intros H. cbn [splitSpaces_from]. by rewrite H. Qed.

Lemma splitSpaces_app_free w r b : spaceFree w = true → w ≠ [] →
  splitSpaces_from b (w ++ r)
  = (w ++ hd [] (splitSpaces_from false r)) :: tl (splitSpaces_from false r).
Proof.
  revert b. induction w as [|c w IH]; intros b Hw Hne; [done|].
  cbn [spaceFree forallb] in Hw. apply andb_true_iff in Hw as [Hc Hw].
  apply negb_true_iff in Hc. cbn [app splitSpaces_from]. rewrite Hc.
  destruct w as [|d w].
  - cbn [app]. by destruct (splitSpaces_from false r).
  - rewrite IH by done. done.
Qed.

Lemma splitSpaces_from_nonempty b s : splitSpaces_from b s ≠ [].
Proof.
  revert b. induction s as [|c s IH]; intros b; [done|].
  cbn [splitSpaces_from]. destruct (isSpace c).
  - destruct b; [apply IH|done].
  - by destruct (splitSpaces_from false s).
Qed.

Lemma splitSpaces_unwords ws : solidAll ws → ws ≠ [] →
  splitSpaces (unwords ws) = ws.
Proof.
  unfold splitSpaces. induction 1 as [|w ws Hw Hws IH]; intros Hnil; [done|].
  clear Hnil.
  apply solid_inv in Hw as [Hne Hf].
  destruct ws as [|w' ws].
  - rewrite unwords_one, <- (app_nil_r w), splitSpaces_app_free by done.
    reflexivity.
  - rewrite unwords_cons, splitSpaces_app_free by done.
    cbn [splitSpaces_from hd tl]. change (isSpace SP) with true. cbn iota. rewrite app_nil_r.
    f_equal. specialize (IH ltac:(done)).
    apply Forall_inv in Hws. apply solid_head in Hws as (c & Hc & Hs).
    destruct (unwords (w' :: ws)) as [|c' u] eqn:E.
    + apply (f_equal head) in E. rewrite head_unwords in E.
      * rewrite Hc in E. done.
      * intros ->. done.
    + assert (c' = c) as ->.
      { apply (f_equal head) in E. rewrite head_unwords in E.
        - rewrite Hc in E. by injection E.
        - intros ->. done. }
      by rewrite splitSpaces_from_solid.
Qed.

Lemma execFrom_class (p : N → bool) s : ∀ bef,
  succeeds (execFrom false false (Cls p) bef s) = existsb p s.
Proof.
  induction s as [|c s IH]; intros bef; [done|].
  cbn [execFrom run rest existsb]. unfold classMatch.
  destruct (p c); [done|]. apply IH.
Qed.

Lemma toUpperCase_caps w :
  forallb (fun c => (c <? 128)%N && negb (isLowerAZ c)) w = true →
  toUpperCase w = w.
Proof.
  unfold toUpperCase. induction w as [|c w IH]; [done|].
  cbn [forallb map]. intros [[_ Hc]%andb_true_iff Hw]%andb_true_iff.
  apply negb_true_iff in Hc. unfold upperASCII at 1. rewrite Hc.
  f_equal. by apply IH.
Qed.

Lemma isCapsWord_capsWord w : capsWord w = true → isCapsWord w = true.
Proof.
  unfold capsWord, isCapsWord.
  intros [[_ Hn]%andb_true_iff He]%andb_true_iff.
  rewrite toUpperCase_caps by done. apply andb_true_iff. split.
  - by apply streq_true.
  - unfold matches, exec, UpperAZ.
    pose proof (execFrom_class isUpperAZ w []) as H. rewrite He in H.
    by destruct (execFrom _ _ _ _ _).
Qed.

Lemma capsWord_solid ws : forallb capsWord ws = true → solidAll ws.
Proof.
  rewrite forallb_forall, List.Forall_forall. intros H w Hw.
  specialize (H w Hw). unfold capsWord in H.
  by apply andb_true_iff in H as [[? _]%andb_true_iff _].
Qed.

(** X14: two to eight words of Basic Latin separated by single spaces,
    each with an upper-case letter and none with a lower-case letter, are a
    heading. *)
Theorem detectHeadingPattern_all_caps (ws : list jsstring) :
  forallb capsWord ws = true → 2 ≤ length ws → length ws ≤ 8 →
  detectHeadingPattern (unwords ws) = true.
Proof.
  intros Hc H2 H8. pose proof (capsWord_solid _ Hc) as Hs.
  assert (Hne : ws ≠ []) by (intros ->; simpl in H2; lia).
  unfold detectHeadingPattern. cbv zeta. rewrite trim_unwords by done.
  assert (Hlen : 2 ≤ length (unwords ws)).
  { destruct ws as [|w [|w' ws]]; [done|simpl in H2; lia|].
    apply Forall_cons in Hs as [Hw Hs]. apply Forall_cons in Hs as [Hw' _].
    apply solid_inv in Hw as [Hw _], Hw' as [Hw' _].
    rewrite unwords_cons, length_app. cbn [length].
    destruct w; [done|]. simpl. lia. }
  destruct (Nat.ltb_spec (length (unwords ws)) 2) as [?|_]; [lia|].
  rewrite splitSpaces_unwords by done.
  assert (Hcaps : forallb isCapsWord ws = true).
  { apply forallb_forall. intros w Hw. apply isCapsWord_capsWord.
    rewrite forallb_forall in Hc. by apply Hc. }
  rewrite Hcaps, andb_true_r.
  destruct (Nat.leb_spec 2 (length ws)) as [_|?]; [|lia].
  destruct (Nat.leb_spec (length ws) 8) as [_|?]; [|lia].
  cbn [andb].
  repeat match goal with |- (if ?b then true else _) = true =>
    destruct b; [reflexivity|] end.
  reflexivity.
Qed.

(** X13, instance: a sentence that starts with a keyword. *)
Lemma detectHeadingPattern_keyword_witness :
  detectHeadingPattern (js "  Results were mixed in most wards.") = true.
Proof. apply detectHeadingPattern_keyword. reflexivity. Defined.

(** X14, instance: three words in capitals. *)
Lemma detectHeadingPattern_all_caps_witness :
  detectHeadingPattern (unwords [js "WARD"; js "B-7:"; js "NOTES"])
  = true.
Proof.
  apply (detectHeadingPattern_all_caps [js "WARD"; js "B-7:"; js "NOTES"]).
  - reflexivity.
  - simpl. lia.
  - simpl. lia.
Defined.

End HeadingProps.

(* ===================================================================== *)
(** ** Further properties of the store                                   *)
(* ===================================================================== *)

Module StoreProps.
Import JS Chunker Db Notions Invariants DbProps.

(** *** Documents and progress: what is written is what is read *)

Lemma db_eq s1 s2 :
  documents s1 = documents s2 → bookmarks s1 = bookmarks s2 →
  progresses s1 = progresses s2 → s1 = s2.
Proof. destruct s1, s2. simpl. by intros -> -> ->. Qed.

(** X15: [saveDocument] stores the document it returns under the
    identifier it returns, with the chunks it was given and their number as
    [totalChunks]; the other documents, the bookmarks and the progress
    records are untouched. *)
Theorem saveDocument_getDocument (uuid now : jsstring) (doc : documentInput)
  (s : db) :
  let s' := fst (saveDocument uuid now doc s) in
  let d := snd (saveDocument uuid now doc s) in
  getDocument (doc_id d) s' = Some d
  ∧ doc_chunks d = din_chunks doc
  ∧ doc_totalChunks d = length (din_chunks doc)
  ∧ (∀ id, id ≠ doc_id d → getDocument id s' = getDocument id s)
  ∧ bookmarks s' = bookmarks s
  ∧ progresses s' = progresses s.
Proof.
  unfold saveDocument, getDocument. cbn.
  split; [apply lookup_insert_eq|]. split; [done|]. split; [done|].
  split; [|done]. intros id Hne. by apply lookup_insert_ne.
Qed.

(** X16: [getProgress] returns what the last [saveProgress] of the document
    wrote; a second [saveProgress] of the same document overwrites the first;
    the progress of the other documents, the documents and the bookmarks are
    untouched. *)
Theorem saveProgress_getProgress (now1 now2 documentId : jsstring)
  (i1 i2 : Z) (s : db) :
  getProgress documentId (saveProgress now1 documentId i1 s)
  = Some (Progress documentId i1 now1)
  ∧ saveProgress now2 documentId i2 (saveProgress now1 documentId i1 s)
    = saveProgress now2 documentId i2 s
  ∧ (∀ other, other ≠ documentId →
       getProgress other (saveProgress now1 documentId i1 s)
       = getProgress other s)
  ∧ documents (saveProgress now1 documentId i1 s) = documents s
  ∧ bookmarks (saveProgress now1 documentId i1 s) = bookmarks s.
Proof.
  unfold saveProgress, getProgress, putProgress. cbn.
  split; [apply lookup_insert_eq|]. split; [|split; [|done]].
  - f_equal. apply insert_insert_eq.
  - intros other Hne. by apply lookup_insert_ne.
Qed.

(** *** [toggleBookmark] *)

Lemma ofPair_true d i b :
  ofPair d i b = true ↔ bm_documentId b = d ∧ bm_chunkIndex b = i.
Proof. unfold ofPair. by rewrite andb_true_iff, streq_true, Z.eqb_eq. Qed.

Lemma find_chunk_Some d i s :
  isChunkBookmarked d i s = true →
  ∃ b, List.find (fun b => (bm_chunkIndex b =? i)%Z)
                 (getBookmarksByDocument d s) = Some b
       ∧ ofPair d i b = true ∧ ∃ k, bookmarks s !! k = Some b.
Proof.
  unfold isChunkBookmarked. intros H.
  destruct (List.find _ _) as [b|] eqn:E.
  - exists b. split; [done|]. apply find_some in E as [Hin Hi].
    apply list_elem_of_In, getBookmarksByDocument_elem in Hin as [Hd Hk].
    split; [|done]. apply ofPair_true. split; [done|]. by apply Z.eqb_eq.
  - apply existsb_exists in H as (b & Hb & Hi).
    apply (find_none _ _ E) in Hb. congruence.
Qed.

Lemma isChunkBookmarked_putBookmark b s :
  isChunkBookmarked (bm_documentId b) (bm_chunkIndex b) (putBookmark b s)
  = true.
Proof.
  apply isChunkBookmarked_true. exists (bm_id b), b. split; [|done].
  cbn. apply lookup_insert_eq.
Qed.

(** X17: [toggleBookmark] reports [added] exactly when the chunk was not
    bookmarked before the call; when it adds, the chunk is bookmarked
    afterwards and the bookmark returned is the one stored under the fresh
    identifier; when it removes, it returns no bookmark; documents and
    progress records are untouched. *)
Theorem toggleBookmark_reports_state (uuid now documentId : jsstring)
  (chunkIndex : Z) (text : jsstring) (s : db) :
  let s' := fst (toggleBookmark uuid now documentId chunkIndex text s) in
  let r := snd (toggleBookmark uuid now documentId chunkIndex text s) in
  added r = negb (isChunkBookmarked documentId chunkIndex s)
  ∧ (added r = true →
       isChunkBookmarked documentId chunkIndex s' = true
       ∧ saved r = Some (Bookmark uuid documentId chunkIndex text now)
       ∧ bookmarks s' !! uuid
         = Some (Bookmark uuid documentId chunkIndex text now))
  ∧ (added r = false → saved r = None)
  ∧ documents s' = documents s
  ∧ progresses s' = progresses s.
Proof.
  cbv zeta. destruct (isChunkBookmarked documentId chunkIndex s) eqn:E.
  - destruct (find_chunk_Some _ _ _ E) as (b & Hf & _).
    unfold toggleBookmark. rewrite Hf. cbn. done.
  - unfold toggleBookmark. rewrite find_chunk_None by done.
    cbn [saveBookmark in_id in_documentId in_chunkIndex in_text fst snd
         added saved negb].
    split; [done|]. split; [|done]. intros _. split; [|split; [done|]].
    + apply (isChunkBookmarked_putBookmark
               (Bookmark uuid documentId chunkIndex text now)).
    + cbn. apply lookup_insert_eq.
Qed.

(** X18: on a store whose records are stored under their own keys, a
    [toggleBookmark] on a bookmarked chunk deletes exactly one record, a
    bookmark of that chunk of that document. *)
Theorem toggleBookmark_removes_one (uuid now documentId : jsstring)
  (chunkIndex : Z) (text : jsstring) (s : db) :
  keyed s = true → isChunkBookmarked documentId chunkIndex s = true →
  let s' := fst (toggleBookmark uuid now documentId chunkIndex text s) in
  ∃ k b,
    bookmarks s !! k = Some b ∧ ofPair documentId chunkIndex b = true
    ∧ bookmarks s' = delete k (bookmarks s)
    ∧ size (bookmarks s') + 1 = size (bookmarks s).
Proof.
  intros Hk E. pose proof (proj1 (keyed_spec s) Hk) as (_ & Kb & _).
  destruct (find_chunk_Some _ _ _ E) as (b & Hf & Hp & k & Hkb).
  cbv zeta. unfold toggleBookmark. rewrite Hf. cbn.
  exists k, b. rewrite (Kb k b Hkb). split; [done|]. split; [done|].
  split; [done|]. rewrite map_size_delete_Some by (by eexists).
  assert (size (bookmarks s) ≠ 0).
  { intros H0. apply map_size_empty_iff in H0. rewrite H0 in Hkb.
    by rewrite lookup_empty in Hkb. }
  lia.
Qed.

(** X19: on a store whose records are stored under their own keys, and
    with an identifier not yet in use, [toggleBookmark] leaves every bookmark
    of another chunk or another document in place. *)
Theorem toggleBookmark_frame (uuid now documentId : jsstring)
  (chunkIndex : Z) (text : jsstring) (s : db) :
  keyed s = true → freshKey uuid s = true →
  let s' := fst (toggleBookmark uuid now documentId chunkIndex text s) in
  ∀ k b, bookmarks s !! k = Some b → ofPair documentId chunkIndex b = false →
         bookmarks s' !! k = Some b.
Proof.
  intros Hk Hf. pose proof (proj1 (keyed_spec s) Hk) as (_ & Kb & _).
  apply bool_decide_eq_true in Hf. cbv zeta. intros k b Hkb Hnp.
  destruct (isChunkBookmarked documentId chunkIndex s) eqn:E.
  - destruct (find_chunk_Some _ _ _ E) as (b' & Hfind & Hp & k' & Hk').
    unfold toggleBookmark. rewrite Hfind. cbn.
    rewrite (Kb k' b' Hk'). rewrite lookup_delete_ne; [done|].
    intros ->. rewrite Hkb in Hk'. injection Hk' as <-. congruence.
  - unfold toggleBookmark. rewrite find_chunk_None by done. cbn.
    rewrite lookup_insert_ne; [done|]. intros ->. congruence.
Qed.

(** *** [deleteDocument] *)

Lemma deleteDocument_store id s : keyed s = true →
  deleteDocument id s
  = DB (delete id (documents s)) (withoutDocument id (bookmarks s))
       (delete id (progresses s)).
Proof.
  intros Hk. pose proof (proj1 (keyed_spec s) Hk) as (_ & Kb & _).
  unfold deleteDocument. cbv zeta.
  set (s1 := deleteFromDocuments id s).
  set (l := getBookmarksByDocument id s1).
  destruct (fold_delete_bookmarks l s1) as (H1 & H2 & H3).
  set (s2 := fold_left _ l s1) in *.
  apply db_eq; cbn [deleteFromProgress documents bookmarks progresses].
  - by rewrite H1.
  - apply map_eq. intros k. rewrite H3. unfold withoutDocument.
    change (bookmarks s1) with (bookmarks s).
    destruct (bookmarks s !! k) as [b|] eqn:Hkb.
    + destruct (decide (bm_documentId b = id)) as [Hd|Hd].
      * rewrite bool_decide_eq_true_2.
        -- symmetry. apply map_lookup_filter_None. right.
           intros b' Hb'. simpl. rewrite Hkb in Hb'. injection Hb' as <-. tauto.
        -- rewrite <- (Kb k b Hkb). apply list_elem_of_fmap. exists b.
           split; [done|]. apply getBookmarksByDocument_elem.
           split; [done|]. by exists k.
      * rewrite bool_decide_eq_false_2.
        -- symmetry. apply map_lookup_filter_Some. rewrite Hkb. by split.
        -- intros Hin. apply list_elem_of_fmap in Hin as (b' & -> & Hb').
           apply getBookmarksByDocument_elem in Hb' as [Hd' [k' Hk']].
           change (bookmarks s1) with (bookmarks s) in Hk'.
           rewrite (Kb k' b' Hk') in Hkb. congruence.
    + destruct (bool_decide _); symmetry; apply map_lookup_filter_None;
        by left.
  - by rewrite H2.
Qed.

Lemma keyed_deleteDocument id s :
  keyed s = true → keyed (deleteDocument id s) = true.
Proof.
  intros Hk. rewrite deleteDocument_store by done.
  pose proof (proj1 (keyed_spec s) Hk) as (Kd & Kb & Kp).
  apply keyed_spec. cbn. split; [|split].
  - intros k d [_ H]%lookup_delete_Some. by apply Kd.
  - intros k b [H _]%map_lookup_filter_Some. by apply Kb.
  - intros k p [_ H]%lookup_delete_Some. by apply Kp.
Qed.

(** X21: on a store whose records are stored under their own keys,
    [deleteDocument] leaves the other documents, the progress of the other
    documents and the bookmarks of the other documents in place, and adds no
    bookmark. *)
Theorem deleteDocument_frame (id : jsstring) (s : db) :
  keyed s = true →
  let s' := deleteDocument id s in
  (∀ other, other ≠ id → getDocument other s' = getDocument other s)
  ∧ (∀ other, other ≠ id → getProgress other s' = getProgress other s)
  ∧ (∀ k b, bookmarks s !! k = Some b → bm_documentId b ≠ id →
            bookmarks s' !! k = Some b)
  ∧ (∀ k b, bookmarks s' !! k = Some b → bookmarks s !! k = Some b).
Proof.
  intros Hk. cbv zeta. rewrite deleteDocument_store by done.
  unfold getDocument, getProgress, withoutDocument. cbn.
  split; [|split; [|split]].
  - intros other Hne. by apply lookup_delete_ne.
  - intros other Hne. by apply lookup_delete_ne.
  - intros k b Hkb Hd. apply map_lookup_filter_Some. by split.
  - intros k b [H _]%map_lookup_filter_Some. done.
Qed.

(** X22: on a store whose records are stored under their own keys,
    deleting a document a second time changes nothing. *)
Theorem deleteDocument_idempotent (id : jsstring) (s : db) :
  keyed s = true →
  deleteDocument id (deleteDocument id s) = deleteDocument id s.
Proof.
  intros Hk. rewrite (deleteDocument_store id (deleteDocument id s))
    by by apply keyed_deleteDocument.
  rewrite deleteDocument_store by done. cbn. unfold withoutDocument.
  apply db_eq; cbn.
  - apply delete_id, lookup_delete_eq.
  - apply map_filter_id. by intros k b [_ H]%map_lookup_filter_Some.
  - apply delete_id, lookup_delete_eq.
Qed.


(** *** The order of keys *)

Lemma keyLeb_refl a : keyLeb a a = true.
Proof. induction a as [|x a IH]; [done|]. cbn. by rewrite N.ltb_irrefl. Qed.

Lemma keyLeb_total a : ∀ b, keyLeb a b = true ∨ keyLeb b a = true.
Proof.
  induction a as [|x a IH]; intros [|y b]; cbn; auto.
  destruct (N.ltb_spec x y), (N.ltb_spec y x); auto; lia.
Qed.

Lemma keyLeb_antisym a : ∀ b,
  keyLeb a b = true → keyLeb b a = true → a = b.
Proof.
  induction a as [|x a IH]; intros [|y b]; cbn; try done.
  destruct (N.ltb_spec x y), (N.ltb_spec y x); try done; try lia.
  intros H1 H2. f_equal; [lia|]. by apply IH.
Qed.

Lemma keyLeb_trans a : ∀ b c,
  keyLeb a b = true → keyLeb b c = true → keyLeb a c = true.
Proof.
  induction a as [|x a IH]; intros [|y b] [|z c]; cbn; try done.
  destruct (x <? y)%N eqn:Exy, (y <? x)%N eqn:Eyx, (y <? z)%N eqn:Eyz,
    (z <? y)%N eqn:Ezy, (x <? z)%N eqn:Exz, (z <? x)%N eqn:Ezx;
    try done; try (exfalso; rewrite ?N.ltb_lt, ?N.ltb_ge in *; lia).
  apply IH.
Qed.

Lemma createdLeb_spec x y :
  createdLeb x y = true
  ↔ (doc_createdAt (snd x) = doc_createdAt (snd y)
     ∧ keyLeb (fst x) (fst y) = true)
    ∨ (doc_createdAt (snd x) ≠ doc_createdAt (snd y)
       ∧ keyLeb (doc_createdAt (snd x)) (doc_createdAt (snd y)) = true).
Proof.
  unfold createdLeb, streq. case_bool_decide; intuition congruence.
Qed.

Local Instance createdLe_total : Total createdLe.
Proof.
  intros x y. unfold createdLe. rewrite !createdLeb_spec.
  destruct (decide (doc_createdAt (snd x) = doc_createdAt (snd y))) as [E|E].
  - destruct (keyLeb_total (fst x) (fst y)); [left; left|right; left]; done.
  - destruct (keyLeb_total (doc_createdAt (snd x)) (doc_createdAt (snd y)));
      [left; right|right; right]; done.
Qed.

Local Instance createdLe_trans : Transitive createdLe.
Proof.
  intros x y z. unfold createdLe. rewrite !createdLeb_spec.
  intros [[E1 H1]|[E1 H1]] [[E2 H2]|[E2 H2]].
  - left. split; [congruence|]. by eapply keyLeb_trans.
  - right. split; [congruence|]. by rewrite E1.
  - right. split; [congruence|]. by rewrite <- E2.
  - right. split; [|by eapply keyLeb_trans].
    intros E. rewrite E in H1. by apply E2, keyLeb_antisym.
Qed.

Lemma createdLe_newer x y : createdLe x y →
  keyLeb (doc_createdAt (snd x)) (doc_createdAt (snd y)) = true.
Proof.
  unfold createdLe. rewrite createdLeb_spec. intros [[E _]|[_ H]]; [|done].
  rewrite E. apply keyLeb_refl.
Qed.

Lemma StronglySorted_map_rev {A B} (R : relation A) (R' : relation B)
  (f : A → B) (l : list A) :
  (∀ x y, R x y → R' (f y) (f x)) →
  StronglySorted R l → StronglySorted R' (rev (map f l)).
Proof.
  intros HR. induction 1 as [|x l Hl IH Hx]; cbn; [constructor|].
  apply StronglySorted_app_2; [|done|repeat constructor].
  intros b a Hb Ha. apply list_elem_of_singleton in Ha as ->.
  apply list_elem_of_In, in_rev, in_map_iff in Hb as (y & <- & Hy).
  apply HR. rewrite List.Forall_forall in Hx. by apply Hx.
Qed.

(** X23: [getAllDocuments] lists exactly the stored documents, each
    record once, ordered by [createdAt] from the most recent to the
    oldest. *)
Theorem getAllDocuments_newest_first (s : db) :
  StronglySorted newerFirst (getAllDocuments s)
  ∧ (∀ d, d ∈ getAllDocuments s ↔ ∃ k, documents s !! k = Some d)
  ∧ length (getAllDocuments s) = size (documents s).
Proof.
  unfold getAllDocuments. split; [|split].
  - apply (StronglySorted_map_rev createdLe).
    + intros x y H. by apply createdLe_newer.
    + apply StronglySorted_merge_sort; apply _.
  - intros d. rewrite list_elem_of_In, <- in_rev, <- list_elem_of_In.
    rewrite list_elem_of_fmap. split.
    + intros ([k d'] & -> & H). rewrite merge_sort_Permutation in H.
      apply elem_of_map_to_list in H. by exists k.
    + intros [k H]. exists (k, d). split; [done|].
      rewrite merge_sort_Permutation. by apply elem_of_map_to_list.
  - rewrite length_rev, length_map, merge_sort_Permutation.
    apply length_map_to_list.
Qed.

(** *** The stores stay keyed *)

Lemma keyed_putDocument d s : keyed s = true → keyed (putDocument d s) = true.
Proof.
  rewrite !keyed_spec. intros (Hd & Hb & Hp). split; [|done].
  intros k d'. cbn [putDocument documents].
  rewrite lookup_insert. case_decide as E; [by intros [= <-]|]. apply Hd.
Qed.

Lemma keyed_putProgress p s : keyed s = true → keyed (putProgress p s) = true.
Proof.
  rewrite !keyed_spec. intros (Hd & Hb & Hp). split; [done|]. split; [done|].
  intros k p'. cbn [putProgress progresses].
  rewrite lookup_insert. case_decide as E; [by intros [= <-]|]. apply Hp.
Qed.

Lemma keyed_perform s c : keyed s = true → keyed (perform s c) = true.
Proof.
  intros H. destruct c; cbn [perform].
  - by apply keyed_putDocument.
  - by apply keyed_deleteDocument.
  - by apply keyed_putBookmark.
  - by apply keyed_deleteFromBookmarks.
  - by apply keyed_toggleBookmark.
  - by apply keyed_putProgress.
Qed.

(** X24: after any sequence of calls of the module on a fresh database,
    every record of the three stores is stored under the key it holds. *)
Theorem history_keyed (calls : list call) : keyed (history calls) = true.
Proof.
  unfold history. generalize keyed_emptyDb. generalize emptyDb.
  induction calls as [|c calls IH]; intros s H; cbn [fold_left]; [done|].
  by apply IH, keyed_perform.
Qed.

(** *** One bookmark per chunk *)

Lemma NoDup_fmap_inj_on {A B} (f : A → B) (l : list A) :
  NoDup (f <$> l) → ∀ x y, x ∈ l → y ∈ l → f x = f y → x = y.
Proof.
  induction l as [|a l IH]; intros Hnd x y Hx Hy E.
  - by apply elem_of_nil in Hx.
  - rewrite fmap_cons in Hnd. apply NoDup_cons in Hnd as [Ha Hnd].
    apply elem_of_cons in Hx as [->|Hx], Hy as [->|Hy]; [done| | |by apply IH].
    + exfalso. apply Ha. rewrite E. apply list_elem_of_fmap. by exists y.
    + exfalso. apply Ha. rewrite <- E. apply list_elem_of_fmap. by exists x.
Qed.

Lemma uniquePairs_spec s :
  uniquePairs s = true
  ↔ ∀ k1 b1 k2 b2, bookmarks s !! k1 = Some b1 → bookmarks s !! k2 = Some b2 →
                   pairOf b1 = pairOf b2 → k1 = k2.
Proof.
  unfold uniquePairs. rewrite bool_decide_eq_true. split.
  - intros Hnd k1 b1 k2 b2 H1 H2 E.
    apply elem_of_map_to_list in H1, H2.
    pose proof (NoDup_fmap_inj_on _ _ Hnd _ _ H1 H2 E) as Heq. congruence.
  - intros H. apply (NoDup_fmap_2_strong (fun kb => pairOf (snd kb))).
    + intros [k1 b1] [k2 b2] H1%elem_of_map_to_list H2%elem_of_map_to_list E.
      simpl in E. assert (k1 = k2) as -> by by eapply H. congruence.
    + apply NoDup_map_to_list.
Qed.

Lemma uniquePairs_subset s s' :
  (∀ k b, bookmarks s' !! k = Some b → bookmarks s !! k = Some b) →
  uniquePairs s = true → uniquePairs s' = true.
Proof.
  rewrite !uniquePairs_spec. intros Hsub H k1 b1 k2 b2 H1 H2.
  apply (H k1 b1 k2 b2); by apply Hsub.
Qed.

Lemma uniquePairs_toggleBookmark uuid now d i t s :
  uniquePairs s = true →
  uniquePairs (fst (toggleBookmark uuid now d i t s)) = true.
Proof.
  intros Hu. destruct (isChunkBookmarked d i s) eqn:E.
  - destruct (find_chunk_Some _ _ _ E) as (b & Hf & _).
    unfold toggleBookmark. rewrite Hf. cbn [fst]. revert Hu.
    apply uniquePairs_subset. intros k b'. cbn.
    by intros [_ H]%lookup_delete_Some.
  - unfold toggleBookmark. rewrite find_chunk_None by done. cbn [fst saveBookmark].
    pose proof (proj1 (isChunkBookmarked_false _ _ _) E) as Hnone.
    apply uniquePairs_spec. pose proof (proj1 (uniquePairs_spec s) Hu) as H.
    intros k1 b1 k2 b2. cbn. rewrite !lookup_insert.
    repeat case_decide; subst; try done.
    + intros [= <-] H2 [= Hd Hi]. cbn in Hd, Hi. exfalso.
      by apply (Hnone k2 b2).
    + intros H1 [= <-] [= Hd Hi]. cbn in Hd, Hi. exfalso.
      by apply (Hnone k1 b1).
    + apply H.
Qed.

(** X20: on a store whose records are stored under their own keys and in
    which no chunk is bookmarked twice, [toggleBookmark] flips the state of
    the chunk, the flag [added] it returns is the state of the chunk after
    the call, and both conditions on the store hold again afterwards. *)
Theorem toggleBookmark_flips (uuid now documentId : jsstring)
  (chunkIndex : Z) (text : jsstring) (s : db) :
  keyed s = true → uniquePairs s = true →
  let s' := fst (toggleBookmark uuid now documentId chunkIndex text s) in
  let r := snd (toggleBookmark uuid now documentId chunkIndex text s) in
  isChunkBookmarked documentId chunkIndex s'
  = negb (isChunkBookmarked documentId chunkIndex s)
  ∧ added r = isChunkBookmarked documentId chunkIndex s'
  ∧ keyed s' = true ∧ uniquePairs s' = true.
Proof.
  intros Hk Hu. cbv zeta.
  split; [|split; [|split;
    [by apply keyed_toggleBookmark|by apply uniquePairs_toggleBookmark]]].
  - pose proof (proj1 (keyed_spec s) Hk) as (_ & Kb & _).
    pose proof (proj1 (uniquePairs_spec s) Hu) as U.
    destruct (isChunkBookmarked documentId chunkIndex s) eqn:E; cbn [negb].
    + destruct (find_chunk_Some _ _ _ E)
        as (b & Hf & [Hd Hi]%ofPair_true & k & Hkb).
      unfold toggleBookmark. rewrite Hf. cbn [fst].
      apply isChunkBookmarked_false. intros k' b'. cbn.
      rewrite (Kb k b Hkb). intros [Hne H']%lookup_delete_Some Hd' Hi'.
      apply Hne. apply (U k b k' b'); [done|done|].
      unfold pairOf. congruence.
    + unfold toggleBookmark. rewrite find_chunk_None by done.
      cbn [fst saveBookmark in_id in_documentId in_chunkIndex in_text].
      apply (isChunkBookmarked_putBookmark
               (Bookmark uuid documentId chunkIndex text now)).
  - destruct (isChunkBookmarked documentId chunkIndex s) eqn:E.
    + destruct (find_chunk_Some _ _ _ E)
        as (b & Hf & [Hd Hi]%ofPair_true & k & Hkb).
      pose proof (proj1 (keyed_spec s) Hk) as (_ & Kb & _).
      pose proof (proj1 (uniquePairs_spec s) Hu) as U.
      unfold toggleBookmark. rewrite Hf. cbn [fst snd added]. symmetry.
      apply isChunkBookmarked_false. intros k' b'. cbn.
      rewrite (Kb k b Hkb). intros [Hne H']%lookup_delete_Some Hd' Hi'.
      apply Hne. apply (U k b k' b'); [done|done|].
      unfold pairOf. congruence.
    + unfold toggleBookmark. rewrite find_chunk_None by done.
      cbn [fst snd added saveBookmark in_id in_documentId in_chunkIndex in_text].
      symmetry. apply (isChunkBookmarked_putBookmark
               (Bookmark uuid documentId chunkIndex text now)).
Qed.

Lemma invariants_perform s c : viaToggle c = true →
  keyed s = true ∧ uniquePairs s = true →
  keyed (perform s c) = true ∧ uniquePairs (perform s c) = true.
Proof.
  intros Hc [Hk Hu]. split; [by apply keyed_perform|].
  destruct c; cbn [perform].
  - exact Hu.
  - rewrite deleteDocument_store by done. revert Hu.
    apply uniquePairs_subset. intros k b. cbn.
    by intros [H _]%map_lookup_filter_Some.
  - discriminate Hc.
  - revert Hu. apply uniquePairs_subset. intros k b. cbn.
    by intros [_ H]%lookup_delete_Some.
  - by apply uniquePairs_toggleBookmark.
  - exact Hu.
Qed.

(** X25: after any sequence of calls on a fresh database in which
    bookmarks are written through [toggleBookmark] only (as the components
    do), no chunk of a document is bookmarked twice. *)
Theorem history_uniquePairs (calls : list call) :
  forallb viaToggle calls = true → uniquePairs (history calls) = true.
Proof.
  unfold history.
  assert (keyed emptyDb = true ∧ uniquePairs emptyDb = true) as H0
    by (split; [apply keyed_emptyDb|done]).
  revert H0. generalize emptyDb.
  induction calls as [|c calls IH]; intros s H Hall; cbn [fold_left].
  - apply H.
  - cbn in Hall. apply andb_true_iff in Hall as [Hc Hall].
    apply IH; [|done]. by apply invariants_perform.
Qed.

(** *** The bookmarks of a document *)

Local Instance keyLe_total : Total keyLe.
Proof. intros x y. apply keyLeb_total. Qed.

Local Instance keyLe_trans : Transitive keyLe.
Proof. intros x y z. apply keyLeb_trans. Qed.

Lemma StronglySorted_filter_list {A} (R : relation A) (f : A → bool) l :
  StronglySorted R l → StronglySorted R (List.filter f l).
Proof.
  induction 1 as [|x l Hl IH Hx]; cbn [List.filter]; [constructor|].
  destruct (f x); [|done]. constructor; [done|].
  apply List.Forall_forall. intros y [Hy _]%filter_In.
  rewrite List.Forall_forall in Hx. by apply Hx.
Qed.

Lemma StronglySorted_map_on {A B} (R : relation A) (R' : relation B)
  (f : A → B) (l : list A) :
  (∀ x y, x ∈ l → y ∈ l → R x y → R' (f x) (f y)) →
  StronglySorted R l → StronglySorted R' (map f l).
Proof.
  intros HR Hs. induction Hs as [|x l Hl IH Hx]; cbn [map]; [constructor|].
  constructor.
  - apply IH. intros a b Ha Hb. apply HR; by right.
  - apply Forall_map, List.Forall_forall. intros y Hy.
    rewrite List.Forall_forall in Hx. apply HR; [by left| |by apply Hx].
    right. by apply list_elem_of_In.
Qed.

Lemma NoDup_filter_list {A} (f : A → bool) l : NoDup l → NoDup (List.filter f l).
Proof.
  induction 1 as [|x l Hx Hl IH]; cbn [List.filter]; [constructor|].
  destruct (f x); [|done]. constructor; [|done].
  rewrite list_elem_of_In, filter_In, <- list_elem_of_In. tauto.
Qed.

(** X29: on a store whose records are stored under their own keys,
    [getBookmarksByDocument] lists exactly the stored bookmarks of the
    document, each once, in the order of their identifiers; there are no
    more of them than there are bookmarks. *)
Theorem getBookmarksByDocument_listing (documentId : jsstring) (s : db) :
  keyed s = true →
  (∀ b, b ∈ getBookmarksByDocument documentId s
        ↔ bm_documentId b = documentId ∧ bookmarks s !! bm_id b = Some b)
  ∧ NoDup (getBookmarksByDocument documentId s)
  ∧ StronglySorted byKey (getBookmarksByDocument documentId s)
  ∧ length (getBookmarksByDocument documentId s) ≤ size (bookmarks s).
Proof.
  intros Hk. pose proof (proj1 (keyed_spec s) Hk) as (_ & Kb & _).
  split; [|split; [|split]].
  - intros b. rewrite getBookmarksByDocument_elem. split.
    + intros [Hd [k Hkb]]. split; [done|]. by rewrite (Kb k b Hkb).
    + intros [Hd Hb]. split; [done|]. by eexists.
  - unfold getBookmarksByDocument. apply NoDup_filter_list.
    apply (NoDup_fmap_2_strong snd).
    + intros [k1 b1] [k2 b2] H1 H2 E. simpl in E. subst b2.
      rewrite merge_sort_Permutation in H1, H2.
      apply elem_of_map_to_list in H1, H2.
      rewrite <- (Kb k1 b1 H1), <- (Kb k2 b1 H2). done.
    + rewrite merge_sort_Permutation. apply NoDup_map_to_list.
  - unfold getBookmarksByDocument. apply StronglySorted_filter_list.
    apply (StronglySorted_map_on keyLe).
    + intros [k1 b1] [k2 b2] H1 H2 HR.
      rewrite merge_sort_Permutation in H1, H2.
      apply elem_of_map_to_list in H1, H2.
      unfold byKey. cbn [snd]. rewrite (Kb k1 b1 H1), (Kb k2 b2 H2). exact HR.
    + apply StronglySorted_merge_sort; apply _.
  - unfold getBookmarksByDocument.
    etransitivity; [apply filter_length_le|].
    by rewrite length_map, merge_sort_Permutation, length_map_to_list.
Qed.

(** X29, instance: the document of the sample store. *)
Lemma getBookmarksByDocument_listing_witness :
  (∀ b, b ∈ getBookmarksByDocument (js "doc") sampleDb
        ↔ bm_documentId b = js "doc" ∧ bookmarks sampleDb !! bm_id b = Some b)
  ∧ NoDup (getBookmarksByDocument (js "doc") sampleDb)
  ∧ StronglySorted byKey (getBookmarksByDocument (js "doc") sampleDb)
  ∧ length (getBookmarksByDocument (js "doc") sampleDb)
    ≤ size (bookmarks sampleDb).
Proof.
  apply (getBookmarksByDocument_listing (js "doc") sampleDb). reflexivity.
Defined.

(** X18, instance: the bookmarked chunk of the sample store. *)
Lemma toggleBookmark_removes_one_witness :
  let s' := fst (toggleBookmark (js "u") (js "t") (js "doc") 2 (js "x")
                   sampleDb) in
  ∃ k b,
    bookmarks sampleDb !! k = Some b ∧ ofPair (js "doc") 2 b = true
    ∧ bookmarks s' = delete k (bookmarks sampleDb)
    ∧ size (bookmarks s') + 1 = size (bookmarks sampleDb).
Proof.
  apply (toggleBookmark_removes_one (js "u") (js "t") (js "doc") 2 (js "x")
           sampleDb); reflexivity.
Defined.

(** X19, instance: another chunk of the sample document. *)
Lemma toggleBookmark_frame_witness :
  bookmarks (fst (toggleBookmark (js "b2") (js "t") (js "doc") 5 (js "x")
                    sampleDb)) !! js "b1"
  = Some sampleBookmark.
Proof.
  apply (toggleBookmark_frame (js "b2") (js "t") (js "doc") 5 (js "x")
           sampleDb); reflexivity.
Defined.

(** X20, instance: the bookmarked chunk of the sample store. *)
Lemma toggleBookmark_flips_witness :
  let s' := fst (toggleBookmark (js "u") (js "t") (js "doc") 2 (js "x")
                   sampleDb) in
  let r := snd (toggleBookmark (js "u") (js "t") (js "doc") 2 (js "x")
                  sampleDb) in
  isChunkBookmarked (js "doc") 2 s'
  = negb (isChunkBookmarked (js "doc") 2 sampleDb)
  ∧ added r = isChunkBookmarked (js "doc") 2 s'
  ∧ keyed s' = true ∧ uniquePairs s' = true.
Proof.
  apply (toggleBookmark_flips (js "u") (js "t") (js "doc") 2 (js "x")
           sampleDb); reflexivity.
Defined.

(** X21, instance: a document the sample store does not hold. *)
Lemma deleteDocument_frame_witness :
  let s' := deleteDocument (js "other") sampleDb in
  (∀ other, other ≠ js "other" →
            getDocument other s' = getDocument other sampleDb)
  ∧ (∀ other, other ≠ js "other" →
              getProgress other s' = getProgress other sampleDb)
  ∧ (∀ k b, bookmarks sampleDb !! k = Some b →
            bm_documentId b ≠ js "other" → bookmarks s' !! k = Some b)
  ∧ (∀ k b, bookmarks s' !! k = Some b → bookmarks sampleDb !! k = Some b).
Proof. apply (deleteDocument_frame (js "other") sampleDb). reflexivity. Defined.

(** X22, instance: the document of the sample store. *)
Lemma deleteDocument_idempotent_witness :
  deleteDocument (js "doc") (deleteDocument (js "doc") sampleDb)
  = deleteDocument (js "doc") sampleDb.
Proof. apply (deleteDocument_idempotent (js "doc") sampleDb). reflexivity. Defined.

(** X25, instance: three toggles of the same chunk. *)
Lemma history_uniquePairs_witness :
  uniquePairs
    (history [SaveDocument (js "doc") (js "t0")
                (DocumentInput None (js "notes.txt") (js "One. Two.")
                   [Chunk (js "One. Two.") None]);
              ToggleBookmark (js "b1") (js "t1") (js "doc") 0 (js "One. Two.");
              SaveProgress (js "t2") (js "doc") 0;
              ToggleBookmark (js "b2") (js "t3") (js "doc") 0 (js "One. Two.");
              ToggleBookmark (js "b3") (js "t4") (js "doc") 0 (js "One. Two.");
              DeleteDocument (js "doc")])
  = true.
Proof. apply history_uniquePairs. reflexivity. Defined.

End StoreProps.

(* ===================================================================== *)
(** ** Properties of the import of a file                                *)
(* ===================================================================== *)

Module HomeProps.
Import JS Chunker Words Notions TextParser Db Home Invariants StringFacts ChunkerProps ChunkerLaws TextParserProps DbProps.

Lemma chunkText_omitted t :
  chunkText (JString t) OptionsOmitted = Ok (chunkString t (JBool true)).
Proof. done. Qed.

Lemma getChunkStats_totalChunks (l : list chunkItem) :
  totalChunks (getChunkStats (Some l)) = length l.
Proof. by destruct l. Qed.

Lemma trim_blank t : allSpace t = true → trim t = [].
Proof. intros H. unfold trim. by rewrite trimStart_nil. Qed.

Lemma not_blank t :
  negb (nonempty t) || (length (trim t) =? 0) = false → allSpace t = false.
Proof.
  intros [_ H]%orb_false_iff. apply Nat.eqb_neq in H.
  destruct (allSpace t) eqn:E; [|done]. by rewrite trim_blank in H.
Qed.

Lemma blank_test t :
  allSpace t = false → negb (nonempty t) || (length (trim t) =? 0) = false.
Proof.
  intros H. assert (Hw : words t ≠ []) by (rewrite words_nil_iff; congruence).
  apply orb_false_iff. split.
  - destruct t; [done|done].
  - apply Nat.eqb_neq. intros H0. apply length_zero_iff_nil in H0.
    by apply trim_nil_words in H0.
Qed.

Lemma firstRangeError_app e calls1 calls2 :
  firstRangeError e (calls1 ++ calls2)
  = match firstRangeError e calls1 with
    | Some message => Some message
    | None => firstRangeError e calls2
    end.
Proof.
  induction calls1 as [|n calls1 IH]; [done|]. cbn [app firstRangeError].
  by destruct (rangeError e n).
Qed.

Lemma failure_message m : ∃ msg,
  failure m = ErrorToast (Some msg) ∧ nonempty msg = true.
Proof.
  unfold failure. destruct (nonempty m) eqn:E; eexists; split; try done.
Qed.

Lemma handleFileSelect_valid e file rest s :
  getFileType (file_name file) ≠ Unknown → (file_size file <= maxSize)%Z →
  handleFileSelect e (Some (file :: rest)) s
  = match (match getFileType (file_name file) with
           | Pdf => extractTextFromPDF e file
           | _ => extractTextFromFile (fileText e file)
           end) with
    | Rejected message => (s, Some (failure message))
    | Resolved text => afterExtraction e (file_name file) text s
    end.
Proof.
  intros Ht Hsz. unfold handleFileSelect, afterExtraction. cbv zeta.
  unfold validateFile.
  destruct (Z.ltb_spec maxSize (file_size file)) as [?|_]; [lia|].
  destruct (getFileType (file_name file)) eqn:Et; [| |done];
    cbn [valid negb type].
  all: match goal with
       |- context [match ?x with Resolved _ => _ | Rejected _ => _ end] =>
         destruct x as [text|m]; [|done] end.
  all: destruct (negb (nonempty text) || (length (trim text) =? 0)); [done|].
  all: destruct (firstRangeError e (chunkTextPushCalls text)); [done|].
  all: rewrite chunkText_omitted.
  all: destruct (firstRangeError e
                   (getChunkStatsCalls (chunkString text (JBool true))));
    [done|].
  all: destruct (length (chunkString text (JBool true)) =? 0); [done|].
  all: destruct (saveError e _); [done|].
  all: cbn [saveDocument din_id din_name din_content din_chunks].
  all: by rewrite getChunkStats_totalChunks, length_map.
Qed.

Lemma handleFileSelect_invalid e file rest s :
  getFileType (file_name file) = Unknown ∨ (maxSize < file_size file)%Z →
  ∃ msg, handleFileSelect e (Some (file :: rest)) s
         = (s, Some (ErrorToast (Some msg)))
         ∧ nonempty msg = true.
Proof.
  intros H. unfold handleFileSelect. cbv zeta. unfold validateFile.
  destruct (getFileType (file_name file)) eqn:Et.
  1,2: destruct H as [?|H]; [done|];
       destruct (Z.ltb_spec maxSize (file_size file)) as [_|?]; [|lia];
       by eexists.
  by eexists.
Qed.

Lemma file_cases (file : file) :
  (getFileType (file_name file) = Unknown ∨ (maxSize < file_size file)%Z)
  ∨ (getFileType (file_name file) ≠ Unknown
     ∧ (file_size file <= maxSize)%Z).
Proof.
  destruct (getFileType (file_name file)); [| |by left; left];
    (destruct (Z.ltb_spec maxSize (file_size file)) as [?|?];
     [by left; right|by right]).
Qed.

Lemma afterExtraction_added e name text s name' pages :
  snd (afterExtraction e name text s) = Some (AddedToast name' pages) →
  name' = name
  ∧ pages = length (chunkString text (JBool true))
  ∧ 1 ≤ pages
  ∧ allSpace text = false
  ∧ engineTakes e text = true
  ∧ storeTakes e name text = true
  ∧ fst (afterExtraction e name text s)
    = putDocument (Document (randomUUID e) name text
                     (chunkString text (JBool true)) pages (now e)) s.
Proof.
  unfold afterExtraction, engineTakes, storeTakes. cbv zeta.
  rewrite firstRangeError_app.
  destruct (negb (nonempty text) || (length (trim text) =? 0)) eqn:Eb;
    [by destruct (failure_message (js "Could not extract any text from the file"))
       as (? & -> & _)|].
  destruct (firstRangeError e (chunkTextPushCalls text)) as [m|];
    [by destruct (failure_message m) as (? & -> & _)|].
  destruct (firstRangeError e _) as [m|];
    [by destruct (failure_message m) as (? & -> & _)|].
  destruct (Nat.eqb_spec (length (chunkString text (JBool true))) 0) as [?|Hn];
    [by destruct (failure_message
         (js "Could not create any readable chunks from the file"))
       as (? & -> & _)|].
  destruct (saveError e _) as [m|];
    [by destruct (failure_message m) as (? & -> & _)|].
  cbn [fst snd]. intros [= <- <-].
  split; [done|]. split; [done|]. split; [lia|].
  split; [by apply not_blank|]. done.
Qed.


(** X26: when [handleFileSelect] announces an added document, the first
    file is of a supported type and at most 50 MB; the text stored is what
    the extractor of that type resolved to for this file
    ([extractTextFromPDF] for a PDF, else [extractTextFromFile] on the
    contents of the file) and is not blank; the store is the old store with
    one document put under the fresh identifier, holding the name, that
    text and [chunkText] of that text; the number of pages announced is its
    [totalChunks], at least 1; and every chunk has 1 to 50 words. *)
Theorem handleFileSelect_added (e : env) (files : option (list file))
  (s : db) (name : jsstring) (pages : nat) :
  snd (handleFileSelect e files s) = Some (AddedToast name pages) →
  ∃ file rest text doc,
    files = Some (file :: rest)
    ∧ name = file_name file
    ∧ getFileType name ≠ Unknown ∧ (file_size file ≤ 52428800)%Z
    ∧ match getFileType name with
      | Pdf => extractTextFromPDF e file
      | _ => extractTextFromFile (fileText e file)
      end = Resolved text
    ∧ allSpace text = false
    ∧ chunkText (JString text) OptionsOmitted = Ok (doc_chunks doc)
    ∧ doc = Document (randomUUID e) name text (doc_chunks doc) pages (now e)
    ∧ 1 ≤ pages ∧ pages = length (doc_chunks doc)
    ∧ Forall (fun c => 1 ≤ countWords (Chunker.text c) ≤ 50) (doc_chunks doc)
    ∧ fst (handleFileSelect e files s) = putDocument doc s
    ∧ getDocument (randomUUID e) (fst (handleFileSelect e files s)) = Some doc.
Proof.
  destruct files as [[|file rest]|]; try done.
  destruct (file_cases file) as [Hbad|[Ht Hsz]].
  { destruct (handleFileSelect_invalid e file rest s Hbad) as (msg & -> & _).
    done. }
  rewrite (handleFileSelect_valid e file rest s Ht Hsz).
  destruct (match getFileType (file_name file) with
            | Pdf => extractTextFromPDF e file
            | _ => extractTextFromFile (fileText e file)
            end) as [text|m] eqn:Ex;
    [|by destruct (failure_message m) as (? & -> & _)].
  intros (-> & Hp & H1 & Hb & _ & _ & Hs)%afterExtraction_added.
  exists file, rest, text,
    (Document (randomUUID e) (file_name file) text
       (chunkString text (JBool true)) pages (now e)).
  cbn [doc_chunks]. rewrite Hs.
  split; [done|]. split; [done|]. split; [done|]. split; [exact Hsz|].
  split; [exact Ex|]. split; [done|]. split; [done|]. split; [done|].
  split; [done|]. split; [done|]. split; [|split; [done|apply lookup_insert_eq]].
  apply Forall_and; split;
    [eapply Forall_impl; [apply chunkString_clean_count|];
     by intros c (_ & _ & ?)
    |apply chunkString_bound].
Qed.


Lemma flat_pages text :
  hasHeaders (normalize text) = false →
  length (chunkString text (JBool true)) ≤ countWords text
  ∧ countWords text ≤ 50 * length (chunkString text (JBool true)).
Proof.
  intros Hh. rewrite chunkString_flat by by rewrite Hh.
  destruct (pipeline_words text) as (packs & Hc & Hcat & Hb).
  rewrite trim_collapse in Hc. rewrite Hc, !length_map.
  rewrite countWords_words, <- Hcat. by apply bounded_total.
Qed.

(** X28: a text file of supported size whose contents can be read and are
    not blank, and whose cleaned text has no header, is imported whenever
    the engine takes the calls with spread arguments of this import (no
    [RangeError] in [chunkText] or [getChunkStats]) and [saveDocument]
    resolves: the document stored holds the cleaned text and its chunks,
    and the number of pages lies between a fiftieth of the word count of
    the file and the word count. *)
Theorem handleFileSelect_plain_text (e : env) (file : file)
  (rest : list TextParser.file) (s : db) (raw : jsstring) :
  getFileType (file_name file) = Txt → (file_size file <= maxSize)%Z →
  fileText e file = Resolved raw →
  allSpace raw = false → hasHeaders (normalize (cleanText raw)) = false →
  engineTakes e (cleanText raw) = true →
  storeTakes e (file_name file) (cleanText raw) = true →
  ∃ pages,
    snd (handleFileSelect e (Some (file :: rest)) s)
    = Some (AddedToast (file_name file) pages)
    ∧ pages ≤ countWords raw ≤ 50 * pages
    ∧ getDocument (randomUUID e) (fst (handleFileSelect e (Some (file :: rest)) s))
      = Some (Document (randomUUID e) (file_name file) (cleanText raw)
                (chunkString (cleanText raw) (JBool true)) pages (now e)).
Proof.
  intros Et Hsz Hraw Hblank Hh Heng Hst.
  rewrite handleFileSelect_valid by (done || by rewrite Et).
  rewrite Et, Hraw. cbn [extractTextFromFile].
  unfold afterExtraction, engineTakes, storeTakes in *. cbv zeta.
  rewrite firstRangeError_app in Heng.
  assert (Hb : allSpace (cleanText raw) = false).
  { destruct (allSpace (cleanText raw)) eqn:E; [|done].
    apply words_nil_iff in E. rewrite words_cleanText in E.
    apply words_nil_iff in E. congruence. }
  rewrite (blank_test _ Hb).
  destruct (firstRangeError e (chunkTextPushCalls (cleanText raw))); [done|].
  destruct (firstRangeError e _); [done|].
  destruct (saveError e _); [done|].
  destruct (flat_pages _ Hh) as [H1 H2].
  rewrite countWords_words, words_cleanText, <- countWords_words in H1, H2.
  assert (Hpos : 0 < countWords raw).
  { rewrite countWords_words.
    destruct (words raw) eqn:E; [|simpl; lia].
    apply words_nil_iff in E. congruence. }
  destruct (Nat.eqb_spec (length (chunkString (cleanText raw) (JBool true))) 0)
    as [H0|_]; [lia|].
  eexists. split; [done|]. split; [done|]. apply lookup_insert_eq.
Qed.

(** X26, instance: a text file of two sentences. *)
Lemma handleFileSelect_added_witness :
  ∃ file rest text doc,
    Some [sampleFile] = Some (file :: rest)
    ∧ js "notes.txt" = file_name file
    ∧ getFileType (js "notes.txt") ≠ Unknown
    ∧ (file_size file ≤ 52428800)%Z
    ∧ match getFileType (js "notes.txt") with
      | Pdf => extractTextFromPDF sampleEnv file
      | _ => extractTextFromFile (fileText sampleEnv file)
      end = Resolved text
    ∧ allSpace text = false
    ∧ chunkText (JString text) OptionsOmitted = Ok (doc_chunks doc)
    ∧ doc = Document (randomUUID sampleEnv) (js "notes.txt") text
              (doc_chunks doc) 1 (now sampleEnv)
    ∧ 1 ≤ 1 ∧ 1 = length (doc_chunks doc)
    ∧ Forall (fun c => 1 ≤ countWords (Chunker.text c) ≤ 50) (doc_chunks doc)
    ∧ fst (handleFileSelect sampleEnv (Some [sampleFile]) sampleDb)
      = putDocument doc sampleDb
    ∧ getDocument (randomUUID sampleEnv)
        (fst (handleFileSelect sampleEnv (Some [sampleFile]) sampleDb))
      = Some doc.
Proof.
  apply (handleFileSelect_added sampleEnv (Some [sampleFile]) sampleDb
           (js "notes.txt") 1).
  reflexivity.
Defined.

(** X28, instance: a text file of two sentences. *)
Lemma handleFileSelect_plain_text_witness :
  ∃ pages,
    snd (handleFileSelect sampleEnv (Some [sampleFile]) sampleDb)
    = Some (AddedToast (file_name sampleFile) pages)
    ∧ pages ≤ countWords (js "First chunk. Second chunk.") ≤ 50 * pages
    ∧ getDocument (randomUUID sampleEnv)
        (fst (handleFileSelect sampleEnv (Some [sampleFile]) sampleDb))
      = Some (Document (randomUUID sampleEnv) (file_name sampleFile)
                (cleanText (js "First chunk. Second chunk."))
                (chunkString (cleanText (js "First chunk. Second chunk."))
                   (JBool true))
                pages (now sampleEnv)).
Proof.
  apply (handleFileSelect_plain_text sampleEnv sampleFile [] sampleDb
           (js "First chunk. Second chunk.")); try reflexivity.
  vm_compute. discriminate.
Defined.

End HomeProps.
